(** * Privacy engine of the healthcare data warehouse

    A shallow embedding of [src/privacy_engine.py] (class [PrivacyEngine]):
    the k-anonymity, l-diversity and t-closeness checks, the k-anonymity
    enforcement, the comprehensive audit and the privacy-budget ledger.

    Conventions of the embedding.
    - A pandas [DataFrame] is its ordered column list and its rows; a row is
      a finite map from column names to cells.  Index labels are taken to be
      unique (the default [RangeIndex], or any frame read from SQL), so a
      label denotes one row and rows are addressed by position.
    - A cell is null ([None]/[NaN]), a string or an integer.  The engine
      only tests cells for nullness and equality and orders group keys.
    - Python [float] arithmetic is given twice.  The module [Binary64]
      embeds the distribution distance and the t-closeness check on IEEE
      binary64 numbers, with a rounding after every operation and with the
      order in which Python iterates a set as an argument; the value that
      the distance returns and the list of violations of the check are
      characterised there.  Elsewhere a float is read as the exact rational
      ([Q]) that the formula denotes.
    - A Python exception is a value of [exn]; a computation that may raise
      lives in the [outcome] monad.
    - [datetime.now().isoformat()] is read from an explicit argument. *)

From Stdlib Require Import QArith Qabs Lqa SpecFloat.
From stdpp Require Import gmap strings list sorting.

Open Scope string_scope.
Open Scope list_scope.
Open Scope nat_scope.

(** ** Python values, exceptions and the exception monad *)

Inductive value :=
  | VNull
  | VStr (s : string)
  | VInt (z : Z).

Global Instance value_eq_dec : EqDecision value.
Proof. solve_decision. Defined.

Global Instance value_countable : Countable value.
Proof.
  refine (inj_countable'
    (λ v, match v with
          | VNull => inl ()
          | VStr s => inr (inl s)
          | VInt z => inr (inr z)
          end)
    (λ x, match x with
          | inl _ => VNull
          | inr (inl s) => VStr s
          | inr (inr z) => VInt z
          end) _).
  by intros [].
Defined.

Definition is_null (v : value) : bool :=
  match v with VNull => true | _ => false end.

(** The builtin exceptions the engine can raise.  The module defines no
    exception class of its own. *)
Inductive exn :=
  | KeyError (key : string)
  | ValueError (msg : string)
  | ZeroDivisionError
  | UnboundLocalError (var : string).

Definition exn_name (e : exn) : string :=
  match e with
  | KeyError _ => "KeyError"
  | ValueError _ => "ValueError"
  | ZeroDivisionError => "ZeroDivisionError"
  | UnboundLocalError _ => "UnboundLocalError"
  end.

Inductive outcome (A : Type) :=
  | Return (a : A)
  | Raise (e : exn).
Arguments Return {A} a.
Arguments Raise {A} e.

Definition bind {A B} (m : outcome A) (f : A → outcome B) : outcome B :=
  match m with
  | Return a => f a
  | Raise e => Raise e
  end.

Notation "'let*' x ':=' m 'in' k" := (bind m (λ x, k))
  (at level 10, x name, m at level 100, k at level 200).
Notation "'let*' ' p ':=' m 'in' k" := (bind m (λ x, match x with p => k end))
  (at level 10, p pattern, m at level 100, k at level 200).

(** [raises m name]: the computation fails with an exception of class [name]. *)
Definition raises {A} (m : outcome A) (name : string) : Prop :=
  ∃ e, m = Raise e ∧ exn_name e = name.

Definition returns {A} (m : outcome A) : Prop := ∃ a, m = Return a.

(** A left-to-right loop whose body may raise. *)
Fixpoint foldlM {A B} (f : B → A → outcome B) (b : B) (l : list A) : outcome B :=
  match l with
  | [] => Return b
  | a :: l => let* b' := f b a in foldlM f b' l
  end.

(** Scalars stored in a report: [None], the float [nan], an [int], or a
    [float] (as a rational). *)
Inductive scalar :=
  | SNone
  | SNaN
  | SInt (z : Z)
  | SReal (q : Q).

(** ** Data frames *)

Abbreviation row := (gmap string value).

Record DataFrame := mkDataFrame {
  columns : list string;
  rows : list row
}.

(** Every row carries exactly the columns of the schema. *)
Definition well_formed (df : DataFrame) : Prop :=
  Forall (λ r : row, dom r = list_to_set (columns df)) (rows df).

Definition cell (r : row) (c : string) : value := default VNull (r !! c).

(** [len(df)] *)
Definition len (df : DataFrame) : nat := length (rows df).

(** [df[c]]: the column as a list of cells, or [KeyError]. *)
Definition get_column (df : DataFrame) (c : string) : outcome (list value) :=
  if decide (c ∈ columns df) then Return ((λ r, cell r c) <$> rows df)
  else Raise (KeyError c).

(** [df[c] = series]: overwrite the column in place, or append it as the
    last column. *)
Definition set_column (df : DataFrame) (c : string) (series : list value) : DataFrame :=
  {| columns := if decide (c ∈ columns df) then columns df else columns df ++ [c];
     rows := zip_with (λ (r : row) v, <[c := v]> r) (rows df) series |}.

(** [df.drop(c, axis=1)] *)
Definition drop_column (df : DataFrame) (c : string) : outcome DataFrame :=
  if decide (c ∈ columns df) then
    Return {| columns := filter (λ c', c' ≠ c) (columns df);
              rows := delete c <$> rows df |}
  else Raise (KeyError c).

(** [df[mask]]: boolean row selection. *)
Definition select (df : DataFrame) (p : row → bool) : DataFrame :=
  {| columns := columns df; rows := filter (λ r, p r = true) (rows df) |}.

(** ** Grouping: [df.groupby(keys)]

    pandas validates the keys (an empty list is a [ValueError], an unknown
    column a [KeyError]), leaves out every row with a null in a key column
    (the default [dropna=True]) and yields the groups in ascending key order
    (the default [sort=True]). *)

Abbreviation key := (list value).

Definition row_key (qi : list string) (r : row) : key := (λ c, cell r c) <$> qi.

Definition has_null (k : key) : bool := existsb is_null k.

Definition value_leb (a b : value) : bool :=
  match a, b with
  | VNull, _ => true
  | _, VNull => false
  | VInt x, VInt y => bool_decide (x ≤ y)%Z
  | VInt _, VStr _ => true
  | VStr _, VInt _ => false
  | VStr s, VStr t => String.leb s t
  end.

Fixpoint key_leb (k1 k2 : key) : bool :=
  match k1, k2 with
  | [], _ => true
  | _ :: _, [] => false
  | a :: k1, b :: k2 =>
      if decide (a = b) then key_leb k1 k2 else value_leb a b
  end.

Definition key_le (k1 k2 : key) : Prop := key_leb k1 k2 = true.

Global Instance key_le_dec : RelDecision key_le.
Proof. intros k1 k2. unfold key_le. apply _. Defined.

Fixpoint check_keys (df : DataFrame) (qi : list string) : outcome unit :=
  match qi with
  | [] => Return ()
  | c :: qi => if decide (c ∈ columns df) then check_keys df qi else Raise (KeyError c)
  end.

(** The rows that take part in the grouping. *)
Definition keyed_rows (df : DataFrame) (qi : list string) : list row :=
  filter (λ r, has_null (row_key qi r) = false) (rows df).

Definition group_keys (df : DataFrame) (qi : list string) : list key :=
  merge_sort key_le (remove_dups (row_key qi <$> keyed_rows df qi)).

Definition members (df : DataFrame) (qi : list string) (k : key) : list row :=
  filter (λ r, row_key qi r = k) (keyed_rows df qi).

Definition groupby (df : DataFrame) (qi : list string) : outcome (list (key * list row)) :=
  match qi with
  | [] => Raise (ValueError "No group keys passed!")
  | _ =>
      let* _ := check_keys df qi in
      Return ((λ k, (k, members df qi k)) <$> group_keys df qi)
  end.

(** ** The engine object

    [PrivacyEngine.__init__(k=5, l=3, t=0.2)] stores the three thresholds
    and an empty budget ledger. *)

Record BudgetEntry := mkBudgetEntry {
  query : string;
  entry_epsilon : Q;
  entry_timestamp : string;
  cumulative_epsilon : Q
}.

Record PrivacyBudget := mkPrivacyBudget {
  epsilon : Q;
  queries : list BudgetEntry
}.

Record PrivacyEngine := mkPrivacyEngine {
  k : Z;
  l : Z;
  t : Q;
  privacy_budget : PrivacyBudget
}.

Definition init (k l : Z) (t : Q) : PrivacyEngine :=
  {| k := k; l := l; t := t;
     privacy_budget := {| epsilon := 0%Q; queries := [] |} |}.

Definition default_engine : PrivacyEngine := init 5 3 (2 # 10)%Q.

(** ** [check_k_anonymity] *)

Record KAnonymity := mkKAnonymity {
  satisfies_k_anonymity : bool;
  k_value : Z;
  k_total_groups : nat;
  k_violating_groups : nat;
  smallest_group_size : scalar;
  largest_group_size : scalar;
  average_group_size : scalar;
  records_at_risk : nat
}.

(** [Series.min()], [Series.max()] and [Series.mean()] of an integer
    column; pandas hands back [nan] for an empty one. *)
Definition series_min (l : list nat) : scalar :=
  match l with
  | [] => SNaN
  | x :: l => SInt (Z.of_nat (foldr Nat.min x l))
  end.

Definition series_max (l : list nat) : scalar :=
  match l with
  | [] => SNaN
  | x :: l => SInt (Z.of_nat (foldr Nat.max x l))
  end.

Definition series_mean (l : list nat) : scalar :=
  match l with
  | [] => SNaN
  | _ => SReal (inject_Z (Z.of_nat (sum_list l)) / inject_Z (Z.of_nat (length l)))%Q
  end.

(** [grouped = df.groupby(qi).size().reset_index(name='count')], kept as the
    list of (key, count) lines. *)
Definition group_sizes (df : DataFrame) (qi : list string) : outcome (list (key * nat)) :=
  let* groups := groupby df qi in
  Return ((λ g : key * list row, (g.1, length g.2)) <$> groups).

Definition check_k_anonymity (self : PrivacyEngine) (df : DataFrame) (qi : list string)
    : outcome KAnonymity :=
  let* grouped := group_sizes df qi in
  let violations := filter (λ g : key * nat, (Z.of_nat g.2 < k self)%Z) grouped in
  Return {|
    satisfies_k_anonymity := bool_decide (length violations = 0);
    k_value := k self;
    k_total_groups := length grouped;
    k_violating_groups := length violations;
    smallest_group_size := series_min (grouped.*2);
    largest_group_size := series_max (grouped.*2);
    average_group_size := series_mean (grouped.*2);
    records_at_risk :=
      if decide (0 < length violations) then sum_list (violations.*2) else 0
  |}.

(** ** [enforce_k_anonymity]

    The method works on the caller's frame: it first stores the helper
    column [_group_size] in [df] itself.  The embedding therefore hands back
    the caller's frame as it is after the call, next to the outcome. *)

(** [df.groupby(qi)[c0].transform('count')]: for every row the number of
    non-null [c0] cells in its group, and [NaN] for a row that belongs to no
    group. *)
Definition transform_count (df : DataFrame) (qi : list string) (c0 : string)
    : list value :=
  (λ r, if has_null (row_key qi r) then VNull
        else VInt (Z.of_nat (length (filter (λ r', is_null (cell r' c0) = false)
                                            (members df qi (row_key qi r))))))
  <$> rows df.

(** [cell >= k] and [cell < k] on the helper column; a comparison with
    [NaN] is false. *)
Definition size_ge (k : Z) (v : value) : bool :=
  match v with VInt n => bool_decide (k ≤ n)%Z | _ => false end.

Definition size_lt (k : Z) (v : value) : bool :=
  match v with VInt n => bool_decide (n < k)%Z | _ => false end.

(** The index of the rows selected by a mask. *)
Fixpoint index_where {A} (p : A → bool) (i : nat) (l : list A) : list nat :=
  match l with
  | [] => []
  | x :: l => if p x then i :: index_where p (S i) l else index_where p (S i) l
  end.

Definition generalize_age (age : value) : value :=
  if bool_decide (age ∈ [VStr "18-30"; VStr "31-45"; VStr "46-60"])
  then VStr "Adult (18-60)"
  else VStr "Senior (60+)".

(** One turn of the loop over [small_groups.index]: read the age band in
    [df], write the broader band in [df_anonymous]. *)
Definition generalize_step (df : DataFrame) (df_anonymous : list row) (idx : nat)
    : list row :=
  match rows df !! idx with
  | Some r =>
      alter (λ r', <["age_group" := generalize_age (cell r "age_group")]> r')
            idx df_anonymous
  | None => df_anonymous
  end.

(** The percentage in the log line of the suppress branch,
    [suppressed/len(df)*100], divides by the number of rows. *)
Definition suppressed_percentage (suppressed n : nat) : outcome Q :=
  if decide (n = 0) then Raise ZeroDivisionError
  else Return (inject_Z (Z.of_nat suppressed) / inject_Z (Z.of_nat n) * 100)%Q.

Definition enforce_branch (self : PrivacyEngine) (df : DataFrame)
    (qi : list string) (method : string) : outcome DataFrame :=
  if decide (method = "suppress") then
    let df_anonymous := select df (λ r, size_ge (k self) (cell r "_group_size")) in
    let suppressed := len df - len df_anonymous in
    let* _ := suppressed_percentage suppressed (len df) in
    Return df_anonymous
  else if decide (method = "generalize") then
    if decide ("age_group" ∈ qi) then
      let small_groups :=
        index_where (λ r, size_lt (k self) (cell r "_group_size")) 0 (rows df) in
      Return {| columns := columns df;
                rows := foldl (generalize_step df) (rows df) small_groups |}
    else
      Return (select df (λ r, size_ge (k self) (cell r "_group_size")))
  else Raise (UnboundLocalError "df_anonymous").

Definition enforce_k_anonymity (self : PrivacyEngine) (df : DataFrame)
    (qi : list string) (method : string) : DataFrame * outcome DataFrame :=
  match groupby df qi with
  | Raise e => (df, Raise e)
  | Return _ =>
      let df := set_column df "_group_size" (transform_count df qi (default "" (head qi))) in
      (df, let* df_anonymous := enforce_branch self df qi method in
           drop_column df_anonymous "_group_size")
  end.

(** ** [check_l_diversity] *)

Record LDiversity := mkLDiversity {
  satisfies_l_diversity : bool;
  l_value : Z;
  l_sensitive_attribute : string;
  l_total_groups : nat;
  l_violating_groups : nat;
  min_diversity : scalar;
  max_diversity : scalar;
  avg_diversity : scalar
}.

(** [nunique]: the number of distinct non-null cells. *)
Definition nunique (cells : list value) : nat :=
  length (remove_dups (filter (λ v, is_null v = false) cells)).

Definition require_column (df : DataFrame) (c : string) : outcome unit :=
  if decide (c ∈ columns df) then Return () else Raise (KeyError c).

Definition check_l_diversity (self : PrivacyEngine) (df : DataFrame)
    (qi : list string) (sensitive_attribute : string) : outcome LDiversity :=
  let* groups := groupby df qi in
  let* _ := require_column df sensitive_attribute in
  let diversity_check :=
    (λ g : key * list row,
       (g.1, nunique ((λ r, cell r sensitive_attribute) <$> g.2), length g.2))
    <$> groups in
  let unique_count := (λ d : key * nat * nat, d.1.2) <$> diversity_check in
  let violations := filter (λ n, (Z.of_nat n < l self)%Z) unique_count in
  Return {|
    satisfies_l_diversity := bool_decide (length violations = 0);
    l_value := l self;
    l_sensitive_attribute := sensitive_attribute;
    l_total_groups := length diversity_check;
    l_violating_groups := length violations;
    min_diversity := series_min unique_count;
    max_diversity := series_max unique_count;
    avg_diversity := series_mean unique_count
  |}.

(** ** [calculate_earth_movers_distance]

    Here on exact rationals, where the sum does not depend on the order of
    its terms; the computation on doubles is
    [Binary64.calculate_earth_movers_distance] below. *)

Abbreviation counter := (gmap value nat).

(** [Counter(iterable)]: one key per distinct cell, null cells counted
    under one key as for a column of Python objects. *)
Definition Counter (cells : list value) : counter :=
  foldl (λ (c : counter) v, <[v := S (default 0 (c !! v))]> c) ∅ cells.

(** [sum(dist.values())] *)
Definition total (dist : counter) : nat := map_fold (λ _ n acc, n + acc) 0 dist.

(** [dist.get(key, 0)] *)
Definition get (dist : counter) (x : value) : nat := default 0 (dist !! x).

(** [a / b] on two [int]s *)
Definition true_div (a b : nat) : outcome Q :=
  if decide (b = 0) then Raise ZeroDivisionError
  else Return (inject_Z (Z.of_nat a) / inject_Z (Z.of_nat b))%Q.

Definition emd_step (dist1 dist2 : counter) (total1 total2 : nat)
    (distance : Q) (x : value) : outcome Q :=
  let* p1 := true_div (get dist1 x) total1 in
  let* p2 := true_div (get dist2 x) total2 in
  Return (distance + Qabs (p1 - p2))%Q.

Definition calculate_earth_movers_distance (dist1 dist2 : counter) : outcome Q :=
  let all_keys := elements (dom dist1 ∪ dom dist2) in
  let total1 := total dist1 in
  let total2 := total dist2 in
  let* distance := foldlM (emd_step dist1 dist2 total1 total2) 0%Q all_keys in
  Return (distance / 2)%Q.

(** ** [check_t_closeness] *)

Record Violation := mkViolation {
  v_group : key;
  v_distance : Q;
  v_size : nat
}.

Record TCloseness := mkTCloseness {
  satisfies_t_closeness : bool;
  t_value : Q;
  t_sensitive_attribute : string;
  t_total_groups : nat;
  t_violating_groups : nat;
  max_distance : scalar;
  avg_distance : scalar;
  violations : list Violation
}.

(** [distance > t] on floats *)
Definition Qgtb (x y : Q) : bool := negb (Qle_bool x y).

(** [max(distances)] of a non-empty list: the first greatest element. *)
Definition py_max (d : Q) (ds : list Q) : Q :=
  foldl (λ m x, if Qgtb x m then x else m) d ds.

Definition Qsum (ds : list Q) : Q := foldr Qplus 0%Q ds.

(** One turn of the loop over the groups. *)
Definition t_closeness_step (self : PrivacyEngine) (sensitive_attribute : string)
    (overall_dist : counter) (acc : list Violation * list Q)
    (g : key * list row) : outcome (list Violation * list Q) :=
  let group_dist := Counter ((λ r, cell r sensitive_attribute) <$> g.2) in
  let* distance := calculate_earth_movers_distance group_dist overall_dist in
  let distances := acc.2 ++ [distance] in
  if Qgtb distance (t self) then
    Return (acc.1 ++ [{| v_group := g.1; v_distance := distance;
                         v_size := length g.2 |}], distances)
  else Return (acc.1, distances).

Definition check_t_closeness (self : PrivacyEngine) (df : DataFrame)
    (qi : list string) (sensitive_attribute : string) : outcome TCloseness :=
  let* column := get_column df sensitive_attribute in
  let overall_dist := Counter column in
  let* groups := groupby df qi in
  let* '(violations, distances) :=
    foldlM (t_closeness_step self sensitive_attribute overall_dist) ([], []) groups in
  Return {|
    satisfies_t_closeness := bool_decide (length violations = 0);
    t_value := t self;
    t_sensitive_attribute := sensitive_attribute;
    t_total_groups := length distances;
    t_violating_groups := length violations;
    max_distance :=
      match distances with [] => SInt 0 | d :: ds => SReal (py_max d ds) end;
    avg_distance :=
      match distances with
      | [] => SInt 0
      | _ => SReal (Qsum distances / inject_Z (Z.of_nat (length distances)))%Q
      end;
    violations := take 10 violations
  |}.

(** ** The distance and the t-closeness check in double precision

    A Python [float] is an IEEE binary64 number, here a [spec_float] of the
    Standard Library with precision 53 and maximal exponent 1024; every
    operation rounds to nearest, ties to even.  The value of the distance
    depends on the rounding of every quotient, difference and partial sum,
    and on the order in which the partial sums are taken, that is the order
    in which Python iterates the set [all_keys].  That order is fixed by the
    hashes of the keys and by the history of the set, not by the program
    text: it is an argument of the embedding. *)

Module Binary64.

Abbreviation float := spec_float.

Definition prec : Z := 53.
Definition emax : Z := 1024.

(** [0.0], [1.0] and [2.0] *)
Definition zero : float := S754_zero false.
Definition one : float := S754_finite false 4503599627370496 (-52).
Definition two : float := S754_finite false 4503599627370496 (-51).

Definition add (x y : float) : float := SFadd prec emax x y.
Definition sub (x y : float) : float := SFsub prec emax x y.
Definition div (x y : float) : float := SFdiv prec emax x y.
Definition abs (x : float) : float := SFabs x.

(** [x > y] *)
Definition gt (x y : float) : bool := SFltb y x.

(** An [int] as the operand of a division: the integer itself, with
    exponent 0, not yet rounded. *)
Definition of_int (n : nat) : float :=
  match Z.of_nat n with
  | Zpos p => S754_finite false p 0
  | _ => zero
  end.

(** [a / b] on two [int]s: the exact quotient, rounded once. *)
Definition true_div (a b : nat) : outcome float :=
  if decide (b = 0) then Raise ZeroDivisionError
  else Return (div (of_int a) (of_int b)).

(** One turn of the loop.  The accumulator starts as the [int] 0, which
    the first addition turns into [0.0 + x]. *)
Definition emd_step (dist1 dist2 : counter) (total1 total2 : nat)
    (distance : float) (x : value) : outcome float :=
  let* p1 := true_div (get dist1 x) total1 in
  let* p2 := true_div (get dist2 x) total2 in
  Return (add distance (abs (sub p1 p2))).

(** [all_keys] lists [set(dist1.keys()) | set(dist2.keys())] in the order
    of the iteration.  Without any key the result is [0 / 2], the float
    [0.0]. *)
Definition calculate_earth_movers_distance (all_keys : list value)
    (dist1 dist2 : counter) : outcome float :=
  let total1 := total dist1 in
  let total2 := total dist2 in
  let* distance := foldlM (emd_step dist1 dist2 total1 total2) zero all_keys in
  Return (div distance two).

(** A number of a report: an [int] or a [float]. *)
Inductive number :=
  | NInt (z : Z)
  | NFloat (x : float).

Record Violation := mkViolation {
  v_group : key;
  v_distance : float;
  v_size : nat
}.

Record TCloseness := mkTCloseness {
  satisfies_t_closeness : bool;
  t_value : float;
  t_sensitive_attribute : string;
  t_total_groups : nat;
  t_violating_groups : nat;
  max_distance : number;
  avg_distance : number;
  violations : list Violation
}.

(** [max(distances)] of a non-empty list: the first greatest element. *)
Definition py_max (d : float) (ds : list float) : float :=
  foldl (λ m x, if gt x m then x else m) d ds.

Section check_t_closeness.

(** [np.mean] on a list of floats, a function of numpy; and, for the
    group with a given key, the order in which the key set of its distance
    is iterated. *)
Variable np_mean : list float → float.
Variable set_order : key → list value.

(** One turn of the loop over the groups; [t] is [self.t]. *)
Definition t_closeness_step (t : float) (sensitive_attribute : string)
    (overall_dist : counter) (acc : list Violation * list float)
    (g : key * list row) : outcome (list Violation * list float) :=
  let group_dist := Counter ((λ r, cell r sensitive_attribute) <$> g.2) in
  let* distance :=
    calculate_earth_movers_distance (set_order g.1) group_dist overall_dist in
  let distances := acc.2 ++ [distance] in
  if gt distance t then
    Return (acc.1 ++ [{| v_group := g.1; v_distance := distance;
                         v_size := length g.2 |}], distances)
  else Return (acc.1, distances).

Definition check_t_closeness (t : float) (df : DataFrame)
    (qi : list string) (sensitive_attribute : string) : outcome TCloseness :=
  let* column := get_column df sensitive_attribute in
  let overall_dist := Counter column in
  let* groups := groupby df qi in
  let* '(violations, distances) :=
    foldlM (t_closeness_step t sensitive_attribute overall_dist) ([], []) groups in
  Return {|
    satisfies_t_closeness := bool_decide (length violations = 0);
    t_value := t;
    t_sensitive_attribute := sensitive_attribute;
    t_total_groups := length distances;
    t_violating_groups := length violations;
    max_distance :=
      match distances with [] => NInt 0 | d :: ds => NFloat (py_max d ds) end;
    avg_distance :=
      match distances with [] => NInt 0 | _ => NFloat (np_mean distances) end;
    violations := take 10 violations
  |}.

End check_t_closeness.

End Binary64.

(** ** [comprehensive_privacy_audit] *)

Record AuditReport := mkAuditReport {
  timestamp : string;
  record_count : nat;
  k_anonymity : KAnonymity;
  l_diversity : gmap string LDiversity;
  t_closeness : gmap string TCloseness;
  overall_privacy_score : Q
}.

(** [d[key]] on a dict *)
Definition getitem {A} (d : gmap string A) (key : string) : outcome A :=
  match d !! key with
  | Some a => Return a
  | None => Raise (KeyError key)
  end.

(** [100 if passed else 0] *)
Definition score_of (passed : bool) : Z := if passed then 100 else 0.

(** [np.mean(scores)] of a list of [int]s *)
Definition np_mean (scores : list Z) : Q :=
  (inject_Z (foldr Z.add 0%Z scores) / inject_Z (Z.of_nat (length scores)))%Q.

Definition audit_step (self : PrivacyEngine) (df : DataFrame) (qi : list string)
    (acc : gmap string LDiversity * gmap string TCloseness) (attr : string)
    : outcome (gmap string LDiversity * gmap string TCloseness) :=
  let* lr := check_l_diversity self df qi attr in
  let* tr := check_t_closeness self df qi attr in
  Return (<[attr := lr]> acc.1, <[attr := tr]> acc.2).

Definition score_step (ld : gmap string LDiversity) (tc : gmap string TCloseness)
    (scores : list Z) (attr : string) : outcome (list Z) :=
  let* lr := getitem ld attr in
  let scores := scores ++ [score_of (satisfies_l_diversity lr)] in
  let* tr := getitem tc attr in
  Return (scores ++ [score_of (satisfies_t_closeness tr)]).

Definition comprehensive_privacy_audit (self : PrivacyEngine) (now : string)
    (df : DataFrame) (qi : list string) (sensitive_attributes : list string)
    : outcome AuditReport :=
  let* kr := check_k_anonymity self df qi in
  let* '(ld, tc) := foldlM (audit_step self df qi) (∅, ∅) sensitive_attributes in
  let scores := [score_of (satisfies_k_anonymity kr)] in
  let* scores := foldlM (score_step ld tc) scores sensitive_attributes in
  Return {|
    timestamp := now;
    record_count := len df;
    k_anonymity := kr;
    l_diversity := ld;
    t_closeness := tc;
    overall_privacy_score := np_mean scores
  |}.

(** ** The privacy-budget ledger *)

(** [track_privacy_budget] updates the ledger of the engine; it returns
    [None] and has no [raise]. *)
Definition track_privacy_budget (self : PrivacyEngine) (now : string)
    (query_name : string) (eps : Q) : PrivacyEngine * outcome unit :=
  let budget := privacy_budget self in
  let epsilon' := (epsilon budget + eps)%Q in
  let entry := {| query := query_name; entry_epsilon := eps;
                  entry_timestamp := now; cumulative_epsilon := epsilon' |} in
  ({| k := k self; l := l self; t := t self;
      privacy_budget := {| epsilon := epsilon'; queries := queries budget ++ [entry] |} |},
   Return ()).

Record BudgetReport := mkBudgetReport {
  total_epsilon_used : Q;
  total_queries : nat;
  report_queries : list BudgetEntry;
  budget_remaining : Q;
  recommended_max : Q
}.

(** [max(0, x)]: Python keeps the first argument unless the second is
    greater. *)
Definition max0 (x : Q) : Q := if Qgtb x 0 then x else 0%Q.

Definition get_privacy_budget_report (self : PrivacyEngine) : BudgetReport :=
  let budget := privacy_budget self in
  {| total_epsilon_used := epsilon budget;
     total_queries := length (queries budget);
     report_queries := queries budget;
     budget_remaining := max0 (1 - epsilon budget)%Q;
     recommended_max := 1%Q |}.

(** A run of ledger calls, each with its clock reading, label and cost. *)
Definition track_all (self : PrivacyEngine) (calls : list (string * string * Q))
    : PrivacyEngine :=
  foldl (λ self c, (track_privacy_budget self c.1.1 c.1.2 c.2).1) self calls.

(** ** The privacy dashboard ([src/privacy_dashboard.py])

    The page loads a frame from the warehouse, runs the audit with the
    thresholds of its sliders and fixed column lists, and picks the colour
    of the gauge and the closing message from the score.  The frame that
    [load_data] reads from the database is an argument here. *)

Definition run_privacy_audit (now : string) (df : DataFrame) (k_val l_val : Z)
    (t_val : Q) : outcome AuditReport :=
  let engine := init k_val l_val t_val in
  let quasi_identifiers := ["age_group"; "gender"; "state"] in
  let sensitive_attributes := ["diagnosis"; "visit_type"] in
  comprehensive_privacy_audit engine now df quasi_identifiers sensitive_attributes.

(** [x >= y] and [x < y] on floats *)
Definition Qgeb (x y : Q) : bool := Qle_bool y x.
Definition Qltb (x y : Q) : bool := negb (Qle_bool y x).

(** ["green" if score >= 80 else "yellow" if score >= 60 else "red"] *)
Definition gauge_color (score : Q) : string :=
  if Qgeb score 80 then "green"
  else if Qgeb score 60 then "yellow"
  else "red".

(** The test [audit['overall_privacy_score'] < 100] that chooses between the
    list of improvements and the message that all requirements are met. *)
Definition improvements_needed (audit : AuditReport) : bool :=
  Qltb (overall_privacy_score audit) 100.

(** ** Age bands of the loader ([src/scripts/etl.py])

    [calculate_age] reads the current date, an argument here; a date is its
    year, month and day.  A missing value ([None]/[NaN]) is [None]. *)

Record date := mkDate {
  year : Z;
  month : Z;
  day : Z
}.

(** [(m1, d1) < (m2, d2)] on tuples *)
Definition month_day_lt (a b : date) : bool :=
  if decide (month a = month b) then bool_decide (day a < day b)%Z
  else bool_decide (month a < month b)%Z.

Definition calculate_age (today : date) (dob : option date) : option Z :=
  match dob with
  | None => None
  | Some dob =>
      Some (year today - year dob - (if month_day_lt today dob then 1 else 0))%Z
  end.

Definition age_to_group (age : option Z) : string :=
  match age with
  | None => "Unknown"
  | Some age =>
      if bool_decide (age < 18)%Z then "Child (0-17)"
      else if bool_decide (age < 35)%Z then "Young Adult (18-34)"
      else if bool_decide (age < 50)%Z then "Adult (35-49)"
      else if bool_decide (age < 65)%Z then "Middle-Aged (50-64)"
      else "Senior (65+)"
  end.

(** * Notions used in the statements *)

(** ** Equivalence classes and the k-anonymity check *)

(** The elements of a list that a function sends to a given key. *)
Definition fibre {A K : Type} `{EqDecision K} (f : A → K) (xs : list A) (k : K)
    : list A :=
  filter (λ x, f x = k) xs.

(** The equivalence classes of the specification: the records with equal
    quasi-identifier values, a null equal to a null, in the order in which
    their keys are first seen. *)
Definition equivalence_classes (df : DataFrame) (qi : list string) : list (list row) :=
  fibre (row_key qi) (rows df) <$> remove_dups (row_key qi <$> rows df).

(** The records that have a value in every quasi-identifier column. *)
Definition dropna (df : DataFrame) (qi : list string) : DataFrame :=
  {| columns := columns df; rows := keyed_rows df qi |}.

Definition valid_keys (df : DataFrame) (qi : list string) : Prop :=
  qi ≠ [] ∧ Forall (λ c, c ∈ columns df) qi.

(** Statement of the claim on the grouping step, as the specification has
    it: the class sizes add up to the number of records. *)
Definition sizes_cover_dataset (df : DataFrame) (qi : list string) : Prop :=
  ∃ grouped, group_sizes df qi = Return grouped
    ∧ sum_list (grouped.*2) = len df
    ∧ Forall (λ g : key * nat, 1 ≤ g.2) grouped.

Definition null_frame : DataFrame :=
  {| columns := ["age_group"];
     rows := [ {[ "age_group" := VStr "18-30" ]}; {[ "age_group" := VNull ]} ] |}.

(** [k_check_agrees self df qi population]: the check on [df] returns, its
    verdict is true exactly when every equivalence class of [population]
    has at least [k] records, and [records_at_risk] is the sum of the sizes
    of the classes of [population] that have fewer. *)
Definition k_check_agrees (self : PrivacyEngine) (df : DataFrame)
    (qi : list string) (population : DataFrame) : Prop :=
  ∃ res, check_k_anonymity self df qi = Return res
    ∧ (satisfies_k_anonymity res = true
       ↔ Forall (λ c, (k self ≤ Z.of_nat (length c))%Z)
                (equivalence_classes population qi))
    ∧ records_at_risk res
      = sum_list (length <$> filter (λ c, (Z.of_nat (length c) < k self)%Z)
                                    (equivalence_classes population qi)).

Definition lone_null_frame : DataFrame :=
  {| columns := ["age_group"]; rows := [ {[ "age_group" := VNull ]} ] |}.

(** Statement of the claim on the empty frame: no group, a true verdict
    and the two extreme sizes reported as [undefined]. *)
Definition empty_check_reports (self : PrivacyEngine) (df : DataFrame)
    (qi : list string) (undefined : scalar) : Prop :=
  ∃ res, check_k_anonymity self df qi = Return res
    ∧ k_total_groups res = 0
    ∧ satisfies_k_anonymity res = true
    ∧ smallest_group_size res = undefined
    ∧ largest_group_size res = undefined.

Definition empty_frame : DataFrame :=
  {| columns := ["age_group"; "gender"]; rows := [] |}.

(** ** The distribution distance *)

(** The statistic of the specification: half the sum, over the union of
    the observed values, of the absolute difference of the relative
    frequencies. *)
Definition relative_frequency (dist : counter) (x : value) : Q :=
  (inject_Z (Z.of_nat (get dist x)) / inject_Z (Z.of_nat (total dist)))%Q.

Definition half_l1_distance (dist1 dist2 : counter) : Q :=
  (Qsum ((λ x, Qabs (relative_frequency dist1 x - relative_frequency dist2 x))
         <$> elements (dom dist1 ∪ dom dist2)) / 2)%Q.

(** ** The distance in double precision *)

(** The quotient of two counts, rounded to the nearest double. *)
Definition rounded_quotient (a b : nat) : Binary64.float :=
  Binary64.div (Binary64.of_int a) (Binary64.of_int b).

(** The statistic as a double: over the values in the order [ks], the
    absolute differences of two frequencies are added up one after the
    other, each difference and each partial sum rounded, and the sum is
    halved. *)
Definition rounded_distance (ks : list value) (f1 f2 : value → Binary64.float)
    : Binary64.float :=
  Binary64.div
    (foldl (λ s x, Binary64.add s (Binary64.abs (Binary64.sub (f1 x) (f2 x))))
           Binary64.zero ks)
    Binary64.two.

(** The relative frequency of a value in a counter, as a double. *)
Definition rounded_frequency_of (dist : counter) (x : value) : Binary64.float :=
  rounded_quotient (get dist x) (total dist).

(** [ks] lists the elements of a set, each once: an order of iteration. *)
Definition enumerates (ks : list value) (s : gset value) : Prop :=
  NoDup ks ∧ list_to_set ks = s.

(** Statement of the claim on the distance, with the error class that is
    to guard the division as a parameter. *)
Definition distance_is_guarded (error : string) (ks : list value)
    (dist1 dist2 : counter) : Prop :=
  (total dist1 = 0 ∨ total dist2 = 0 →
   raises (Binary64.calculate_earth_movers_distance ks dist1 dist2) error)
  ∧ (0 < total dist1 → 0 < total dist2 →
     ∃ d, Binary64.calculate_earth_movers_distance ks dist1 dist2 = Return d
       ∧ d = rounded_distance ks (rounded_frequency_of dist1)
                              (rounded_frequency_of dist2)
       ∧ SFleb Binary64.zero d = true ∧ SFleb d Binary64.one = true).

(** Ten values, [first] to [first + 9], observed once each. *)
Definition ten_values (first : Z) : counter :=
  Counter ((λ i, VInt (first + Z.of_nat i)) <$> seq 0 10).

(** What a rounding can return for a given sign: a zero, a finite number
    or an infinity of that sign. *)
Definition round_shape (s : bool) (x : Binary64.float) : Prop :=
  x = S754_zero s ∨ (∃ m e, x = S754_finite s m e) ∨ x = S754_infinity s.

Definition finite_nonneg (x : Binary64.float) : Prop :=
  x = S754_zero false ∨ ∃ m e, x = S754_finite false m e.

(** ** The ledger *)

(** Statement of the claim on a negative cost: the call fails with the
    given error class and leaves the ledger as it was. *)
Definition ledger_rejects (error : string) (self : PrivacyEngine)
    (now query_name : string) (eps : Q) : Prop :=
  (eps < 0)%Q →
  raises (track_privacy_budget self now query_name eps).2 error
  ∧ privacy_budget (track_privacy_budget self now query_name eps).1
    = privacy_budget self.

(** The entries that a run of calls appends, starting from the cumulative
    total [cum]. *)
Fixpoint entries_from (cum : Q) (calls : list (string * string * Q))
    : list BudgetEntry :=
  match calls with
  | [] => []
  | c :: calls =>
      {| query := c.1.2; entry_epsilon := c.2; entry_timestamp := c.1.1;
         cumulative_epsilon := (cum + c.2)%Q |}
      :: entries_from (cum + c.2)%Q calls
  end.

(** The cumulative total in force before the [i]-th appended entry. *)
Definition previous_cumulative (cum : Q) (entries : list BudgetEntry) (i : nat) : Q :=
  match i with
  | 0 => cum
  | S j => default cum (cumulative_epsilon <$> entries !! j)
  end.

(** ** Enforcement *)

(** The group size that pandas attaches to a record: none for a record
    with a null quasi-identifier, which belongs to no group. *)
Definition group_size (df : DataFrame) (qi : list string) (r : row) : option nat :=
  if has_null (row_key qi r) then None
  else Some (length (members df qi (row_key qi r))).

Definition in_small_group (self : PrivacyEngine) (df : DataFrame)
    (qi : list string) (r : row) : bool :=
  match group_size df qi r with
  | Some n => bool_decide (Z.of_nat n < k self)%Z
  | None => false
  end.

Definition size_cell (o : option nat) : value :=
  match o with Some n => VInt (Z.of_nat n) | None => VNull end.

(** The frame the caller is left with once the grouping has succeeded. *)
Definition annotated (df : DataFrame) (qi : list string) : DataFrame :=
  {| columns := if decide ("_group_size" ∈ columns df) then columns df
                else columns df ++ ["_group_size"];
     rows := (λ r, <["_group_size" := size_cell (group_size df qi r)]> r) <$> rows df |}.

(** Statement of the claim on an unknown method, with the error class as a
    parameter. *)
Definition unknown_method_fails (error : string) (self : PrivacyEngine)
    (df : DataFrame) (qi : list string) (method : string) : Prop :=
  method ≠ "suppress" → method ≠ "generalize" →
  raises (enforce_k_anonymity self df qi method).2 error.

Definition small_frame : DataFrame :=
  {| columns := ["age_group"; "gender"];
     rows := [ {[ "age_group" := VStr "18-30"; "gender" := VStr "F" ]};
               {[ "age_group" := VStr "61-75"; "gender" := VStr "M" ]};
               {[ "age_group" := VStr "18-30"; "gender" := VStr "F" ]} ] |}.

(** ** The t-closeness check *)

Global Instance Qlt_dec (x y : Q) : Decision (x < y)%Q.
Proof.
  destruct (Qlt_le_dec x y) as [H|H]; [left; exact H | right].
  intros H'. exact (Qlt_not_le _ _ H' H).
Defined.

(** The value of the distance when the computation returns. *)
Definition distance_of (dist1 dist2 : counter) : Q :=
  match calculate_earth_movers_distance dist1 dist2 with
  | Return d => d
  | Raise _ => 0%Q
  end.

(** The distribution of a sensitive column over the whole frame. *)
Definition overall_dist (df : DataFrame) (sensitive_attribute : string) : counter :=
  Counter ((λ r, cell r sensitive_attribute) <$> rows df).

(** The distribution of a sensitive column inside a group. *)
Definition group_dist (sensitive_attribute : string) (g : key * list row) : counter :=
  Counter ((λ r, cell r sensitive_attribute) <$> g.2).

(** The distance of a group to the distribution of the whole frame. *)
Definition group_distance (df : DataFrame) (sensitive_attribute : string)
    (g : key * list row) : Q :=
  distance_of (group_dist sensitive_attribute g) (overall_dist df sensitive_attribute).

(** The entry that the report keeps for a violating group. *)
Definition violation_of (df : DataFrame) (sensitive_attribute : string)
    (g : key * list row) : Violation :=
  {| v_group := g.1; v_distance := group_distance df sensitive_attribute g;
     v_size := length g.2 |}.

Definition violates (self : PrivacyEngine) (df : DataFrame)
    (sensitive_attribute : string) (g : key * list row) : Prop :=
  (t self < group_distance df sensitive_attribute g)%Q.

Definition clinic_frame : DataFrame :=
  {| columns := ["age_group"; "gender"; "diagnosis"];
     rows := [ {[ "age_group" := VStr "18-30"; "gender" := VStr "F"; "diagnosis" := VStr "flu" ]};
               {[ "age_group" := VStr "61-75"; "gender" := VStr "M"; "diagnosis" := VStr "flu" ]};
               {[ "age_group" := VStr "18-30"; "gender" := VStr "F"; "diagnosis" := VStr "asthma" ]};
               {[ "age_group" := VStr "61-75"; "gender" := VStr "M"; "diagnosis" := VStr "flu" ]} ] |}.

(** ** The t-closeness check in double precision *)

(** The number of times a value occurs in a column, and its relative
    frequency there as a double. *)
Definition occurrences (x : value) (cells : list value) : nat :=
  length (filter (λ y, y = x) cells).

Definition rounded_frequency (cells : list value) (x : value) : Binary64.float :=
  rounded_quotient (occurrences x cells) (length cells).

Definition sensitive_values (sensitive_attribute : string) (rs : list row)
    : list value :=
  (λ r, cell r sensitive_attribute) <$> rs.

(** [groups] lists the equivalence classes of the records without a null
    quasi-identifier, each with its key, in ascending order of the keys. *)
Definition classes_in_key_order (df : DataFrame) (qi : list string)
    (groups : list (key * list row)) : Prop :=
  Sorted key_le (groups.*1)
  ∧ NoDup (groups.*1)
  ∧ (∀ k0, k0 ∈ groups.*1
       ↔ has_null k0 = false ∧ ∃ r, r ∈ rows df ∧ row_key qi r = k0)
  ∧ Forall (λ g, g.2 = fibre (row_key qi) (rows df) g.1) groups.

(** The distance of a group to the whole frame, as a double, when the
    values are iterated in the order [ks]. *)
Definition rounded_group_distance (df : DataFrame) (sensitive_attribute : string)
    (ks : list value) (g : key * list row) : Binary64.float :=
  rounded_distance ks
    (rounded_frequency (sensitive_values sensitive_attribute g.2))
    (rounded_frequency (sensitive_values sensitive_attribute (rows df))).

(** A group is a violation when its distance is greater than [t]. *)
Definition rounded_violates (t : Binary64.float) (df : DataFrame)
    (sensitive_attribute : string) (set_order : key → list value)
    (g : key * list row) : Prop :=
  SFltb t (rounded_group_distance df sensitive_attribute (set_order g.1) g) = true.

Global Instance rounded_violates_dec t df sensitive_attribute set_order g :
  Decision (rounded_violates t df sensitive_attribute set_order g).
Proof. unfold rounded_violates. apply _. Defined.

(** The entry that the report keeps for a violating group. *)
Definition rounded_violation_of (df : DataFrame) (sensitive_attribute : string)
    (set_order : key → list value) (g : key * list row) : Binary64.Violation :=
  {| Binary64.v_group := g.1;
     Binary64.v_distance :=
       rounded_group_distance df sensitive_attribute (set_order g.1) g;
     Binary64.v_size := length g.2 |}.

Definition skewed_frame : DataFrame :=
  {| columns := ["age_group"; "diagnosis"];
     rows := [ {[ "age_group" := VStr "18-30"; "diagnosis" := VStr "flu" ]};
               {[ "age_group" := VStr "18-30"; "diagnosis" := VStr "flu" ]};
               {[ "age_group" := VStr "18-30"; "diagnosis" := VStr "flu" ]};
               {[ "age_group" := VStr "18-30"; "diagnosis" := VStr "flu" ]};
               {[ "age_group" := VStr "18-30"; "diagnosis" := VStr "asthma" ]};
               {[ "age_group" := VStr "61-75"; "diagnosis" := VStr "flu" ]};
               {[ "age_group" := VStr "61-75"; "diagnosis" := VStr "flu" ]};
               {[ "age_group" := VStr "61-75"; "diagnosis" := VStr "asthma" ]};
               {[ "age_group" := VStr "61-75"; "diagnosis" := VStr "asthma" ]};
               {[ "age_group" := VStr "61-75"; "diagnosis" := VStr "asthma" ]} ] |}.

(** ** The audit *)

(** [checked self df qi attr p]: [p] holds the two results for the
    attribute. *)
Definition checked (self : PrivacyEngine) (df : DataFrame) (qi : list string)
    (attr : string) (p : LDiversity * TCloseness) : Prop :=
  check_l_diversity self df qi attr = Return p.1
  ∧ check_t_closeness self df qi attr = Return p.2.

(** The two dictionaries hold, for every attribute met so far, the
    results of its checks; a repeated attribute overwrites its entry with
    the same results. *)
Definition holds_results (self : PrivacyEngine) (df : DataFrame) (qi : list string)
    (acc : gmap string LDiversity * gmap string TCloseness) : Prop :=
  ∀ a, (∀ lr, acc.1 !! a = Some lr → check_l_diversity self df qi a = Return lr)
     ∧ (∀ tr, acc.2 !! a = Some tr → check_t_closeness self df qi a = Return tr)
     ∧ (is_Some (acc.1 !! a) ↔ is_Some (acc.2 !! a)).

(** The scores appended for the attributes. *)
Definition attribute_scores (results : list (LDiversity * TCloseness)) : list Z :=
  results ≫= λ p, [score_of (satisfies_l_diversity p.1);
                   score_of (satisfies_t_closeness p.2)].

(** The verdicts that enter the score: the k-anonymity verdict, then, for
    every audited attribute in turn, its l-diversity and its t-closeness
    verdict. *)
Definition checks_of (kr : KAnonymity) (results : list (LDiversity * TCloseness))
    : list bool :=
  satisfies_k_anonymity kr
  :: (results ≫= λ p, [satisfies_l_diversity p.1; satisfies_t_closeness p.2]).

Definition passed (checks : list bool) : nat :=
  length (filter (λ b, b = true) checks).

(** ** The l-diversity check *)

(** The distinct values, nulls apart, that a sensitive column takes in a
    group. *)
Definition distinct_values (sensitive_attribute : string) (g : key * list row)
    : gset value :=
  list_to_set (filter (λ v, is_null v = false)
                      ((λ r, cell r sensitive_attribute) <$> g.2)).

(** ** Suppression *)

(** A record is kept by the suppression when it belongs to a group of at
    least k records. *)
Definition in_large_group (self : PrivacyEngine) (df : DataFrame)
    (qi : list string) (r : row) : bool :=
  match group_size df qi r with
  | Some n => bool_decide (k self ≤ Z.of_nat n)%Z
  | None => false
  end.

(** ** The ledger invariant *)

(** The cumulative total of the ledger is the sum of the recorded costs,
    and the last entry, if any, carries it. *)
Definition ledger_invariant (self : PrivacyEngine) : Prop :=
  let budget := privacy_budget self in
  (epsilon budget == Qsum (entry_epsilon <$> queries budget))%Q
  ∧ ∀ e, last (queries budget) = Some e → (cumulative_epsilon e == epsilon budget)%Q.

(** ** Dates *)

(** The calendar order on dates, and the date of the [n]-th anniversary. *)
Definition date_lt (a b : date) : Prop :=
  (year a < year b
   ∨ (year a = year b
      ∧ (month a < month b ∨ (month a = month b ∧ day a < day b))))%Z.

Definition date_le (a b : date) : Prop :=
  (year a < year b
   ∨ (year a = year b
      ∧ (month a < month b ∨ (month a = month b ∧ day a ≤ day b))))%Z.

Definition anniversary (dob : date) (n : Z) : date :=
  {| year := year dob + n; month := month dob; day := day dob |}.

(** Frames on which the further properties are exercised. *)
Definition one_group_frame : DataFrame :=
  {| columns := ["age_group"; "diagnosis"];
     rows := [ {[ "age_group" := VStr "18-30"; "diagnosis" := VStr "flu" ]};
               {[ "age_group" := VStr "18-30"; "diagnosis" := VStr "asthma" ]} ] |}.

Definition full_frame : DataFrame :=
  {| columns := ["age_group"; "gender"; "state"; "diagnosis"; "visit_type"];
     rows := [ {[ "age_group" := VStr "Adult (35-49)"; "gender" := VStr "F";
                  "state" := VStr "CA"; "diagnosis" := VStr "flu";
                  "visit_type" := VStr "ER" ]};
               {[ "age_group" := VStr "Adult (35-49)"; "gender" := VStr "F";
                  "state" := VStr "CA"; "diagnosis" := VStr "asthma";
                  "visit_type" := VStr "Inpatient" ]} ] |}.

Definition loader_frame : DataFrame :=
  {| columns := ["age_group"; "gender"];
     rows := [ {[ "age_group" := VStr "Child (0-17)"; "gender" := VStr "F" ]};
               {[ "age_group" := VStr "Adult (35-49)"; "gender" := VStr "M" ]};
               {[ "age_group" := VStr "Adult (35-49)"; "gender" := VStr "M" ]} ] |}.

(** * Properties *)

(** ** The exception monad *)

Lemma bind_Return {A B} (m : outcome A) (f : A → outcome B) (b : B) :
  bind m f = Return b ↔ ∃ a, m = Return a ∧ f a = Return b.
Proof.
  split.
  - destruct m as [a|e]; simpl; [eauto | discriminate].
  - intros (a & -> & Hf). exact Hf.
Qed.

Lemma raises_not_returns {A} (m : outcome A) name : raises m name → ¬ returns m.
Proof. intros (e & -> & _) [a Ha]. discriminate. Qed.

(** ** Counting lemmas for partitions of a list *)

Section partition.
Context {A K : Type} `{EqDecision K} (f : A → K).

Lemma sum_list_with_add {B} (g h : B → nat) (ks : list B) :
  sum_list_with (λ k, g k + h k) ks = sum_list_with g ks + sum_list_with h ks.
Proof. induction ks as [|k ks IH]; simpl; [done | rewrite IH; lia]. Qed.

Lemma sum_list_with_eq {B} (g h : B → nat) (ks : list B) :
  (∀ k, g k = h k) → sum_list_with g ks = sum_list_with h ks.
Proof. intros E. induction ks as [|k ks IH]; simpl; [done | by rewrite E, IH]. Qed.

Lemma sum_indicator (x : K) (n : nat) (ks : list K) :
  NoDup ks →
  sum_list_with (λ k, if decide (x = k) then n else 0) ks
  = if decide (x ∈ ks) then n else 0.
Proof.
  induction 1 as [|k ks Hk Hnd IH].
  - simpl. destruct (decide (x ∈ [])) as [Hin|_]; [|done].
    by apply not_elem_of_nil in Hin.
  - cbn [sum_list_with]. rewrite IH.
    destruct (decide (x = k)) as [->|Hxk].
    + rewrite decide_False by done. by rewrite decide_True by left.
    + destruct (decide (x ∈ ks)) as [Hin|Hnin].
      * by rewrite decide_True by (by right).
      * rewrite decide_False; [done|]. rewrite elem_of_cons. tauto.
Qed.

Lemma length_fibre_cons (x : A) (xs : list A) (k : K) :
  length (fibre f (x :: xs) k)
  = (if decide (f x = k) then 1 else 0) + length (fibre f xs k).
Proof.
  unfold fibre. rewrite filter_cons. by destruct (decide (f x = k)).
Qed.

(** The fibres over a duplicate-free list of keys that covers the list
    partition it. *)
Lemma sum_fibres (ks : list K) (xs : list A) :
  NoDup ks → (∀ x, x ∈ xs → f x ∈ ks) →
  sum_list_with (λ k, length (fibre f xs k)) ks = length xs.
Proof.
  intros Hnd. induction xs as [|x xs IH]; intros Hcov.
  - clear. induction ks as [|k ks IHk]; [done|].
    cbn [sum_list_with]. by rewrite IHk.
  - rewrite (sum_list_with_eq _ (λ k,
      (if decide (f x = k) then 1 else 0) + length (fibre f xs k)))
      by (intros k; apply length_fibre_cons).
    rewrite sum_list_with_add, sum_indicator, IH by
      (done || (intros y Hy; apply Hcov; by right)).
    rewrite decide_True by (apply Hcov; left). done.
Qed.

Lemma fibre_nonempty (xs : list A) (k : K) :
  k ∈ f <$> xs → 1 ≤ length (fibre f xs k).
Proof.
  intros (x & -> & Hx)%list_elem_of_fmap.
  assert (x ∈ fibre f xs (f x)) as Hin by (by apply list_elem_of_filter).
  destruct (fibre f xs (f x)); [by apply not_elem_of_nil in Hin | simpl; lia].
Qed.
End partition.

(** ** Lists *)

Lemma sum_list_fmap {A} (g : A → nat) (xs : list A) :
  sum_list (g <$> xs) = sum_list_with g xs.
Proof.
  induction xs as [|x xs IH]; [done|].
  rewrite fmap_cons. cbn [sum_list_with]. by rewrite IH.
Qed.

Lemma filter_fmap {A B} (g : A → B) (P : B → Prop) `{∀ b, Decision (P b)}
    (xs : list A) :
  filter P (g <$> xs) = g <$> filter (λ x, P (g x)) xs.
Proof.
  induction xs as [|x xs IH]; [done|]. rewrite fmap_cons, !filter_cons.
  destruct (decide (P (g x))); [rewrite fmap_cons|]; by rewrite IH.
Qed.

Lemma filter_empty_iff {A} (P : A → Prop) `{∀ a, Decision (P a)} (xs : list A) :
  length (filter P xs) = 0 ↔ Forall (λ x, ¬ P x) xs.
Proof.
  induction xs as [|x xs IH]; [by split; [constructor|]|].
  rewrite filter_cons, Forall_cons. destruct (decide (P x)); simpl.
  - split; [lia | tauto].
  - rewrite IH. tauto.
Qed.

(** ** Grouping *)

Lemma check_keys_valid df qi :
  Forall (λ c, c ∈ columns df) qi → check_keys df qi = Return ().
Proof.
  induction 1 as [|c qi Hc _ IH]; simpl; [done|].
  by rewrite decide_True.
Qed.

Lemma groupby_valid df qi :
  valid_keys df qi →
  groupby df qi = Return ((λ k, (k, members df qi k)) <$> group_keys df qi).
Proof.
  intros [Hne Hcols]. unfold groupby.
  destruct qi as [|c qi]; [done|]. by rewrite check_keys_valid.
Qed.

Lemma group_sizes_valid df qi :
  valid_keys df qi →
  group_sizes df qi
  = Return ((λ k, (k, length (members df qi k))) <$> group_keys df qi).
Proof.
  intros Hv. unfold group_sizes. rewrite groupby_valid by done. simpl.
  by rewrite <- list_fmap_compose.
Qed.

Lemma group_keys_perm df qi :
  group_keys df qi ≡ₚ remove_dups (row_key qi <$> keyed_rows df qi).
Proof. apply merge_sort_Permutation. Qed.

Lemma group_keys_NoDup df qi : NoDup (group_keys df qi).
Proof. rewrite group_keys_perm. apply NoDup_remove_dups. Qed.

Lemma elem_of_group_keys df qi k :
  k ∈ group_keys df qi ↔ k ∈ row_key qi <$> keyed_rows df qi.
Proof. rewrite group_keys_perm. apply elem_of_remove_dups. Qed.

(** The size column of the grouping, up to the order of the lines, lists
    the sizes of the specification's classes of the null-free records. *)
Lemma group_sizes_classes df qi :
  ((λ k, (k, length (members df qi k))) <$> group_keys df qi).*2
  ≡ₚ length <$> equivalence_classes (dropna df qi) qi.
Proof.
  unfold equivalence_classes, dropna; simpl.
  rewrite <- !list_fmap_compose. rewrite group_keys_perm. done.
Qed.

Lemma dropna_no_null df qi :
  Forall (λ r, has_null (row_key qi r) = false) (rows df) → dropna df qi = df.
Proof.
  intros Hall. destruct df as [cols rs]. unfold dropna, keyed_rows; simpl in *.
  f_equal. induction Hall as [|r rs Hr _ IH]; [done|].
  rewrite filter_cons_True by done. by rewrite IH.
Qed.

(** The groups partition the records that take part in the grouping. *)
Lemma sum_group_sizes df qi :
  sum_list_with (λ k0, length (members df qi k0)) (group_keys df qi)
  = length (keyed_rows df qi).
Proof.
  apply (sum_fibres (row_key qi)); [apply group_keys_NoDup|].
  intros r Hr. apply elem_of_group_keys. by apply list_elem_of_fmap_2.
Qed.

Lemma group_nonempty df qi k0 :
  k0 ∈ group_keys df qi → 1 ≤ length (members df qi k0).
Proof.
  intros Hk0. apply (fibre_nonempty (row_key qi)). by apply elem_of_group_keys.
Qed.

(** C2, as stated, fails on a frame with a null quasi-identifier: the
    grouping yields one class of size 1 for a frame of two records. *)
Lemma C2_null_rows_are_not_grouped :
  valid_keys null_frame ["age_group"]
  ∧ group_sizes null_frame ["age_group"] = Return [([VStr "18-30"], 1)]
  ∧ len null_frame = 2
  ∧ ¬ sizes_cover_dataset null_frame ["age_group"].
Proof.
  assert (group_sizes null_frame ["age_group"] = Return [([VStr "18-30"], 1)])
    as Hg by (vm_compute; reflexivity).
  split; [|split; [exact Hg|split; [reflexivity|]]].
  - split; [done|]. repeat constructor.
  - intros (grouped & Hgr & Hsum & _). rewrite Hg in Hgr.
    injection Hgr as <-. vm_compute in Hsum. discriminate.
Qed.

(** C2 (amended): for a non-empty list of existing quasi-identifier
    columns, the sizes of the classes produced by the grouping step add up
    to the number of records that have no null in those columns, and every
    class has at least one record. *)
Theorem C2_group_sizes_sum df qi :
  valid_keys df qi →
  ∃ grouped, group_sizes df qi = Return grouped
    ∧ sum_list (grouped.*2) = len (dropna df qi)
    ∧ Forall (λ g : key * nat, 1 ≤ g.2) grouped.
Proof.
  intros Hv. eexists. split; [by apply group_sizes_valid|]. split.
  - rewrite <- list_fmap_compose, sum_list_fmap. apply sum_group_sizes.
  - apply Forall_fmap, Forall_forall. intros k0 Hk0.
    by apply group_nonempty.
Qed.

Lemma C2_group_sizes_sum_witness :
  ∃ grouped, group_sizes null_frame ["age_group"] = Return grouped
    ∧ sum_list (grouped.*2) = len (dropna null_frame ["age_group"])
    ∧ Forall (λ g : key * nat, 1 ≤ g.2) grouped.
Proof.
  apply (C2_group_sizes_sum null_frame ["age_group"]).
  split; [discriminate|]. repeat constructor.
Defined.

(** For a frame without a null in the quasi-identifier columns the sizes
    add up to the whole frame. *)
Corollary group_sizes_sum_no_null df qi :
  valid_keys df qi →
  Forall (λ r, has_null (row_key qi r) = false) (rows df) →
  sizes_cover_dataset df qi.
Proof.
  intros Hv Hnn. eexists. split; [by apply group_sizes_valid|]. split.
  - rewrite <- list_fmap_compose, sum_list_fmap.
    etrans; [apply sum_group_sizes|].
    change (keyed_rows df qi) with (rows (dropna df qi)).
    by rewrite dropna_no_null.
  - apply Forall_fmap, Forall_forall. intros k0 Hk0.
    by apply group_nonempty.
Qed.

(** ** k-anonymity *)

Lemma check_k_anonymity_valid self df qi :
  valid_keys df qi →
  ∃ res, check_k_anonymity self df qi = Return res
    ∧ ∃ sizes, sizes ≡ₚ length <$> equivalence_classes (dropna df qi) qi
      ∧ k_total_groups res = length sizes
      ∧ k_violating_groups res
        = length (filter (λ n, (Z.of_nat n < k self)%Z) sizes)
      ∧ satisfies_k_anonymity res
        = bool_decide (length (filter (λ n, (Z.of_nat n < k self)%Z) sizes) = 0)
      ∧ records_at_risk res
        = sum_list (filter (λ n, (Z.of_nat n < k self)%Z) sizes)
      ∧ smallest_group_size res = series_min sizes
      ∧ largest_group_size res = series_max sizes
      ∧ average_group_size res = series_mean sizes.
Proof.
  intros Hv. unfold check_k_anonymity. rewrite group_sizes_valid by done.
  simpl. eexists; split; [reflexivity|]. simpl.
  set (grouped := (λ k0, (k0, length (members df qi k0))) <$> group_keys df qi).
  exists (grouped.*2). split; [apply group_sizes_classes|].
  rewrite (filter_fmap snd), !length_fmap.
  repeat split; try done.
  case_decide as Hlen; [done|].
  assert (length (filter (λ g : key * nat, (Z.of_nat g.2 < k self)%Z) grouped) = 0)
    as ->%nil_length_inv by lia.
  done.
Qed.

(** C1 (amended): for a non-empty list of existing quasi-identifier columns
    and every k, the check returns; its verdict is true exactly when every
    equivalence class of the records without a null quasi-identifier has at
    least k records, and [records_at_risk] is the exact sum of the sizes of
    those classes that have fewer than k (0 when there are none). *)
Theorem C1_check_k_anonymity self df qi :
  valid_keys df qi → k_check_agrees self df qi (dropna df qi).
Proof.
  intros Hv.
  destruct (check_k_anonymity_valid self df qi Hv)
    as (res & Hres & sizes & Hperm & _ & _ & Hsat & Hrisk & _).
  exists res. split; [done|]. split.
  - rewrite Hsat, bool_decide_eq_true, filter_empty_iff, Hperm, Forall_fmap.
    apply Forall_iff. intros c. simpl. lia.
  - rewrite Hrisk, Hperm, (filter_fmap length). done.
Qed.

Lemma C1_check_k_anonymity_witness :
  k_check_agrees (init 2 3 (2 # 10)) null_frame ["age_group"]
                 (dropna null_frame ["age_group"]).
Proof.
  apply (C1_check_k_anonymity (init 2 3 (2 # 10)) null_frame ["age_group"]).
  split; [discriminate|]. repeat constructor.
Defined.

(** C1, as stated, fails when a quasi-identifier is null: the only record
    of [lone_null_frame] forms a class of size 1, below k = 2, yet the check
    reports the frame as 2-anonymous with no record at risk. *)
Lemma C1_null_class_is_not_checked :
  valid_keys lone_null_frame ["age_group"]
  ∧ (∃ res, check_k_anonymity (init 2 3 (2 # 10)) lone_null_frame ["age_group"]
            = Return res
       ∧ satisfies_k_anonymity res = true ∧ records_at_risk res = 0)
  ∧ length <$> equivalence_classes lone_null_frame ["age_group"] = [1]
  ∧ ¬ k_check_agrees (init 2 3 (2 # 10)) lone_null_frame ["age_group"]
        lone_null_frame.
Proof.
  assert (∃ res, check_k_anonymity (init 2 3 (2 # 10)) lone_null_frame ["age_group"]
            = Return res
       ∧ satisfies_k_anonymity res = true ∧ records_at_risk res = 0) as Hres
    by (eexists; split; [vm_compute; reflexivity | done]).
  assert (length <$> equivalence_classes lone_null_frame ["age_group"] = [1])
    as Hcls by (vm_compute; reflexivity).
  split; [split; [discriminate | repeat constructor]|].
  split; [exact Hres|]. split; [exact Hcls|].
  destruct Hres as (res & Hres & Hsat & _).
  intros (res' & Hres' & Hiff & _). rewrite Hres in Hres'. injection Hres' as <-.
  apply Hiff in Hsat.
  assert (Forall (λ n, (2 ≤ Z.of_nat n)%Z)
            (length <$> equivalence_classes lone_null_frame ["age_group"])) as Hbad
    by (apply Forall_fmap; exact Hsat).
  rewrite Hcls in Hbad. apply Forall_cons in Hbad as [Hbad _]. lia.
Qed.

(** For a frame without a null in the quasi-identifier columns the claim
    holds as stated. *)
Corollary check_k_anonymity_no_null self df qi :
  valid_keys df qi →
  Forall (λ r, has_null (row_key qi r) = false) (rows df) →
  k_check_agrees self df qi df.
Proof.
  intros Hv Hnn.
  destruct (check_k_anonymity_valid self df qi Hv)
    as (res & Hres & sizes & Hperm & _ & _ & Hsat & Hrisk & _).
  rewrite (dropna_no_null df qi Hnn) in Hperm.
  exists res. split; [done|]. split.
  - rewrite Hsat, bool_decide_eq_true, filter_empty_iff, Hperm, Forall_fmap.
    apply Forall_iff. intros c. simpl. lia.
  - rewrite Hrisk, Hperm, (filter_fmap length). done.
Qed.

(** *** The empty frame *)

Lemma group_keys_empty df qi : rows df = [] → group_keys df qi = [].
Proof. unfold group_keys, keyed_rows. by intros ->. Qed.

(** C7 (amended): on a frame without records, for a non-empty list of
    existing quasi-identifier columns and every k, the check returns
    [total_groups = 0] and a true verdict; the smallest and the largest
    group size are the float [nan] that pandas gives for the minimum and
    the maximum of an empty column. *)
Theorem C7_check_k_anonymity_empty self df qi :
  rows df = [] → valid_keys df qi →
  empty_check_reports self df qi SNaN.
Proof.
  intros Hrows Hv. unfold empty_check_reports, check_k_anonymity.
  rewrite group_sizes_valid, group_keys_empty by done. simpl.
  eexists. split; [reflexivity|]. done.
Qed.

Lemma C7_check_k_anonymity_empty_witness :
  empty_check_reports default_engine empty_frame ["age_group"; "gender"] SNaN.
Proof.
  apply (C7_check_k_anonymity_empty default_engine empty_frame ["age_group"; "gender"]).
  - reflexivity.
  - split; [discriminate|]. repeat constructor.
Defined.

(** C7, as stated, fails: the two sizes of the empty frame are not [None]. *)
Lemma C7_empty_sizes_are_nan :
  valid_keys empty_frame ["age_group"; "gender"]
  ∧ (∃ res, check_k_anonymity default_engine empty_frame ["age_group"; "gender"]
            = Return res
       ∧ smallest_group_size res = SNaN ∧ largest_group_size res = SNaN)
  ∧ ¬ empty_check_reports default_engine empty_frame ["age_group"; "gender"] SNone.
Proof.
  split; [split; [discriminate | repeat constructor]|].
  split; [eexists; split; [vm_compute; reflexivity | done]|].
  intros (res & Hres & _ & _ & Hmin & _).
  vm_compute in Hres. injection Hres as <-. discriminate.
Qed.

(** ** The distribution distance *)

Lemma total_empty : total ∅ = 0.
Proof. apply map_fold_empty. Qed.

Lemma total_insert (dist : counter) x n :
  dist !! x = None → total (<[x := n]> dist) = n + total dist.
Proof.
  intros Hx. unfold total. rewrite map_fold_insert_L; [done| |done].
  intros; lia.
Qed.

Lemma get_insert (dist : counter) x n y :
  dist !! x = None →
  get (<[x := n]> dist) y = (if decide (x = y) then n else 0) + get dist y.
Proof.
  intros Hx. unfold get. rewrite lookup_insert.
  destruct (decide (x = y)) as [->|]; simpl; [by rewrite Hx | done].
Qed.

(** Summing the counts over any duplicate-free list that covers the keys
    gives the total. *)
Lemma sum_get_total (dist : counter) (xs : list value) :
  NoDup xs → (∀ x, x ∈ dom dist → x ∈ xs) →
  sum_list_with (get dist) xs = total dist.
Proof.
  intros Hnd. induction dist as [|x n dist Hx IH] using map_ind; intros Hcov.
  - rewrite total_empty. clear. induction xs as [|y xs IHx]; [done|].
    cbn [sum_list_with]. by rewrite IHx.
  - rewrite total_insert by done.
    rewrite (sum_list_with_eq _ (λ y, (if decide (x = y) then n else 0) + get dist y))
      by (intros y; by apply get_insert).
    rewrite sum_list_with_add, sum_indicator, IH by
      (done || (intros y Hy; apply Hcov; set_solver)).
    rewrite decide_True; [done|]. apply Hcov. set_solver.
Qed.

Lemma total_Counter (cells : list value) : total (Counter cells) = length cells.
Proof.
  unfold Counter.
  assert (∀ (c : counter), total (foldl (λ (c : counter) v,
            <[v := S (default 0 (c !! v))]> c) c cells) = total c + length cells)
    as H; [|by rewrite H, total_empty].
  induction cells as [|v cells IH]; intros c; simpl; [lia|].
  rewrite IH. destruct (c !! v) as [n|] eqn:Hv; simpl.
  - rewrite <- (insert_delete_eq c v (S n)).
    rewrite total_insert by apply lookup_delete_eq.
    rewrite <- (insert_id c v n) at 2 by done.
    rewrite <- (insert_delete_eq c v n).
    rewrite total_insert by apply lookup_delete_eq. lia.
  - rewrite total_insert by done. lia.
Qed.

Section rational_sums.
Context {A : Type}.
Implicit Types (f g : A → Q) (xs : list A).
Local Open Scope Q_scope.

Lemma foldl_Qplus f (acc : Q) xs :
  foldl (λ a x, a + f x) acc xs == acc + Qsum (f <$> xs).
Proof.
  revert acc. induction xs as [|x xs IH]; intros acc.
  - unfold Qsum; simpl. ring.
  - rewrite fmap_cons. cbn [foldl]. rewrite IH. unfold Qsum; simpl. ring.
Qed.

Lemma Qsum_le f g xs :
  (∀ x, f x <= g x) → Qsum (f <$> xs) <= Qsum (g <$> xs).
Proof.
  intros Hle. induction xs as [|x xs IH]; [unfold Qsum; simpl; lra|].
  rewrite !fmap_cons. unfold Qsum in *; simpl. specialize (Hle x). lra.
Qed.

Lemma Qsum_const0 xs : Qsum ((λ _, 0) <$> xs) == 0.
Proof.
  induction xs as [|x xs IH]; [reflexivity|].
  rewrite fmap_cons. unfold Qsum in *; simpl. rewrite IH. ring.
Qed.

Lemma Qsum_add f g xs :
  Qsum ((λ x, f x + g x) <$> xs) == Qsum (f <$> xs) + Qsum (g <$> xs).
Proof.
  induction xs as [|x xs IH]; [unfold Qsum; simpl; ring|].
  rewrite !fmap_cons. unfold Qsum in *; simpl. rewrite IH. ring.
Qed.

Lemma Qsum_ratio (c : A → nat) (d : Q) xs :
  Qsum ((λ x, inject_Z (Z.of_nat (c x)) / d) <$> xs)
  == inject_Z (Z.of_nat (sum_list_with c xs)) / d.
Proof.
  induction xs as [|x xs IH].
  - change (0 == 0 / d). unfold Qdiv. ring.
  - rewrite fmap_cons. cbn [Qsum foldr sum_list_with].
    fold (Qsum ((λ x, inject_Z (Z.of_nat (c x)) / d) <$> xs)).
    rewrite IH, Nat2Z.inj_add, inject_Z_plus. unfold Qdiv. ring.
Qed.
End rational_sums.

Lemma relative_frequency_nonneg dist x : (0 <= relative_frequency dist x)%Q.
Proof.
  unfold relative_frequency, Qdiv. apply Qmult_le_0_compat.
  - change 0%Q with (inject_Z 0). rewrite <- Zle_Qle. lia.
  - apply Qinv_le_0_compat. change 0%Q with (inject_Z 0). rewrite <- Zle_Qle. lia.
Qed.

Lemma relative_frequency_sum dist xs :
  NoDup xs → (∀ x, x ∈ dom dist → x ∈ xs) → 0 < total dist →
  (Qsum (relative_frequency dist <$> xs) == 1)%Q.
Proof.
  intros Hnd Hcov Hpos. unfold relative_frequency.
  rewrite (Qsum_ratio (get dist)), sum_get_total by done.
  apply Qmult_inv_r. change 0%Q with (inject_Z 0). rewrite inject_Z_injective. lia.
Qed.

Lemma Qabs_diff_le (p q : Q) : (0 <= p → 0 <= q → Qabs (p - q) <= p + q)%Q.
Proof. intros Hp Hq. apply Qabs_case; intros; lra. Qed.

(** The statistic lies between 0 and 1 as soon as both totals are positive. *)
Lemma half_l1_distance_bounds dist1 dist2 :
  0 < total dist1 → 0 < total dist2 →
  (0 <= half_l1_distance dist1 dist2 <= 1)%Q.
Proof.
  intros H1 H2. unfold half_l1_distance.
  set (xs := elements (dom dist1 ∪ dom dist2)).
  assert (NoDup xs) as Hnd by apply NoDup_elements.
  assert (0 <= Qsum ((λ x, Qabs (relative_frequency dist1 x
                                 - relative_frequency dist2 x)) <$> xs))%Q as Hlo.
  { rewrite <- (Qsum_const0 xs). apply Qsum_le. intros x. apply Qabs_nonneg. }
  assert (Qsum ((λ x, Qabs (relative_frequency dist1 x
                            - relative_frequency dist2 x)) <$> xs) <= 2)%Q as Hhi.
  { eapply Qle_trans.
    - apply (Qsum_le _ (λ x, relative_frequency dist1 x + relative_frequency dist2 x)%Q).
      intros x. apply Qabs_diff_le; apply relative_frequency_nonneg.
    - rewrite Qsum_add, !relative_frequency_sum; try done.
      + intros x Hx. apply elem_of_elements. set_solver.
      + intros x Hx. apply elem_of_elements. set_solver. }
  split.
  - apply Qle_shift_div_l; lra.
  - apply Qle_shift_div_r; lra.
Qed.

Lemma true_div_pos (a b : nat) :
  b ≠ 0 → true_div a b = Return (inject_Z (Z.of_nat a) / inject_Z (Z.of_nat b))%Q.
Proof. intros Hb. unfold true_div. by rewrite decide_False. Qed.

(** With two positive totals the loop runs to its end. *)
Lemma emd_loop_pos dist1 dist2 (acc : Q) (xs : list value) :
  0 < total dist1 → 0 < total dist2 →
  foldlM (emd_step dist1 dist2 (total dist1) (total dist2)) acc xs
  = Return (foldl (λ a x, a + Qabs (relative_frequency dist1 x
                                    - relative_frequency dist2 x))%Q acc xs).
Proof.
  intros H1 H2. revert acc. induction xs as [|x xs IH]; intros acc; [done|].
  cbn [foldlM foldl]. unfold emd_step at 1.
  rewrite !true_div_pos by lia. simpl. apply IH.
Qed.

(** With a zero total the first turn of the loop divides by zero. *)
Lemma emd_loop_zero dist1 dist2 (acc : Q) (xs : list value) :
  total dist1 = 0 ∨ total dist2 = 0 → xs ≠ [] →
  foldlM (emd_step dist1 dist2 (total dist1) (total dist2)) acc xs
  = Raise ZeroDivisionError.
Proof.
  intros Hz Hxs. destruct xs as [|x xs]; [done|].
  cbn [foldlM]. unfold emd_step, true_div.
  destruct (decide (total dist1 = 0)) as [|H1]; [done|].
  destruct Hz as [|H2]; [done|]. by rewrite decide_True.
Qed.

Lemma all_keys_nil (dist1 dist2 : counter) :
  elements (dom dist1 ∪ dom dist2) = [] ↔ dist1 = ∅ ∧ dist2 = ∅.
Proof.
  rewrite elements_empty_iff. split.
  - intros He. split; apply dom_empty_iff_L; set_solver.
  - intros [-> ->]. rewrite dom_empty_L. set_solver.
Qed.

(** ** The distance in double precision *)

(** *** Rounding *)

Lemma shr_1_nonneg mrs : (0 ≤ shr_m mrs → 0 ≤ shr_m (shr_1 mrs) ≤ shr_m mrs)%Z.
Proof.
  destruct mrs as [m r s]. simpl. destruct m as [|p|p]; simpl; [lia| |lia].
  intros _. destruct p; simpl; lia.
Qed.

Lemma iter_pos_shr_1_nonneg p mrs :
  (0 ≤ shr_m mrs → 0 ≤ shr_m (SpecFloat.iter_pos shr_1 p mrs) ≤ shr_m mrs)%Z.
Proof.
  revert mrs. induction p as [p IH|p IH|]; intros mrs Hm; simpl.
  - pose proof (shr_1_nonneg mrs Hm) as H1.
    pose proof (IH _ (proj1 H1)) as H2.
    pose proof (IH _ (proj1 H2)) as H3. lia.
  - pose proof (IH _ Hm) as H2.
    pose proof (IH _ (proj1 H2)) as H3. lia.
  - by apply shr_1_nonneg.
Qed.

Lemma shr_m_of_loc m l : shr_m (shr_record_of_loc m l) = m.
Proof. by destruct l as [|[]]. Qed.

Lemma fexp_unfold x :
  fexp Binary64.prec Binary64.emax x = Z.max (x - 53) (-1074).
Proof. reflexivity. Qed.

(** A shift to the exponent of the format keeps a mantissa non-negative
    and does not increase it. *)
Lemma shr_fexp_spec m e l mrs e1 :
  (0 ≤ m)%Z → shr_fexp Binary64.prec Binary64.emax m e l = (mrs, e1) →
  (0 ≤ shr_m mrs ≤ m)%Z
  ∧ e1 = Z.max e (fexp Binary64.prec Binary64.emax (Zdigits2 m + e)).
Proof.
  intros Hm. unfold shr_fexp, shr.
  destruct (fexp Binary64.prec Binary64.emax (Zdigits2 m + e) - e)%Z
    as [|p|p] eqn:Hn; intros [= <- <-].
  - rewrite shr_m_of_loc. lia.
  - pose proof (iter_pos_shr_1_nonneg p (shr_record_of_loc m l)) as H.
    rewrite shr_m_of_loc in H. lia.
  - rewrite shr_m_of_loc. lia.
Qed.

Lemma round_nearest_even_bounds m l :
  (0 ≤ m → 0 ≤ round_nearest_even m l ≤ m + 1)%Z.
Proof.
  intros Hm. unfold round_nearest_even.
  destruct l as [|[]]; try lia. destruct (Z.even m); lia.
Qed.

(** The result of a rounding carries the sign it was given and is not
    [nan]. *)
Lemma binary_round_aux_shape s m e l :
  (0 ≤ m)%Z →
  round_shape s (binary_round_aux Binary64.prec Binary64.emax s m e l).
Proof.
  intros Hm. unfold binary_round_aux.
  destruct (shr_fexp Binary64.prec Binary64.emax m e l) as [mrs1 e1] eqn:H1.
  apply shr_fexp_spec in H1 as [Hm1 _]; [|done].
  pose proof (round_nearest_even_bounds (shr_m mrs1) (loc_of_shr_record mrs1)
                (proj1 Hm1)) as Hr.
  destruct (shr_fexp Binary64.prec Binary64.emax _ e1 loc_Exact)
    as [mrs2 e2] eqn:H2.
  apply shr_fexp_spec in H2 as [Hm2 _]; [|lia].
  destruct (shr_m mrs2) as [|p|p]; [by left| |lia].
  destruct (e2 <=? Binary64.emax - Binary64.prec)%Z;
    [right; left; eauto | by right; right].
Qed.

Lemma digits2_pos_bounds p :
  (2 ^ (Zpos (digits2_pos p) - 1) ≤ Zpos p < 2 ^ Zpos (digits2_pos p))%Z.
Proof.
  induction p as [p IH|p IH|]; simpl digits2_pos.
  - rewrite Pos2Z.inj_succ.
    replace (Z.succ (Z.pos (digits2_pos p)) - 1)%Z
      with (Z.succ (Z.pos (digits2_pos p) - 1))%Z by lia.
    rewrite !Z.pow_succ_r by lia. lia.
  - rewrite Pos2Z.inj_succ.
    replace (Z.succ (Z.pos (digits2_pos p)) - 1)%Z
      with (Z.succ (Z.pos (digits2_pos p) - 1))%Z by lia.
    rewrite !Z.pow_succ_r by lia. lia.
  - simpl. lia.
Qed.

Lemma Zdigits2_le m n : (0 ≤ m < 2 ^ n → 0 ≤ n → Zdigits2 m ≤ n)%Z.
Proof.
  intros Hm Hn. destruct m as [|p|p]; simpl; [done| |lia].
  pose proof (digits2_pos_bounds p) as Hp.
  destruct (Z.le_gt_cases (Z.pos (digits2_pos p)) n) as [|Hgt]; [done|].
  assert (2 ^ n ≤ 2 ^ (Z.pos (digits2_pos p) - 1))%Z
    by (apply Z.pow_le_mono_r; lia). lia.
Qed.

(** Rounding a value of at most 1 does not overflow. *)
Lemma binary_round_aux_finite m e l :
  (-1074 ≤ e ≤ -53)%Z → (0 ≤ m ≤ 2 ^ (- e))%Z →
  finite_nonneg (binary_round_aux Binary64.prec Binary64.emax false m e l).
Proof.
  intros He Hm. unfold binary_round_aux.
  assert (2 ^ (- e + 1) = 2 * 2 ^ (- e))%Z as Hpow
    by (rewrite Z.pow_add_r by lia; lia).
  assert (2 ^ 53 ≤ 2 ^ (- e))%Z as Hbig by (apply Z.pow_le_mono_r; lia).
  assert (Zdigits2 m ≤ - e + 1)%Z as Hd by (apply Zdigits2_le; lia).
  destruct (shr_fexp Binary64.prec Binary64.emax m e l) as [mrs1 e1] eqn:H1.
  apply shr_fexp_spec in H1 as [Hm1 He1]; [|lia].
  rewrite fexp_unfold in He1.
  pose proof (round_nearest_even_bounds (shr_m mrs1) (loc_of_shr_record mrs1)
                (proj1 Hm1)) as Hr.
  set (mr := round_nearest_even (shr_m mrs1) (loc_of_shr_record mrs1)) in *.
  assert (Zdigits2 mr ≤ - e + 1)%Z as Hdr.
  { apply Zdigits2_le; [|lia].
    change (2 ^ 53)%Z with 9007199254740992%Z in Hbig. lia. }
  destruct (shr_fexp Binary64.prec Binary64.emax mr e1 loc_Exact)
    as [mrs2 e2] eqn:H2.
  apply shr_fexp_spec in H2 as [Hm2 He2]; [|lia].
  rewrite fexp_unfold in He2.
  destruct (shr_m mrs2) as [|p|p]; [by left| |lia].
  replace (e2 <=? Binary64.emax - Binary64.prec)%Z with true; [right; eauto|].
  symmetry. apply Z.leb_le. unfold Binary64.emax, Binary64.prec. lia.
Qed.

Lemma of_int_pos n :
  0 < n → ∃ p, Binary64.of_int n = S754_finite false p 0 ∧ Zpos p = Z.of_nat n.
Proof.
  intros Hn. unfold Binary64.of_int.
  destruct (Z.of_nat n) as [|p|p] eqn:Hp; [lia| |lia]. by exists p.
Qed.

Lemma SFdiv_core_binary_nonneg m1 e1 m2 e2 q e' lz :
  (0 < m1)%Z → (0 < m2)%Z →
  SFdiv_core_binary Binary64.prec Binary64.emax m1 e1 m2 e2 = (q, e', lz) →
  (0 ≤ q)%Z.
Proof.
  intros H1 H2. unfold SFdiv_core_binary.
  set (s := (e1 - e2 - _)%Z).
  set (m' := match s with Z.pos _ => Z.shiftl m1 s | Z0 => m1 | Z.neg _ => 0%Z end).
  assert (0 ≤ m')%Z as Hm'.
  { unfold m'. destruct s; [lia| |lia]. apply Z.shiftl_nonneg. lia. }
  pose proof (Z_div_mod m' m2 ltac:(lia)) as Hdiv.
  destruct (Z.div_eucl m' m2) as [q' r]. intros [= <- <- <-].
  destruct Hdiv as [Heq Hr]. nia.
Qed.

(** The quotient of two counts, the first at most the second, is a finite
    double that is not negative. *)
Lemma rounded_quotient_finite a b :
  a ≤ b → 0 < b → finite_nonneg (rounded_quotient a b).
Proof.
  intros Hab Hb. unfold rounded_quotient.
  destruct (of_int_pos b Hb) as (pb & -> & Hpb).
  destruct (decide (a = 0)) as [->|Ha]; [by left|].
  destruct (of_int_pos a ltac:(lia)) as (pa & -> & Hpa).
  unfold Binary64.div, SFdiv.
  destruct (SFdiv_core_binary Binary64.prec Binary64.emax (Z.pos pa) 0 (Z.pos pb) 0)
    as [[q e'] lz] eqn:Hcore. simpl xorb.
  unfold SFdiv_core_binary in Hcore.
  assert (Zdigits2 (Z.pos pa) ≤ Zdigits2 (Z.pos pb))%Z as Hd.
  { pose proof (digits2_pos_bounds pb). apply Zdigits2_le; simpl; lia. }
  assert (0 < Zdigits2 (Z.pos pa))%Z as Hd0 by (simpl; lia).
  rewrite fexp_unfold in Hcore.
  set (e0 := Z.min _ _) in Hcore.
  assert (-1074 ≤ e0 ≤ -53)%Z as He0 by (unfold e0; lia).
  replace (0 - 0 - e0)%Z with (- e0)%Z in Hcore by lia.
  destruct (- e0)%Z as [|s|s] eqn:Hs; [lia| |lia].
  rewrite Z.shiftl_mul_pow2 in Hcore by lia.
  pose proof (Z_div_mod (Z.pos pa * 2 ^ Z.pos s) (Z.pos pb) ltac:(lia)) as Hdiv.
  destruct (Z.div_eucl (Z.pos pa * 2 ^ Z.pos s) (Z.pos pb)) as [q' r].
  injection Hcore as <- <- <-. destruct Hdiv as [Heq Hr].
  apply binary_round_aux_finite; [done|]. rewrite Hs.
  assert (0 < 2 ^ Z.pos s)%Z by (apply Z.pow_pos_nonneg; lia). nia.
Qed.

Lemma binary_round_shape s m e :
  round_shape s (binary_round Binary64.prec Binary64.emax s m e).
Proof.
  unfold binary_round. destruct (shl_align _ _ _) as [mz ez].
  apply binary_round_aux_shape. lia.
Qed.

Lemma binary_normalize_shape m e :
  round_shape false
    (Binary64.abs (binary_normalize Binary64.prec Binary64.emax m e false)).
Proof.
  destruct m as [|p|p]; simpl binary_normalize; [by left|..].
  - destruct (binary_round_shape false p e) as [->|[(m' & e' & ->)| ->]];
      [by left | right; left; simpl; eauto | by right; right].
  - destruct (binary_round_shape true p e) as [->|[(m' & e' & ->)| ->]];
      [by left | right; left; simpl; eauto | by right; right].
Qed.

(** The absolute difference of two finite doubles has no sign and is not
    [nan]. *)
Lemma abs_sub_shape x y :
  finite_nonneg x → finite_nonneg y →
  round_shape false (Binary64.abs (Binary64.sub x y)).
Proof.
  intros [->|(mx & ex & ->)] [->|(my & ey & ->)].
  - by left.
  - right; left. simpl. eauto.
  - right; left. simpl. eauto.
  - unfold Binary64.sub, SFsub. apply binary_normalize_shape.
Qed.

Lemma add_shape x y :
  round_shape false x → round_shape false y → round_shape false (Binary64.add x y).
Proof.
  intros [->|[(mx & ex & ->)| ->]] [->|[(my & ey & ->)| ->]];
    try (by left); try (by right; right); try (right; left; simpl; by eauto).
  unfold Binary64.add, SFadd. simpl cond_Zopp.
  destruct (shl_align mx ex (Z.min ex ey)) as [mx' ex'].
  destruct (shl_align my ey (Z.min ex ey)) as [my' ey']. simpl fst.
  change (Z.pos mx' + Z.pos my')%Z with (Z.pos (mx' + my')).
  simpl binary_normalize. apply binary_round_shape.
Qed.

Lemma half_shape x :
  round_shape false x → round_shape false (Binary64.div x Binary64.two).
Proof.
  intros [->|[(mx & ex & ->)| ->]]; [by left| |by right; right].
  unfold Binary64.div, Binary64.two, SFdiv.
  destruct (SFdiv_core_binary _ _ _ _ _ _) as [[q e'] lz] eqn:Hcore.
  apply SFdiv_core_binary_nonneg in Hcore; [|lia..].
  by apply binary_round_aux_shape.
Qed.

Lemma shape_nonneg x : round_shape false x → SFleb Binary64.zero x = true.
Proof. by intros [->|[(mx & ex & ->)| ->]]. Qed.

(** *** The loop *)

Lemma get_le_total (dist : counter) x : get dist x ≤ total dist.
Proof.
  induction dist as [|y n dist Hy IH] using map_ind.
  - unfold get. rewrite lookup_empty. simpl. lia.
  - rewrite total_insert, get_insert by done. destruct (decide (y = x)); lia.
Qed.

Lemma true_div_rounded a b :
  b ≠ 0 → Binary64.true_div a b = Return (rounded_quotient a b).
Proof. intros Hb. unfold Binary64.true_div. by rewrite decide_False. Qed.

(** With two positive totals the loop runs to its end. *)
Lemma rounded_loop_pos dist1 dist2 (acc : Binary64.float) (xs : list value) :
  0 < total dist1 → 0 < total dist2 →
  foldlM (Binary64.emd_step dist1 dist2 (total dist1) (total dist2)) acc xs
  = Return (foldl (λ s x, Binary64.add s (Binary64.abs (Binary64.sub
                     (rounded_frequency_of dist1 x) (rounded_frequency_of dist2 x))))
                  acc xs).
Proof.
  intros H1 H2. revert acc. induction xs as [|x xs IH]; intros acc; [done|].
  cbn [foldlM foldl]. unfold Binary64.emd_step at 1.
  rewrite !true_div_rounded by lia. cbn [bind]. apply IH.
Qed.

(** With a zero total the first turn of the loop divides by zero. *)
Lemma rounded_loop_zero dist1 dist2 (acc : Binary64.float) (xs : list value) :
  total dist1 = 0 ∨ total dist2 = 0 → xs ≠ [] →
  foldlM (Binary64.emd_step dist1 dist2 (total dist1) (total dist2)) acc xs
  = Raise ZeroDivisionError.
Proof.
  intros Hz Hxs. destruct xs as [|x xs]; [done|].
  cbn [foldlM]. unfold Binary64.emd_step, Binary64.true_div.
  destruct (decide (total dist1 = 0)) as [|H1]; [done|].
  destruct Hz as [|H2]; [done|]. by rewrite decide_True.
Qed.

Lemma rounded_distance_pos ks dist1 dist2 :
  0 < total dist1 → 0 < total dist2 →
  Binary64.calculate_earth_movers_distance ks dist1 dist2
  = Return (rounded_distance ks (rounded_frequency_of dist1)
                             (rounded_frequency_of dist2)).
Proof.
  intros H1 H2. unfold Binary64.calculate_earth_movers_distance.
  by rewrite rounded_loop_pos.
Qed.

Lemma enumerates_nil ks (dist1 dist2 : counter) :
  enumerates ks (dom dist1 ∪ dom dist2) → ks = [] ↔ dist1 = ∅ ∧ dist2 = ∅.
Proof.
  intros [_ Hks]. split.
  - intros ->. simpl in Hks. symmetry in Hks.
    apply empty_union_L in Hks as [H1 H2].
    split; by apply dom_empty_iff_L.
  - intros [-> ->]. rewrite !dom_empty_L, union_empty_r_L in Hks.
    destruct ks as [|x ks]; [done|]. exfalso.
    assert (x ∈ (∅ : gset value)) as Hx
      by (rewrite <- Hks; apply elem_of_list_to_set; by left).
    by apply not_elem_of_empty in Hx.
Qed.

Lemma sum_of_distances_shape dist1 dist2 acc xs :
  0 < total dist1 → 0 < total dist2 → round_shape false acc →
  round_shape false
    (foldl (λ s x, Binary64.add s (Binary64.abs (Binary64.sub
              (rounded_frequency_of dist1 x) (rounded_frequency_of dist2 x))))
           acc xs).
Proof.
  intros H1 H2. revert acc. induction xs as [|x xs IH]; intros acc Hacc; [done|].
  cbn [foldl]. apply IH. apply add_shape; [done|].
  apply abs_sub_shape; apply rounded_quotient_finite; auto using get_le_total.
Qed.

Lemma foldl_constant_term {A} (f : A → Binary64.float) (c acc : Binary64.float)
    (xs : list A) :
  Forall (λ x, f x = c) xs →
  foldl (λ s x, Binary64.add s (f x)) acc xs
  = Nat.iter (length xs) (λ s, Binary64.add s c) acc.
Proof.
  intros Hall. revert acc. induction Hall as [|x xs Hx _ IH]; intros acc; [done|].
  cbn [foldl length]. by rewrite IH, Hx, Nat.iter_succ_r.
Qed.

(** C4, as stated, fails, in two ways.  The division is not guarded: two
    counters without a key have total 0 and the computation returns [0.0]
    instead of failing, and where it fails the error is Python's
    [ZeroDivisionError].  And the result is not bounded by 1: for two
    counters of ten values each, all different and observed once, every
    term is the double nearest to 1/10, twenty of them add up to
    2.0000000000000004 in whatever order they are taken, and the result is
    1.0000000000000002. *)
Lemma C4_distance_is_neither_guarded_nor_bounded :
  (Binary64.calculate_earth_movers_distance [] ∅ ∅ = Return Binary64.zero
   ∧ ¬ distance_is_guarded "EmptyDistributionError" [] ∅ ∅)
  ∧ (Binary64.calculate_earth_movers_distance [VStr "flu"] ∅ (Counter [VStr "flu"])
     = Raise ZeroDivisionError
     ∧ ¬ distance_is_guarded "EmptyDistributionError" [VStr "flu"] ∅
           (Counter [VStr "flu"]))
  ∧ ∀ ks, enumerates ks (dom (ten_values 0) ∪ dom (ten_values 10)) →
      Binary64.calculate_earth_movers_distance ks (ten_values 0) (ten_values 10)
      = Return (S754_finite false 4503599627370497 (-52))
      ∧ ¬ distance_is_guarded "EmptyDistributionError" ks
            (ten_values 0) (ten_values 10).
Proof.
  split; [|split].
  - split; [reflexivity|]. intros [Hguard _].
    destruct Hguard as (e & He & _); [left; apply total_empty|]. discriminate.
  - split; [vm_compute; reflexivity|]. intros [Hguard _].
    destruct Hguard as (e & He & Hname); [left; apply total_empty|].
    vm_compute in He. injection He as <-. discriminate.
  - intros ks [Hnd Hks].
    assert (Binary64.calculate_earth_movers_distance ks (ten_values 0) (ten_values 10)
            = Return (S754_finite false 4503599627370497 (-52))) as Hd.
    { rewrite rounded_distance_pos by (vm_compute; lia).
      unfold rounded_distance.
      rewrite (foldl_constant_term _ (rounded_quotient 1 10)).
      - replace (length ks) with 20; [vm_compute; reflexivity|].
        rewrite <- (size_list_to_set (C := gset value)) by done.
        rewrite Hks. vm_compute. reflexivity.
      - apply Forall_forall. intros x Hx.
        assert (x ∈ dom (ten_values 0) ∪ dom (ten_values 10)) as Hin
          by (rewrite <- Hks; by apply elem_of_list_to_set).
        assert (x ∈ (λ i, VInt (Z.of_nat i)) <$> seq 0 20) as Hx'.
        { apply (elem_of_list_to_set (C := gset value)).
          replace (list_to_set ((λ i, VInt (Z.of_nat i)) <$> seq 0 20) : gset value)
            with (dom (ten_values 0) ∪ dom (ten_values 10)); [done|].
          refine (bool_decide_unpack _ _). vm_compute. reflexivity. }
        clear -Hx'. simpl in Hx'.
        repeat (apply elem_of_cons in Hx' as [->|Hx']; [vm_compute; reflexivity|]).
        by apply not_elem_of_nil in Hx'. }
    split; [exact Hd|]. intros [_ Hbound].
    destruct Hbound as (d & Hd' & _ & _ & Hle); [vm_compute; lia..|].
    rewrite Hd in Hd'. injection Hd' as <-. vm_compute in Hle. discriminate.
Qed.

(** C4 (amended): the division by the total is not guarded, and the result
    is a double.  Whatever the order in which the union of the observed
    values is iterated: if neither counter has a key the computation returns
    [0.0]; otherwise, if either total is 0, it fails with
    [ZeroDivisionError]; and if both totals are positive it returns half the
    sum, taken in that order, of the absolute differences of the relative
    frequencies, every quotient, difference and partial sum rounded to the
    nearest double.  The result is at least 0 and is not [nan].  It is not
    bounded by 1, although the statistic computed on the reals, without
    rounding, lies between 0 and 1. *)
Theorem C4_calculate_earth_movers_distance all_keys dist1 dist2 :
  enumerates all_keys (dom dist1 ∪ dom dist2) →
  (dist1 = ∅ ∧ dist2 = ∅ →
   Binary64.calculate_earth_movers_distance all_keys dist1 dist2
   = Return Binary64.zero)
  ∧ (total dist1 = 0 ∨ total dist2 = 0 → ¬ (dist1 = ∅ ∧ dist2 = ∅) →
     Binary64.calculate_earth_movers_distance all_keys dist1 dist2
     = Raise ZeroDivisionError)
  ∧ (0 < total dist1 → 0 < total dist2 →
     ∃ d, Binary64.calculate_earth_movers_distance all_keys dist1 dist2 = Return d
       ∧ d = rounded_distance all_keys (rounded_frequency_of dist1)
                              (rounded_frequency_of dist2)
       ∧ SFleb Binary64.zero d = true
       ∧ (0 <= half_l1_distance dist1 dist2 <= 1)%Q).
Proof.
  intros Hks. split; [|split].
  - intros He. apply (enumerates_nil _ _ _ Hks) in He. by rewrite He.
  - intros Hz Hne. unfold Binary64.calculate_earth_movers_distance.
    rewrite rounded_loop_zero; [done..|]. by rewrite (enumerates_nil _ _ _ Hks).
  - intros H1 H2. rewrite rounded_distance_pos by done.
    eexists. split; [reflexivity|]. split; [reflexivity|].
    split; [|by apply half_l1_distance_bounds].
    apply shape_nonneg, half_shape, sum_of_distances_shape; [done..|by left].
Qed.

Lemma C4_calculate_earth_movers_distance_witness :
  Binary64.calculate_earth_movers_distance [VStr "flu"; VStr "cold"; VStr "asthma"]
    (Counter [VStr "flu"; VStr "flu"; VStr "cold"])
    (Counter [VStr "flu"; VStr "cold"; VStr "asthma"; VStr "asthma"; VStr "asthma";
              VStr "cold"; VStr "cold"])
  = Return (S754_finite false 4718056752483376 (-53)).
Proof.
  destruct (C4_calculate_earth_movers_distance
              [VStr "flu"; VStr "cold"; VStr "asthma"]
              (Counter [VStr "flu"; VStr "flu"; VStr "cold"])
              (Counter [VStr "flu"; VStr "cold"; VStr "asthma"; VStr "asthma";
                        VStr "asthma"; VStr "cold"; VStr "cold"]))
    as (_ & _ & Hpos).
  - split; [refine (bool_decide_unpack _ _); vm_compute; reflexivity|].
    refine (bool_decide_unpack _ _). vm_compute. reflexivity.
  - destruct Hpos as (d & Hd & Hval & _); [vm_compute; lia..|].
    rewrite Hd, Hval. vm_compute. reflexivity.
Defined.

(** ** The privacy-budget ledger *)

(** C5, as stated, fails: a call with the cost -1/2 on a fresh engine
    returns normally, lowers the cumulative total to -1/2 and appends an
    entry. *)
Lemma C5_negative_epsilon_is_recorded :
  (track_privacy_budget default_engine "2024-01-01T00:00:00" "q" (-1 # 2)).2 = Return ()
  ∧ privacy_budget
      (track_privacy_budget default_engine "2024-01-01T00:00:00" "q" (-1 # 2)).1
    = {| epsilon := (0 + (-1 # 2))%Q;
         queries := [ {| query := "q"; entry_epsilon := (-1 # 2)%Q;
                         entry_timestamp := "2024-01-01T00:00:00";
                         cumulative_epsilon := (0 + (-1 # 2))%Q |} ] |}
  ∧ ¬ ledger_rejects "InvalidBudgetError" default_engine
        "2024-01-01T00:00:00" "q" (-1 # 2).
Proof.
  split; [reflexivity|]. split; [reflexivity|].
  intros Hrej. destruct Hrej as [(e & He & _) _]; [reflexivity|]. discriminate.
Qed.

Lemma track_all_ledger self calls :
  privacy_budget (track_all self calls)
  = {| epsilon := foldl (λ cum c, cum + c.2)%Q (epsilon (privacy_budget self)) calls;
       queries := queries (privacy_budget self)
                  ++ entries_from (epsilon (privacy_budget self)) calls |}.
Proof.
  unfold track_all. revert self.
  induction calls as [|c calls IH]; intros self.
  - simpl. rewrite app_nil_r. by destruct (privacy_budget self).
  - cbn [foldl entries_from]. rewrite IH. simpl. by rewrite <- app_assoc.
Qed.

Lemma entries_from_lookup cum calls i e :
  entries_from cum calls !! i = Some e →
  ∃ c, calls !! i = Some c
    ∧ query e = c.1.2 ∧ entry_epsilon e = c.2 ∧ entry_timestamp e = c.1.1
    ∧ cumulative_epsilon e
      = (previous_cumulative cum (entries_from cum calls) i + c.2)%Q.
Proof.
  revert cum i. induction calls as [|c calls IH]; intros cum i He; [done|].
  destruct i as [|i]; simpl in He.
  - injection He as <-. exists c. done.
  - destruct (IH _ _ He) as (c' & Hc' & Hq & Heps & Hts & Hcum).
    exists c'. repeat split; try done. rewrite Hcum.
    destruct i as [|i]; [reflexivity|]. simpl.
    destruct (entries_from (cum + c.2) calls !! i) eqn:Hi; [done|].
    apply lookup_lt_Some in He. apply lookup_ge_None in Hi. lia.
Qed.

(** C5 (amended): the ledger has no guard.  For every ledger state and
    every run of calls, with costs of any sign, no call raises; the run
    appends one entry per call, in order, after the entries already there,
    and each appended entry's cumulative total is the cumulative total in
    force before it plus that call's cost.  In particular a negative cost
    is recorded and lowers the cumulative total. *)
Theorem C5_track_privacy_budget self calls :
  (∀ c, c ∈ calls →
     ∀ st, (track_privacy_budget st c.1.1 c.1.2 c.2).2 = Return ())
  ∧ ∃ entries,
      queries (privacy_budget (track_all self calls))
      = queries (privacy_budget self) ++ entries
      ∧ length entries = length calls
      ∧ ∀ i c, calls !! i = Some c →
          ∃ e, entries !! i = Some e
            ∧ query e = c.1.2 ∧ entry_epsilon e = c.2
            ∧ cumulative_epsilon e
              = (previous_cumulative (epsilon (privacy_budget self)) entries i + c.2)%Q.
Proof.
  split; [done|].
  exists (entries_from (epsilon (privacy_budget self)) calls).
  split; [by rewrite track_all_ledger|].
  assert (∀ cum, length (entries_from cum calls) = length calls) as Hlen.
  { induction calls as [|c calls IH]; intros cum; simpl; [done | by rewrite IH]. }
  split; [apply Hlen|].
  intros i c Hc.
  destruct (lookup_lt_is_Some_2 (entries_from (epsilon (privacy_budget self)) calls) i)
    as [e He]; [rewrite Hlen; by eapply lookup_lt_Some|].
  exists e. split; [done|].
  destruct (entries_from_lookup _ _ _ _ He) as (c' & Hc' & ? & ? & ? & ?).
  rewrite Hc in Hc'. injection Hc' as <-. done.
Qed.

Lemma C5_track_privacy_budget_witness :
  ∃ e, queries (privacy_budget
         (track_all default_engine [("t1", "q1", (1 # 10)%Q); ("t2", "q2", (-3 # 20)%Q)]))
       !! 1 = Some e
    ∧ cumulative_epsilon e = (0 + (1 # 10) + (-3 # 20))%Q.
Proof.
  destruct (C5_track_privacy_budget default_engine
              [("t1", "q1", (1 # 10)%Q); ("t2", "q2", (-3 # 20)%Q)])
    as (_ & entries & Hq & _ & Hi).
  destruct (Hi 1 ("t2", "q2", (-3 # 20)%Q) eq_refl) as (e & He & _ & _ & Hcum).
  exists e. rewrite Hq. split; [exact He|].
  rewrite Hcum. vm_compute in Hq. subst entries. reflexivity.
Defined.

(** ** Enforcement *)

Lemma zip_with_fmap_same {A B C} (f : A → B → C) (g : A → B) (xs : list A) :
  zip_with f xs (g <$> xs) = (λ x, f x (g x)) <$> xs.
Proof.
  induction xs as [|x xs IH]; [done|].
  rewrite !fmap_cons. cbn [zip_with]. by rewrite IH.
Qed.

(** In a group every record has a value in the first key column, so the
    [count] of that column is the size of the group. *)
Lemma members_count_first df qi c0 k0 :
  head qi = Some c0 → has_null k0 = false →
  filter (λ r', is_null (cell r' c0) = false) (members df qi k0) = members df qi k0.
Proof.
  intros Hc0 Hk0. unfold members.
  induction (keyed_rows df qi) as [|r rs IH]; [done|].
  rewrite (filter_cons (λ r, row_key qi r = k0)).
  destruct (decide (row_key qi r = k0)) as [Hr|]; [|done].
  rewrite filter_cons_True; [by rewrite IH|].
  destruct qi as [|c qi]; [done|]. injection Hc0 as ->.
  subst k0. simpl in Hk0. by apply orb_false_iff in Hk0 as [? _].
Qed.

Lemma transform_count_group_size df qi c0 :
  head qi = Some c0 →
  transform_count df qi c0 = (λ r, size_cell (group_size df qi r)) <$> rows df.
Proof.
  intros Hc0. unfold transform_count, group_size.
  apply list_fmap_ext. intros _ r _.
  destruct (has_null (row_key qi r)) eqn:Hn; [done|].
  simpl. by rewrite members_count_first.
Qed.

Lemma enforce_k_anonymity_valid self df qi method :
  valid_keys df qi →
  enforce_k_anonymity self df qi method
  = (annotated df qi,
     let* df_anonymous := enforce_branch self (annotated df qi) qi method in
     drop_column df_anonymous "_group_size").
Proof.
  intros Hv. unfold enforce_k_anonymity. rewrite groupby_valid by done.
  destruct Hv as [Hne _]. destruct qi as [|c0 qi]; [done|]. simpl head. simpl default.
  assert (set_column df "_group_size" (transform_count df (c0 :: qi) c0)
          = annotated df (c0 :: qi)) as ->; [|done].
  unfold set_column, annotated. f_equal.
  by rewrite transform_count_group_size, zip_with_fmap_same.
Qed.

Lemma enforce_k_anonymity_invalid self df qi method :
  (∃ e, groupby df qi = Raise e) →
  ∃ e, enforce_k_anonymity self df qi method = (df, Raise e).
Proof. intros [e He]. exists e. unfold enforce_k_anonymity. by rewrite He. Qed.

Lemma groupby_cases df qi :
  valid_keys df qi ∨ ∃ e, groupby df qi = Raise e.
Proof.
  destruct qi as [|c qi]; [right; by eexists|].
  destruct (check_keys df (c :: qi)) as [[]|e] eqn:Hck.
  - left. split; [done|]. clear -Hck. revert Hck.
    induction (c :: qi) as [|c' qi' IH]; [constructor|]. simpl.
    destruct (decide (c' ∈ columns df)); [|done]. intros ?. constructor; auto.
  - right. exists e. unfold groupby. by rewrite Hck.
Qed.

(** *** Unknown methods *)

Lemma small_frame_valid : valid_keys small_frame ["age_group"; "gender"].
Proof. split; [discriminate|]. repeat constructor. Qed.

(** C6, as stated, fails: the method ["mask"] ends in Python's
    [UnboundLocalError], not in an error class of the engine. *)
Lemma C6_unknown_method_is_unbound_local :
  (enforce_k_anonymity default_engine small_frame ["age_group"; "gender"] "mask").2
  = Raise (UnboundLocalError "df_anonymous")
  ∧ ¬ unknown_method_fails "UnknownMethodError" default_engine small_frame
        ["age_group"; "gender"] "mask".
Proof.
  assert ((enforce_k_anonymity default_engine small_frame
             ["age_group"; "gender"] "mask").2
          = Raise (UnboundLocalError "df_anonymous")) as Hres
    by (rewrite enforce_k_anonymity_valid by apply small_frame_valid; reflexivity).
  split; [exact Hres|].
  intros Hfail. destruct Hfail as (e & He & Hname); [discriminate..|].
  rewrite Hres in He. injection He as <-. discriminate.
Qed.

(** C6 (amended): with a method other than ['suppress'] and ['generalize']
    the call never returns a dataset; for a non-empty list of existing
    quasi-identifier columns it fails with Python's [UnboundLocalError],
    raised where the result variable, which no branch has assigned, is
    read. *)
Theorem C6_enforce_unknown_method self df qi method :
  method ≠ "suppress" → method ≠ "generalize" →
  ¬ returns (enforce_k_anonymity self df qi method).2
  ∧ (valid_keys df qi →
     (enforce_k_anonymity self df qi method).2
     = Raise (UnboundLocalError "df_anonymous")).
Proof.
  intros Hs Hg.
  assert (valid_keys df qi →
          (enforce_k_anonymity self df qi method).2
          = Raise (UnboundLocalError "df_anonymous")) as Hvalid.
  { intros Hv. rewrite enforce_k_anonymity_valid by done.
    unfold enforce_branch. by rewrite !decide_False. }
  split; [|exact Hvalid].
  intros [out Hout]. destruct (groupby_cases df qi) as [Hv|Hinv].
  - rewrite Hvalid in Hout by done. discriminate.
  - destruct (enforce_k_anonymity_invalid self df qi method Hinv) as [e He].
    rewrite He in Hout. discriminate.
Qed.

Lemma C6_enforce_unknown_method_witness :
  ¬ returns (enforce_k_anonymity default_engine small_frame
               ["age_group"; "gender"] "mask").2
  ∧ (enforce_k_anonymity default_engine small_frame ["age_group"; "gender"] "mask").2
    = Raise (UnboundLocalError "df_anonymous").
Proof.
  destruct (C6_enforce_unknown_method default_engine small_frame
              ["age_group"; "gender"] "mask") as [Hnot Hraise];
    [discriminate..|].
  split; [exact Hnot|]. apply Hraise. split; [discriminate|]. repeat constructor.
Defined.

(** *** The caller's frame *)

(** C3 (the code departs from the claim): once the grouping has succeeded,
    whatever the method, the caller's frame is left with the helper column
    [_group_size] that the call stored in it; the helper column is removed
    from the returned copy only. *)
Theorem C3_enforce_leaves_helper_column self df qi method :
  valid_keys df qi → "_group_size" ∉ columns df →
  columns (enforce_k_anonymity self df qi method).1
  = columns df ++ ["_group_size"]
  ∧ (enforce_k_anonymity self df qi method).1 ≠ df.
Proof.
  intros Hv Hfresh. rewrite enforce_k_anonymity_valid by done. simpl.
  rewrite decide_False by done. split; [done|].
  intros Heq. apply Hfresh. rewrite <- Heq. simpl.
  rewrite decide_False by done. set_solver.
Qed.

Lemma C3_enforce_leaves_helper_column_witness :
  columns (enforce_k_anonymity (init 2 3 (2 # 10)) small_frame
             ["age_group"; "gender"] "suppress").1
  = ["age_group"; "gender"; "_group_size"]
  ∧ (enforce_k_anonymity (init 2 3 (2 # 10)) small_frame
       ["age_group"; "gender"] "suppress").1 ≠ small_frame.
Proof.
  apply (C3_enforce_leaves_helper_column (init 2 3 (2 # 10)) small_frame
           ["age_group"; "gender"] "suppress").
  - split; [discriminate|]. repeat constructor.
  - vm_compute. intros H. by repeat (apply elem_of_cons in H as [H|H]; [discriminate|]);
      apply not_elem_of_nil in H.
Defined.

(** *** Generalization *)

Section masked_update.
Context {A : Type} (p : A → bool) (g : A → A → A).

(** A loop that visits the positions selected by a mask, reads the
    source and updates the copy at the same position, is a map. *)
Lemma foldl_index_where (src pre out_pre xs : list A) :
  src = pre ++ xs → length out_pre = length pre →
  foldl (λ out i, match src !! i with
                  | Some x => alter (g x) i out
                  | None => out
                  end)
        (out_pre ++ xs) (index_where p (length pre) xs)
  = out_pre ++ ((λ x, if p x then g x x else x) <$> xs).
Proof.
  revert pre out_pre. induction xs as [|x xs IH]; intros pre out_pre Hsrc Hlen.
  - done.
  - assert (src = (pre ++ [x]) ++ xs) as Hsrc' by (by rewrite <- app_assoc).
    assert (length (out_pre ++ [if p x then g x x else x]) = length (pre ++ [x]))
      as Hlen' by (rewrite !length_app; simpl; lia).
    assert (S (length pre) = length (pre ++ [x])) as HS
      by (rewrite length_app; simpl; lia).
    rewrite fmap_cons. cbn [index_where].
    trans ((out_pre ++ [if p x then g x x else x])
           ++ ((λ x, if p x then g x x else x) <$> xs));
      [|by rewrite <- app_assoc].
    rewrite <- (IH _ _ Hsrc' Hlen'), <- HS.
    destruct (p x) eqn:Hp; cbn [foldl].
    + assert (src !! length pre = Some x) as ->.
      { rewrite Hsrc. by rewrite list_lookup_middle. }
      rewrite <- Hlen.
      assert (alter (g x) (length out_pre) (out_pre ++ x :: xs)
              = (out_pre ++ [g x x]) ++ xs) as ->; [|done].
      rewrite <- app_assoc. simpl.
      replace (length out_pre) with (length out_pre + 0) by lia.
      by rewrite alter_app_r.
    + by rewrite <- app_assoc.
Qed.
End masked_update.

Lemma generalize_loop self (df : DataFrame) :
  foldl (generalize_step df) (rows df)
        (index_where (λ r, size_lt (k self) (cell r "_group_size")) 0 (rows df))
  = (λ r, if size_lt (k self) (cell r "_group_size")
          then <["age_group" := generalize_age (cell r "age_group")]> r
          else r) <$> rows df.
Proof.
  apply (foldl_index_where (λ r, size_lt (k self) (cell r "_group_size"))
           (λ r r', <["age_group" := generalize_age (cell r "age_group")]> r')
           (rows df) [] [] (rows df)); done.
Qed.

Lemma size_lt_size_cell self df qi r :
  size_lt (k self) (size_cell (group_size df qi r)) = in_small_group self df qi r.
Proof. unfold in_small_group. by destruct (group_size df qi r). Qed.

Lemma annotated_fresh df qi :
  "_group_size" ∉ columns df →
  annotated df qi
  = {| columns := columns df ++ ["_group_size"];
       rows := (λ r, <["_group_size" := size_cell (group_size df qi r)]> r)
               <$> rows df |}.
Proof. intros Hfresh. unfold annotated. by rewrite decide_False. Qed.

Lemma filter_fresh_column (c : string) (cols : list string) :
  c ∉ cols → filter (λ c', c' ≠ c) (cols ++ [c]) = cols.
Proof.
  intros Hfresh. rewrite filter_app.
  rewrite (filter_cons_False _ c) by (intros H; by apply H).
  rewrite filter_nil, app_nil_r.
  induction cols as [|c' cs IH]; [done|].
  rewrite filter_cons_True by (intros ->; apply Hfresh; by left).
  f_equal. apply IH. intros H. apply Hfresh. by right.
Qed.

Lemma drop_helper_column (cols : list string) (rs : list row) :
  "_group_size" ∉ cols →
  drop_column {| columns := cols ++ ["_group_size"]; rows := rs |} "_group_size"
  = Return {| columns := cols; rows := delete "_group_size" <$> rs |}.
Proof.
  intros Hfresh. unfold drop_column. cbn [columns rows].
  rewrite decide_True by set_solver. by rewrite filter_fresh_column.
Qed.

Lemma helper_column_absent df (r : row) :
  well_formed df → "_group_size" ∉ columns df → r ∈ rows df →
  r !! "_group_size" = None.
Proof.
  intros Hwf Hfresh Hr. unfold well_formed in Hwf. rewrite Forall_forall in Hwf.
  apply not_elem_of_dom. rewrite (Hwf r Hr). by rewrite elem_of_list_to_set.
Qed.

(** C10: with ['age_group'] among the existing quasi-identifier columns
    and no column called [_group_size] in the frame, the method
    ['generalize'] returns a frame with the columns of the input and one
    record per input record, in the same order: a record whose group has
    fewer than k records has its [age_group] replaced by ['Adult (18-60)']
    when it is ['18-30'], ['31-45'] or ['46-60'] and by ['Senior (60+)']
    otherwise, and every other record is returned as it is. *)
Theorem C10_enforce_generalize self df qi :
  valid_keys df qi → "age_group" ∈ qi →
  well_formed df → "_group_size" ∉ columns df →
  ∃ out, (enforce_k_anonymity self df qi "generalize").2 = Return out
    ∧ columns out = columns df
    ∧ len out = len df
    ∧ rows out
      = (λ r, if in_small_group self df qi r
              then <["age_group" :=
                     if bool_decide (cell r "age_group"
                                     ∈ [VStr "18-30"; VStr "31-45"; VStr "46-60"])
                     then VStr "Adult (18-60)" else VStr "Senior (60+)"]> r
              else r) <$> rows df.
Proof.
  intros Hv Hage Hwf Hfresh.
  rewrite enforce_k_anonymity_valid by done.
  unfold enforce_branch.
  rewrite decide_False by done. rewrite decide_True by done.
  rewrite decide_True by done. cbn [bind snd].
  rewrite generalize_loop, annotated_fresh by done. cbn [columns rows].
  rewrite drop_helper_column by done.
  eexists. split; [reflexivity|]. cbn [columns rows].
  assert (rows_eq :
    delete "_group_size" <$>
      ((λ r, if size_lt (k self) (cell r "_group_size")
             then <["age_group" := generalize_age (cell r "age_group")]> r
             else r) <$>
       ((λ r, <["_group_size" := size_cell (group_size df qi r)]> r) <$> rows df))
    = (λ r, if in_small_group self df qi r
            then <["age_group" := generalize_age (cell r "age_group")]> r
            else r) <$> rows df).
  { rewrite <- !list_fmap_compose. apply list_fmap_ext. intros i r Hr. simpl.
    assert (r !! "_group_size" = None) as Hnone.
    { eapply helper_column_absent; [done..|]. apply list_elem_of_lookup. eauto. }
    unfold cell at 1. rewrite lookup_insert_eq. simpl.
    rewrite size_lt_size_cell.
    destruct (in_small_group self df qi r).
    - unfold cell. rewrite lookup_insert_ne by done.
      rewrite delete_insert_ne by done. by rewrite delete_insert_eq, delete_id.
    - by rewrite delete_insert_eq, delete_id. }
  split; [done|]. split; [|exact rows_eq].
  unfold len. cbn [rows]. by rewrite !length_fmap.
Qed.

Lemma small_frame_well_formed : well_formed small_frame.
Proof. repeat constructor. Qed.

Lemma C10_enforce_generalize_witness :
  ∃ out, (enforce_k_anonymity (init 2 3 (2 # 10)) small_frame
            ["age_group"; "gender"] "generalize").2 = Return out
    ∧ columns out = ["age_group"; "gender"]
    ∧ len out = 3
    ∧ rows out
      = [ {[ "age_group" := VStr "18-30"; "gender" := VStr "F" ]};
          {[ "age_group" := VStr "Senior (60+)"; "gender" := VStr "M" ]};
          {[ "age_group" := VStr "18-30"; "gender" := VStr "F" ]} ].
Proof.
  destruct (C10_enforce_generalize (init 2 3 (2 # 10)) small_frame
              ["age_group"; "gender"]) as (out & Hout & Hcols & Hlen & Hrows).
  - split; [discriminate|]. repeat constructor.
  - by left.
  - repeat constructor.
  - vm_compute. intros H.
    by repeat (apply elem_of_cons in H as [H|H]; [discriminate|]);
      apply not_elem_of_nil in H.
  - exists out. split; [exact Hout|]. split; [exact Hcols|].
    split; [exact Hlen|]. rewrite Hrows. vm_compute. reflexivity.
Defined.

(** ** t-closeness *)

Lemma Qgtb_true (x y : Q) : Qgtb x y = true ↔ (y < x)%Q.
Proof.
  unfold Qgtb. rewrite negb_true_iff. split.
  - intros Hb. apply Qnot_le_lt. intros Hle.
    apply Qle_bool_iff in Hle. congruence.
  - intros Hlt. destruct (Qle_bool x y) eqn:Hb; [|done].
    apply Qle_bool_iff in Hb. exfalso. exact (Qlt_not_le _ _ Hlt Hb).
Qed.

(** A distance that is exactly [t] is not a violation. *)
Lemma Qgtb_eq_false (x y : Q) : (x == y)%Q → Qgtb x y = false.
Proof.
  intros Heq. destruct (Qgtb x y) eqn:Hb; [|done].
  apply Qgtb_true in Hb. rewrite Heq in Hb. by apply Qlt_irrefl in Hb.
Qed.

Lemma calculate_earth_movers_distance_pos dist1 dist2 :
  0 < total dist1 → 0 < total dist2 →
  calculate_earth_movers_distance dist1 dist2 = Return (distance_of dist1 dist2).
Proof.
  intros H1 H2. unfold distance_of, calculate_earth_movers_distance.
  by rewrite emd_loop_pos.
Qed.

Section t_closeness.
Context (self : PrivacyEngine) (df : DataFrame) (qi : list string)
        (sensitive_attribute : string).

Lemma t_closeness_step_returns acc g :
  calculate_earth_movers_distance ((group_dist sensitive_attribute) g) (overall_dist df sensitive_attribute)
  = Return ((group_distance df sensitive_attribute) g) →
  t_closeness_step self sensitive_attribute (overall_dist df sensitive_attribute) acc g
  = Return (acc.1 ++ (if decide ((violates self df sensitive_attribute) g) then [(violation_of df sensitive_attribute) g] else []),
            acc.2 ++ [(group_distance df sensitive_attribute) g]).
Proof.
  intros Hd. unfold t_closeness_step. fold ((group_dist sensitive_attribute) g). rewrite Hd. simpl.
  destruct (Qgtb ((group_distance df sensitive_attribute) g) (t self)) eqn:Hb.
  - apply Qgtb_true in Hb. by rewrite decide_True.
  - rewrite decide_False; [by rewrite app_nil_r|].
    intros Hv. apply Qgtb_true in Hv. congruence.
Qed.

(** The loop keeps the violating groups in the order of the iteration. *)
Lemma t_closeness_loop groups acc :
  Forall (λ g, calculate_earth_movers_distance ((group_dist sensitive_attribute) g) (overall_dist df sensitive_attribute)
               = Return ((group_distance df sensitive_attribute) g)) groups →
  foldlM (t_closeness_step self sensitive_attribute (overall_dist df sensitive_attribute)) acc groups
  = Return (acc.1 ++ ((violation_of df sensitive_attribute) <$> filter (violates self df sensitive_attribute) groups),
            acc.2 ++ ((group_distance df sensitive_attribute) <$> groups)).
Proof.
  intros Hall. revert acc. induction Hall as [|g groups Hg _ IH]; intros acc.
  - simpl. rewrite !app_nil_r. by destruct acc.
  - cbn [foldlM]. rewrite t_closeness_step_returns by done. cbn [bind].
    rewrite IH. cbn [fst snd]. rewrite filter_cons, fmap_cons.
    destruct (decide ((violates self df sensitive_attribute) g)).
    + by rewrite fmap_cons, <- !app_assoc.
    + by rewrite app_nil_r, <- app_assoc.
Qed.

Lemma members_length_le k0 : length (members df qi k0) ≤ length (rows df).
Proof.
  unfold members, keyed_rows.
  etrans; [apply length_filter|]. apply length_filter.
Qed.

(** Inside the check every distance is computed on two non-empty
    distributions. *)
Lemma group_distances_return :
  Forall (λ g, calculate_earth_movers_distance ((group_dist sensitive_attribute) g) (overall_dist df sensitive_attribute)
               = Return ((group_distance df sensitive_attribute) g))
         ((λ k0, (k0, members df qi k0)) <$> group_keys df qi).
Proof.
  apply Forall_fmap, Forall_forall. intros k0 Hk0. simpl.
  assert (1 ≤ length (members df qi k0)) as Hne
    by (apply (fibre_nonempty (row_key qi)); by apply elem_of_group_keys).
  apply calculate_earth_movers_distance_pos.
  - unfold group_dist. rewrite total_Counter, length_fmap. simpl. lia.
  - unfold overall_dist. rewrite total_Counter, length_fmap.
    pose proof (members_length_le k0). lia.
Qed.

Lemma check_t_closeness_valid :
  valid_keys df qi → sensitive_attribute ∈ columns df →
  ∃ res, check_t_closeness self df qi sensitive_attribute = Return res
    ∧ violations res
      = take 10 ((violation_of df sensitive_attribute) <$>
                 filter (violates self df sensitive_attribute) ((λ k0, (k0, members df qi k0)) <$> group_keys df qi))
    ∧ t_violating_groups res
      = length (filter (violates self df sensitive_attribute) ((λ k0, (k0, members df qi k0)) <$> group_keys df qi))
    ∧ t_total_groups res = length (group_keys df qi)
    ∧ satisfies_t_closeness res
      = bool_decide (length (filter (violates self df sensitive_attribute)
          ((λ k0, (k0, members df qi k0)) <$> group_keys df qi)) = 0).
Proof.
  intros Hv Hattr. unfold check_t_closeness, get_column.
  rewrite decide_True by done. cbn [bind].
  rewrite groupby_valid by done. cbn [bind].
  fold (overall_dist df sensitive_attribute).
  rewrite t_closeness_loop by apply group_distances_return. cbn [bind fst snd app].
  eexists. split; [reflexivity|]. cbn.
  by rewrite !length_fmap.
Qed.
End t_closeness.

Lemma groupby_returns_valid df qi : returns (groupby df qi) → valid_keys df qi.
Proof.
  intros [groups Hg]. destruct (groupby_cases df qi) as [Hv|[e He]]; [done|].
  rewrite He in Hg. discriminate.
Qed.


Lemma clinic_frame_valid : valid_keys clinic_frame ["age_group"; "gender"].
Proof. split; [discriminate|]. repeat constructor. Qed.

(** ** t-closeness in double precision *)

Lemma get_Counter (cells : list value) x :
  get (Counter cells) x = occurrences x cells.
Proof.
  unfold Counter, occurrences.
  assert (∀ (c : counter),
            get (foldl (λ (c : counter) v, <[v := S (default 0 (c !! v))]> c) c cells) x
            = get c x + length (filter (λ y, y = x) cells)) as H.
  { induction cells as [|v cells IH]; intros c; simpl; [lia|].
    rewrite IH. unfold get at 1. rewrite lookup_insert.
    destruct (decide (v = x)) as [->|Hne].
    - rewrite filter_cons_True by done. unfold get. simpl. lia.
    - rewrite filter_cons_False by done. unfold get. lia. }
  rewrite H. unfold get. rewrite lookup_empty. simpl. lia.
Qed.

Lemma rounded_frequency_Counter (cells : list value) x :
  rounded_frequency_of (Counter cells) x = rounded_frequency cells x.
Proof.
  unfold rounded_frequency_of, rounded_frequency.
  by rewrite get_Counter, total_Counter.
Qed.

Lemma rounded_distance_ext ks (f1 f2 g1 g2 : value → Binary64.float) :
  (∀ x, f1 x = g1 x) → (∀ x, f2 x = g2 x) →
  rounded_distance ks f1 f2 = rounded_distance ks g1 g2.
Proof.
  intros H1 H2. unfold rounded_distance. f_equal.
  generalize Binary64.zero. induction ks as [|x ks IH]; intros acc; [done|].
  cbn [foldl]. by rewrite H1, H2, IH.
Qed.

(** *** The order of the groups *)

Lemma value_leb_total (a b : value) : value_leb a b = true ∨ value_leb b a = true.
Proof.
  destruct a as [|s|x], b as [|s'|y]; simpl; auto.
  - apply String.leb_total.
  - rewrite !bool_decide_eq_true. lia.
Qed.

Global Instance key_le_total : Total key_le.
Proof.
  intros k1. unfold key_le. induction k1 as [|a k1 IH]; intros [|b k2]; simpl; auto.
  destruct (decide (a = b)) as [->|Hne].
  - rewrite decide_True by done. apply IH.
  - rewrite (decide_False (P := b = a)) by done. apply value_leb_total.
Qed.

Lemma members_fibre df qi k0 :
  has_null k0 = false → members df qi k0 = fibre (row_key qi) (rows df) k0.
Proof.
  intros Hk0. unfold members, keyed_rows, fibre.
  induction (rows df) as [|r rs IH]; [done|].
  destruct (decide (row_key qi r = k0)) as [Hr|Hr].
  - rewrite (filter_cons_True _ r rs) by (by rewrite Hr).
    rewrite !filter_cons_True by done. by rewrite IH.
  - rewrite (filter_cons_False (λ x, row_key qi x = k0)) by done.
    destruct (decide (has_null (row_key qi r) = false)).
    + rewrite (filter_cons_True _ r rs) by done.
      rewrite filter_cons_False by done. apply IH.
    + rewrite (filter_cons_False _ r rs) by done. apply IH.
Qed.

Lemma elem_of_group_keys_rows df qi k0 :
  k0 ∈ group_keys df qi
  ↔ has_null k0 = false ∧ ∃ r, r ∈ rows df ∧ row_key qi r = k0.
Proof.
  rewrite elem_of_group_keys, list_elem_of_fmap. unfold keyed_rows. split.
  - intros (r & -> & Hr). apply list_elem_of_filter in Hr as [Hnull Hr]. eauto.
  - intros (Hnull & r & Hr & <-). exists r. split; [done|].
    by apply list_elem_of_filter.
Qed.

(** The grouping yields the classes of the specification, in ascending
    order of their keys. *)
Lemma groupby_classes df qi :
  classes_in_key_order df qi ((λ k0, (k0, members df qi k0)) <$> group_keys df qi).
Proof.
  unfold classes_in_key_order.
  assert (((λ k0, (k0, members df qi k0)) <$> group_keys df qi).*1
          = group_keys df qi) as ->.
  { rewrite <- list_fmap_compose. induction (group_keys df qi) as [|k0 ks IH]; [done|].
    rewrite fmap_cons. simpl. by rewrite IH. }
  split; [apply Sorted_merge_sort, _|]. split; [apply group_keys_NoDup|].
  split; [apply elem_of_group_keys_rows|].
  apply Forall_fmap, Forall_forall. intros k0 Hk0. simpl.
  apply members_fibre. by apply elem_of_group_keys_rows in Hk0 as [? _].
Qed.

(** *** The loop over the groups *)

Lemma SFltb_irrefl (x : Binary64.float) : SFltb x x = false.
Proof.
  destruct x as [[]|[]| |[] m e]; try reflexivity;
    unfold SFltb; simpl; rewrite Z.compare_refl, Pos.compare_cont_refl; done.
Qed.

Section rounded_t_closeness.
Context (np_mean : list Binary64.float → Binary64.float)
        (set_order : key → list value)
        (t : Binary64.float) (df : DataFrame) (qi : list string)
        (sensitive_attribute : string).

Lemma rounded_step acc g :
  g.2 ≠ [] → length g.2 ≤ length (rows df) →
  Binary64.t_closeness_step set_order t sensitive_attribute
    (Counter (sensitive_values sensitive_attribute (rows df))) acc g
  = Return (acc.1 ++ (if decide (rounded_violates t df sensitive_attribute set_order g)
                      then [rounded_violation_of df sensitive_attribute set_order g]
                      else []),
            acc.2 ++ [rounded_group_distance df sensitive_attribute (set_order g.1) g]).
Proof.
  intros Hne Hle. unfold Binary64.t_closeness_step.
  fold (sensitive_values sensitive_attribute g.2).
  rewrite rounded_distance_pos.
  - cbn [bind].
    rewrite (rounded_distance_ext _ _ _
               (rounded_frequency (sensitive_values sensitive_attribute g.2))
               (rounded_frequency (sensitive_values sensitive_attribute (rows df))))
      by apply rounded_frequency_Counter.
    fold (rounded_group_distance df sensitive_attribute (set_order g.1) g).
    unfold Binary64.gt.
    destruct (decide (rounded_violates t df sensitive_attribute set_order g))
      as [Hf|Hf]; unfold rounded_violates in Hf.
    + by rewrite Hf.
    + apply not_true_is_false in Hf. rewrite Hf. by rewrite app_nil_r.
  - rewrite total_Counter. unfold sensitive_values. rewrite length_fmap.
    destruct g.2; [done | simpl; lia].
  - rewrite total_Counter. unfold sensitive_values. rewrite length_fmap.
    destruct g.2; [done | simpl in *; lia].
Qed.

(** The loop keeps the violating groups in the order of the iteration. *)
Lemma rounded_loop groups acc :
  Forall (λ g : key * list row, g.2 ≠ [] ∧ length g.2 ≤ length (rows df)) groups →
  foldlM (Binary64.t_closeness_step set_order t sensitive_attribute
            (Counter (sensitive_values sensitive_attribute (rows df)))) acc groups
  = Return (acc.1 ++ (rounded_violation_of df sensitive_attribute set_order
                      <$> filter (rounded_violates t df sensitive_attribute set_order)
                                 groups),
            acc.2 ++ ((λ g, rounded_group_distance df sensitive_attribute
                              (set_order g.1) g) <$> groups)).
Proof.
  intros Hall. revert acc. induction Hall as [|g groups [Hne Hle] _ IH]; intros acc.
  - simpl. rewrite !app_nil_r. by destruct acc.
  - cbn [foldlM]. rewrite rounded_step by done. cbn [bind].
    rewrite IH. cbn [fst snd]. rewrite filter_cons, fmap_cons.
    destruct (decide (rounded_violates t df sensitive_attribute set_order g)).
    + by rewrite fmap_cons, <- !app_assoc.
    + by rewrite app_nil_r, <- app_assoc.
Qed.

(** Every group has a record, and no more records than the frame. *)
Lemma groups_nonempty :
  Forall (λ g : key * list row, g.2 ≠ [] ∧ length g.2 ≤ length (rows df))
         ((λ k0, (k0, members df qi k0)) <$> group_keys df qi).
Proof.
  apply Forall_fmap, Forall_forall. intros k0 Hk0. simpl.
  pose proof (group_nonempty df qi k0 Hk0) as Hne.
  pose proof (members_length_le df qi k0) as Hle.
  split; [|done]. destruct (members df qi k0); [simpl in Hne; lia | done].
Qed.

Lemma rounded_check_valid :
  valid_keys df qi → sensitive_attribute ∈ columns df →
  ∃ res, Binary64.check_t_closeness np_mean set_order t df qi sensitive_attribute
         = Return res
    ∧ Binary64.violations res
      = take 10 (rounded_violation_of df sensitive_attribute set_order
                 <$> filter (rounded_violates t df sensitive_attribute set_order)
                       ((λ k0, (k0, members df qi k0)) <$> group_keys df qi))
    ∧ Binary64.t_violating_groups res
      = length (filter (rounded_violates t df sensitive_attribute set_order)
                  ((λ k0, (k0, members df qi k0)) <$> group_keys df qi))
    ∧ Binary64.t_total_groups res = length (group_keys df qi)
    ∧ Binary64.satisfies_t_closeness res
      = bool_decide (length (filter (rounded_violates t df sensitive_attribute set_order)
          ((λ k0, (k0, members df qi k0)) <$> group_keys df qi)) = 0).
Proof.
  intros Hv Hattr. unfold Binary64.check_t_closeness, get_column.
  rewrite decide_True by done. cbn [bind].
  rewrite groupby_valid by done. cbn [bind].
  fold (sensitive_values sensitive_attribute (rows df)).
  rewrite rounded_loop by apply groups_nonempty. cbn [bind fst snd app].
  eexists. split; [reflexivity|]. cbn.
  by rewrite !length_fmap.
Qed.

Lemma rounded_check_returns_valid :
  returns (Binary64.check_t_closeness np_mean set_order t df qi sensitive_attribute) →
  valid_keys df qi ∧ sensitive_attribute ∈ columns df.
Proof.
  intros [res Hres]. unfold Binary64.check_t_closeness, get_column in Hres.
  destruct (decide (sensitive_attribute ∈ columns df)); [|discriminate].
  split; [|done]. apply groupby_returns_valid.
  cbn [bind] in Hres. destruct (groupby df qi); [by eexists | discriminate].
Qed.
End rounded_t_closeness.

(** C8: the check returns exactly for a non-empty list of existing
    quasi-identifier columns and an existing sensitive column.  Whenever it
    returns, whatever the order in which the values are iterated, the groups
    it goes through are the equivalence classes of the records without a
    null quasi-identifier, in ascending order of their keys; a group is
    counted as a violation exactly when its distance to the distribution of
    the whole frame, the double that the distance computation returns, is
    strictly greater than t, so that a distance equal to t passes; and the
    reported list is the first ten, at most, of the violating groups in the
    order of the iteration over the groups, cut off without any sorting,
    each with its key, its distance and its size. *)
Theorem C8_check_t_closeness np_mean set_order t df qi sensitive_attribute :
  (returns (Binary64.check_t_closeness np_mean set_order t df qi sensitive_attribute)
   ↔ valid_keys df qi ∧ sensitive_attribute ∈ columns df)
  ∧ ∀ res,
    Binary64.check_t_closeness np_mean set_order t df qi sensitive_attribute
    = Return res →
    ∃ groups,
      classes_in_key_order df qi groups
      ∧ Binary64.violations res
        = take 10 (rounded_violation_of df sensitive_attribute set_order
                   <$> filter (rounded_violates t df sensitive_attribute set_order)
                              groups)
      ∧ Binary64.t_violating_groups res
        = length (filter (rounded_violates t df sensitive_attribute set_order) groups)
      ∧ Binary64.t_total_groups res = length groups
      ∧ (Binary64.satisfies_t_closeness res = true
         ↔ Forall (λ g, ¬ rounded_violates t df sensitive_attribute set_order g)
                  groups)
      ∧ Forall (λ g, rounded_group_distance df sensitive_attribute (set_order g.1) g
                     = t
                     → ¬ rounded_violates t df sensitive_attribute set_order g)
               groups.
Proof.
  split.
  - split; [apply rounded_check_returns_valid|].
    intros [Hv Hattr].
    destruct (rounded_check_valid np_mean set_order t df qi sensitive_attribute
                Hv Hattr) as (res & Hres & _). by exists res.
  - intros res Hres.
    destruct (rounded_check_returns_valid np_mean set_order t df qi
                sensitive_attribute) as [Hv Hattr]; [by exists res|].
    destruct (rounded_check_valid np_mean set_order t df qi sensitive_attribute
                Hv Hattr) as (res' & Hres' & Hviol & Hcount & Htotal & Hsat).
    rewrite Hres in Hres'. injection Hres' as <-.
    exists ((λ k0, (k0, members df qi k0)) <$> group_keys df qi).
    split; [apply groupby_classes|].
    split; [done|]. split; [done|].
    split; [by rewrite Htotal, length_fmap|]. split.
    + rewrite Hsat, bool_decide_eq_true, filter_empty_iff. done.
    + apply Forall_forall. intros g _ Heq Hlt. unfold rounded_violates in Hlt.
      rewrite Heq, SFltb_irrefl in Hlt. discriminate.
Qed.

Lemma C8_check_t_closeness_witness :
  ∃ res groups,
    Binary64.check_t_closeness (λ _, Binary64.zero)
      (λ _, [VStr "flu"; VStr "asthma"])
      (rounded_quotient 2 10) skewed_frame ["age_group"] "diagnosis"
    = Return res
    ∧ classes_in_key_order skewed_frame ["age_group"] groups
    ∧ Binary64.violations res
      = take 10 (rounded_violation_of skewed_frame "diagnosis"
                   (λ _, [VStr "flu"; VStr "asthma"])
                 <$> filter (rounded_violates (rounded_quotient 2 10) skewed_frame
                               "diagnosis" (λ _, [VStr "flu"; VStr "asthma"]))
                            groups)
    ∧ Binary64.violations res
      = [Binary64.mkViolation [VStr "18-30"]
           (S754_finite false 7205759403792795 (-55)) 5]
    ∧ Binary64.t_total_groups res = 2
    ∧ Binary64.t_violating_groups res = 1
    ∧ Binary64.max_distance res
      = Binary64.NFloat (S754_finite false 7205759403792795 (-55))
    ∧ Binary64.satisfies_t_closeness res = false.
Proof.
  destruct (C8_check_t_closeness (λ _, Binary64.zero)
              (λ _, [VStr "flu"; VStr "asthma"])
              (rounded_quotient 2 10) skewed_frame ["age_group"] "diagnosis")
    as [Hret Hprop].
  destruct (proj2 Hret) as [res Hres].
  - split; [split; [discriminate | repeat constructor]|]. right. left.
  - destruct (Hprop res Hres) as (groups & Hg & Hviol & _).
    exists res, groups. split; [exact Hres|]. split; [exact Hg|].
    split; [exact Hviol|].
    vm_compute in Hres. injection Hres as <-. repeat split.
Defined.

(** ** l-diversity *)

Lemma check_l_diversity_valid self df qi sensitive_attribute :
  valid_keys df qi → sensitive_attribute ∈ columns df →
  returns (check_l_diversity self df qi sensitive_attribute).
Proof.
  intros Hv Hattr. unfold check_l_diversity, require_column.
  rewrite groupby_valid by done. cbn [bind].
  rewrite decide_True by done. cbn [bind]. by eexists.
Qed.

(** ** The audit *)

Section audit.
Context (self : PrivacyEngine) (df : DataFrame) (qi : list string).

Lemma checked_exists attr :
  valid_keys df qi → attr ∈ columns df → ∃ p, (checked self df qi) attr p.
Proof.
  intros Hv Hattr.
  destruct (check_l_diversity_valid self df qi attr Hv Hattr) as [lr Hl].
  destruct (check_t_closeness_valid self df qi attr Hv Hattr) as (tr & Ht & _).
  by exists (lr, tr).
Qed.

Lemma checked_all attrs :
  valid_keys df qi → Forall (λ a, a ∈ columns df) attrs →
  ∃ results, Forall2 (checked self df qi) attrs results.
Proof.
  intros Hv. induction 1 as [|a attrs Ha _ [results IH]].
  - exists []. constructor.
  - destruct (checked_exists a Hv Ha) as [p Hp].
    exists (p :: results). by constructor.
Qed.

Lemma audit_loop attrs results acc :
  Forall2 (checked self df qi) attrs results → (holds_results self df qi) acc →
  ∃ acc', foldlM (audit_step self df qi) acc attrs = Return acc'
    ∧ (holds_results self df qi) acc'
    ∧ Forall (λ a, is_Some (acc'.1 !! a)) attrs
    ∧ (∀ a, is_Some (acc.1 !! a) → is_Some (acc'.1 !! a)).
Proof.
  intros Hall. revert acc.
  induction Hall as [|a p attrs results [Hl Ht] _ IH]; intros acc Hacc.
  - exists acc. split; [done|]. split; [exact Hacc|]. split; [constructor | done].
  - cbn [foldlM]. unfold audit_step at 1. rewrite Hl, Ht. cbn [bind].
    destruct (IH (<[a := p.1]> acc.1, <[a := p.2]> acc.2)) as (acc' & Hrun & Hres & Hdom & Hmono).
    { intros a'. cbn [fst snd]. destruct (decide (a = a')) as [<-|Hne].
      - rewrite !lookup_insert_eq. split; [by intros lr [= <-]|].
        split; [by intros tr [= <-]|]. split; intros _; by eexists.
      - rewrite !lookup_insert_ne by done. apply Hacc. }
    exists acc'. split; [done|]. split; [done|]. split.
    + constructor; [|done]. apply Hmono. cbn [fst]. rewrite lookup_insert_eq. by eexists.
    + intros a' Ha'. apply Hmono. cbn [fst].
      destruct (decide (a = a')) as [<-|Hne].
      * rewrite lookup_insert_eq. by eexists.
      * by rewrite lookup_insert_ne.
Qed.

Lemma score_loop attrs results acc scores :
  Forall2 (checked self df qi) attrs results → (holds_results self df qi) acc →
  Forall (λ a, is_Some (acc.1 !! a)) attrs →
  foldlM (score_step acc.1 acc.2) scores attrs
  = Return (scores ++ attribute_scores results).
Proof.
  intros Hall Hacc. revert scores.
  induction Hall as [|a p attrs results [Hl Ht] _ IH]; intros scores Hdom.
  - simpl. by rewrite app_nil_r.
  - apply Forall_cons in Hdom as [[lr Hlr] Hdom].
    destruct (Hacc a) as (Hal & Hat & Hboth).
    destruct (proj1 Hboth (ex_intro _ lr Hlr)) as [tr Htr].
    pose proof (Hal lr Hlr) as Hl'. pose proof (Hat tr Htr) as Ht'.
    rewrite Hl in Hl'. rewrite Ht in Ht'.
    injection Hl' as <-. injection Ht' as <-.
    cbn [foldlM]. unfold score_step at 1, getitem. rewrite Hlr, Htr. cbn [bind].
    rewrite IH by done. unfold attribute_scores. cbn [mbind list_bind].
    by rewrite <- !app_assoc.
Qed.
End audit.

(** *** The overall score *)

Lemma scores_checks kr results :
  [score_of (satisfies_k_anonymity kr)] ++ attribute_scores results
  = score_of <$> checks_of kr results.
Proof.
  unfold checks_of, attribute_scores. rewrite fmap_cons. simpl. f_equal.
  induction results as [|p results IH]; [done|].
  cbn [mbind list_bind]. rewrite fmap_app, <- IH. done.
Qed.

Lemma length_checks_of kr results :
  length (checks_of kr results) = 1 + 2 * length results.
Proof.
  unfold checks_of. simpl. f_equal.
  induction results as [|p results IH]; [done|].
  cbn [mbind list_bind]. rewrite length_app, IH. simpl. lia.
Qed.

Lemma sum_scores (checks : list bool) :
  foldr Z.add 0%Z (score_of <$> checks) = (100 * Z.of_nat (passed checks))%Z.
Proof.
  unfold passed. induction checks as [|b checks IH]; [done|].
  rewrite fmap_cons, filter_cons. cbn [foldr]. rewrite IH.
  destruct b.
  - rewrite decide_True by done. cbn [length score_of]. lia.
  - rewrite decide_False by done. cbn [score_of]. lia.
Qed.

Lemma passed_le (checks : list bool) : passed checks ≤ length checks.
Proof. apply length_filter. Qed.

Lemma passed_all (checks : list bool) :
  passed checks = length checks ↔ Forall (λ b, b = true) checks.
Proof.
  unfold passed. induction checks as [|b checks IH]; [by split; [constructor|]|].
  rewrite filter_cons, Forall_cons. destruct b.
  - rewrite decide_True by done. simpl. rewrite <- IH. split; [intros; split; [done|lia] | intros [_ ?]; lia].
  - rewrite decide_False by done. simpl.
    pose proof (length_filter (λ b, b = true) checks). split; [lia | by intros [? _]].
Qed.

Lemma passed_none (checks : list bool) :
  passed checks = 0 ↔ Forall (λ b, b = false) checks.
Proof.
  unfold passed. rewrite filter_empty_iff. apply Forall_iff.
  intros []; split; done.
Qed.

Lemma Qdiv_eq_iff (x c : Q) (n : Z) :
  (0 < n)%Z → (x / inject_Z n == c ↔ x == c * inject_Z n)%Q.
Proof.
  intros Hn.
  assert (¬ inject_Z n == 0)%Q as Hnz.
  { change 0%Q with (inject_Z 0). rewrite inject_Z_injective. lia. }
  split; intros H.
  - rewrite <- H. field. exact Hnz.
  - rewrite H. field. exact Hnz.
Qed.

Lemma np_mean_scores (checks : list bool) :
  np_mean (score_of <$> checks)
  = (inject_Z (100 * Z.of_nat (passed checks))
     / inject_Z (Z.of_nat (length checks)))%Q.
Proof. unfold np_mean. by rewrite sum_scores, length_fmap. Qed.

Lemma np_mean_steps (checks : list bool) :
  checks ≠ [] →
  (np_mean (score_of <$> checks)
   == inject_Z (Z.of_nat (passed checks))
      * (100 / inject_Z (Z.of_nat (length checks))))%Q.
Proof.
  intros Hne. rewrite np_mean_scores, inject_Z_mult.
  change (inject_Z 100) with 100%Q. field.
  change 0%Q with (inject_Z 0). rewrite inject_Z_injective.
  destruct checks; [done | simpl; lia].
Qed.

Lemma np_mean_100 (checks : list bool) :
  checks ≠ [] →
  (np_mean (score_of <$> checks) == 100)%Q ↔ Forall (λ b, b = true) checks.
Proof.
  intros Hne. rewrite np_mean_scores, <- passed_all.
  rewrite Qdiv_eq_iff by (destruct checks; [done | simpl; lia]).
  change 100%Q with (inject_Z 100). rewrite <- inject_Z_mult, inject_Z_injective.
  lia.
Qed.

Lemma np_mean_0 (checks : list bool) :
  checks ≠ [] →
  (np_mean (score_of <$> checks) == 0)%Q ↔ Forall (λ b, b = false) checks.
Proof.
  intros Hne. rewrite np_mean_scores, <- passed_none.
  rewrite Qdiv_eq_iff by (destruct checks; [done | simpl; lia]).
  change 0%Q with (inject_Z 0). rewrite <- inject_Z_mult, inject_Z_injective.
  lia.
Qed.

Lemma check_k_anonymity_returns_valid self df qi :
  returns (check_k_anonymity self df qi) → valid_keys df qi.
Proof.
  intros [res Hres]. apply groupby_returns_valid.
  unfold check_k_anonymity, group_sizes in Hres.
  destruct (groupby df qi); [by eexists | discriminate].
Qed.

Lemma check_l_diversity_returns_valid self df qi sensitive_attribute :
  returns (check_l_diversity self df qi sensitive_attribute) →
  sensitive_attribute ∈ columns df.
Proof.
  intros [res Hres]. unfold check_l_diversity, require_column in Hres.
  destruct (groupby df qi); [|discriminate]. cbn [bind] in Hres.
  destruct (decide (sensitive_attribute ∈ columns df)); [done | discriminate].
Qed.

Lemma audit_loop_returns_valid self df qi attrs acc :
  returns (foldlM (audit_step self df qi) acc attrs) →
  Forall (λ a, a ∈ columns df) attrs.
Proof.
  revert acc. induction attrs as [|a attrs IH]; intros acc [acc' Hrun]; [constructor|].
  cbn [foldlM] in Hrun.
  destruct (audit_step self df qi acc a) as [acc1|e] eqn:Hstep; [|discriminate].
  constructor; [|apply (IH acc1); by exists acc'].
  apply (check_l_diversity_returns_valid self df qi).
  unfold audit_step in Hstep.
  destruct (check_l_diversity self df qi a); [by eexists | discriminate].
Qed.

Lemma comprehensive_privacy_audit_returns_valid self now df qi sensitive_attributes :
  returns (comprehensive_privacy_audit self now df qi sensitive_attributes) →
  valid_keys df qi ∧ Forall (λ a, a ∈ columns df) sensitive_attributes.
Proof.
  intros [report Hrep]. unfold comprehensive_privacy_audit in Hrep.
  destruct (check_k_anonymity self df qi) as [kr|] eqn:Hkr; [|discriminate].
  split; [apply (check_k_anonymity_returns_valid self); rewrite Hkr; by eexists|].
  cbn [bind] in Hrep.
  destruct (foldlM (audit_step self df qi) (∅, ∅) sensitive_attributes)
    as [acc|] eqn:Hloop; [|discriminate].
  apply (audit_loop_returns_valid self df qi _ (∅, ∅)). rewrite Hloop. by eexists.
Qed.

Lemma comprehensive_privacy_audit_valid self now df qi sensitive_attributes :
  valid_keys df qi → Forall (λ a, a ∈ columns df) sensitive_attributes →
  ∃ report kr results,
    comprehensive_privacy_audit self now df qi sensitive_attributes = Return report
    ∧ check_k_anonymity self df qi = Return kr
    ∧ Forall2 (checked self df qi) sensitive_attributes results
    ∧ let checks := checks_of kr results in
      let n := 1 + 2 * length sensitive_attributes in
      let score := overall_privacy_score report in
      length checks = n
      ∧ score = (inject_Z (foldr Z.add 0%Z (score_of <$> checks))
                 / inject_Z (Z.of_nat n))%Q
      ∧ (score == inject_Z (Z.of_nat (passed checks)) * (100 / inject_Z (Z.of_nat n)))%Q
      ∧ passed checks ≤ n
      ∧ ((score == 100)%Q ↔ Forall (λ b, b = true) checks)
      ∧ ((score == 0)%Q ↔ Forall (λ b, b = false) checks).
Proof.
  intros Hv Hattrs.
  destruct (check_k_anonymity_valid self df qi Hv) as (kr & Hkr & _).
  destruct (checked_all self df qi _ Hv Hattrs) as [results Hresults].
  destruct (audit_loop self df qi _ _ (∅, ∅) Hresults)
    as (acc & Hloop & Hacc & Hdom & _).
  { intros a. cbn [fst snd]. rewrite !lookup_empty.
    split; [done|]. split; [done|]. split; intros [? ?]; done. }
  pose proof (score_loop self df qi _ _ acc
                [score_of (satisfies_k_anonymity kr)] Hresults Hacc Hdom) as Hscores.
  rewrite scores_checks in Hscores.
  assert (length (checks_of kr results) = 1 + 2 * length sensitive_attributes) as Hlen
    by (rewrite length_checks_of; by rewrite (Forall2_length _ _ _ Hresults)).
  assert (checks_of kr results ≠ []) as Hne by done.
  destruct acc as [ld tc]. cbn [fst snd] in Hscores.
  eexists _, kr, results. split.
  { unfold comprehensive_privacy_audit. rewrite Hkr. cbn [bind].
    rewrite Hloop. cbn [bind]. rewrite Hscores. cbn [bind]. reflexivity. }
  split; [done|]. split; [done|]. cbn zeta. cbn [overall_privacy_score].
  split; [done|]. split.
  { unfold np_mean. by rewrite length_fmap, Hlen. }
  split; [rewrite <- Hlen; by apply np_mean_steps|].
  split; [rewrite <- Hlen; apply passed_le|].
  split; [by apply np_mean_100 | by apply np_mean_0].
Qed.

(** C9: the audit returns exactly for a non-empty list of existing
    quasi-identifier columns and a list of existing sensitive columns.
    Whenever it returns, for a list of m sensitive attributes, the
    [overall_privacy_score] of the report is the arithmetic mean of
    n = 1 + 2m scores, one per check (the k-anonymity check and, for every
    listed attribute, its l-diversity and t-closeness checks), 100 for a
    passed check and 0 for a failed one.  The score is j * (100 / n) for
    the number j of passed checks; it is 100 exactly when all checks pass
    and 0 exactly when all fail. *)
Theorem C9_comprehensive_privacy_audit self now df qi sensitive_attributes :
  (returns (comprehensive_privacy_audit self now df qi sensitive_attributes)
   ↔ valid_keys df qi ∧ Forall (λ a, a ∈ columns df) sensitive_attributes)
  ∧ ∀ report,
    comprehensive_privacy_audit self now df qi sensitive_attributes = Return report →
    ∃ kr results,
      check_k_anonymity self df qi = Return kr
      ∧ Forall2 (checked self df qi) sensitive_attributes results
      ∧ let checks := checks_of kr results in
        let n := 1 + 2 * length sensitive_attributes in
        let score := overall_privacy_score report in
        length checks = n
        ∧ score = (inject_Z (foldr Z.add 0%Z (score_of <$> checks))
                   / inject_Z (Z.of_nat n))%Q
        ∧ (score == inject_Z (Z.of_nat (passed checks))
                    * (100 / inject_Z (Z.of_nat n)))%Q
        ∧ passed checks ≤ n
        ∧ ((score == 100)%Q ↔ Forall (λ b, b = true) checks)
        ∧ ((score == 0)%Q ↔ Forall (λ b, b = false) checks).
Proof.
  split.
  - split; [apply comprehensive_privacy_audit_returns_valid|].
    intros [Hv Hattrs].
    destruct (comprehensive_privacy_audit_valid self now df qi _ Hv Hattrs)
      as (report & _ & _ & Hrep & _). by exists report.
  - intros report Hrep.
    destruct (comprehensive_privacy_audit_returns_valid self now df qi
                sensitive_attributes) as [Hv Hattrs]; [by exists report|].
    destruct (comprehensive_privacy_audit_valid self now df qi _ Hv Hattrs)
      as (report' & kr & results & Hrep' & Hkr & Hres & Hprops).
    rewrite Hrep in Hrep'. injection Hrep' as <-.
    exists kr, results. split; [exact Hkr|]. split; [exact Hres | exact Hprops].
Qed.

Lemma C9_comprehensive_privacy_audit_witness :
  ∃ report kr results,
    comprehensive_privacy_audit (init 2 2 (1 # 4)) "2024-01-01T00:00:00" clinic_frame
      ["age_group"; "gender"] ["diagnosis"; "diagnosis"] = Return report
    ∧ check_k_anonymity (init 2 2 (1 # 4)) clinic_frame ["age_group"; "gender"] = Return kr
    ∧ Forall2 (checked (init 2 2 (1 # 4)) clinic_frame ["age_group"; "gender"])
              ["diagnosis"; "diagnosis"] results
    ∧ length (checks_of kr results) = 5
    ∧ (overall_privacy_score report
       == inject_Z (Z.of_nat (passed (checks_of kr results))) * (100 / 5))%Q.
Proof.
  destruct (C9_comprehensive_privacy_audit (init 2 2 (1 # 4)) "2024-01-01T00:00:00"
              clinic_frame ["age_group"; "gender"] ["diagnosis"; "diagnosis"])
    as [Hret Hprop].
  destruct (proj2 Hret) as [report Hrep].
  - split; [split; [discriminate | repeat constructor] | repeat constructor].
  - destruct (Hprop report Hrep)
      as (kr & results & Hkr & Hres & Hlen & _ & Hsteps & _).
    exists report, kr, results. split; [exact Hrep|]. split; [exact Hkr|].
    split; [exact Hres|]. split; [exact Hlen | exact Hsteps].
Defined.

(** * Further properties of the engine *)

(** ** More on lists *)

Lemma length_filter_impl {A} (P P' : A → Prop) `{∀ a, Decision (P a)}
    `{∀ a, Decision (P' a)} (xs : list A) :
  (∀ x, P' x → P x) → length (filter P' xs) ≤ length (filter P xs).
Proof.
  intros Himp. induction xs as [|x xs IH]; [done|].
  rewrite !filter_cons. destruct (decide (P' x)) as [HP'|HP'].
  - rewrite decide_True by auto. simpl. lia.
  - destruct (decide (P x)); simpl; lia.
Qed.

Lemma sum_list_filter_impl (P P' : nat → Prop) `{∀ a, Decision (P a)}
    `{∀ a, Decision (P' a)} (xs : list nat) :
  (∀ x, P' x → P x) → sum_list (filter P' xs) ≤ sum_list (filter P xs).
Proof.
  intros Himp. induction xs as [|x xs IH]; [done|].
  rewrite !filter_cons. destruct (decide (P' x)) as [HP'|HP'].
  - rewrite decide_True by auto. simpl. lia.
  - destruct (decide (P x)); simpl; lia.
Qed.

Lemma sum_list_filter_le (P : nat → Prop) `{∀ a, Decision (P a)} (xs : list nat) :
  sum_list (filter P xs) ≤ sum_list xs.
Proof.
  induction xs as [|x xs IH]; [done|].
  rewrite filter_cons. destruct (decide (P x)); simpl; lia.
Qed.

Lemma length_le_sum_list (xs : list nat) :
  Forall (λ n, 1 ≤ n) xs → length xs ≤ sum_list xs.
Proof. induction 1 as [|x xs Hx _ IH]; simpl; lia. Qed.

Lemma sum_list_zero_nil (xs : list nat) :
  Forall (λ n, 1 ≤ n) xs → sum_list xs = 0 → xs = [].
Proof. intros Hpos Hsum. destruct Hpos as [|x xs Hx _]; [done|]. simpl in Hsum. lia. Qed.

Lemma Forall_filter_sub {A} (P Q : A → Prop) `{∀ a, Decision (P a)} (xs : list A) :
  Forall Q xs → Forall Q (filter P xs).
Proof.
  induction 1 as [|x xs Hx _ IH]; [constructor|].
  rewrite filter_cons. destruct (decide (P x)); [by constructor | done].
Qed.

Lemma filter_all {A} (P : A → Prop) `{∀ a, Decision (P a)} (xs : list A) :
  Forall P xs → filter P xs = xs.
Proof.
  induction 1 as [|x xs Hx _ IH]; [done|]. by rewrite filter_cons_True, IH.
Qed.

(** The least element that [Series.min()] reports. *)
Lemma series_min_spec (xs : list nat) :
  xs ≠ [] →
  ∃ m, series_min xs = SInt (Z.of_nat m) ∧ m ∈ xs ∧ Forall (λ n, m ≤ n) xs.
Proof.
  destruct xs as [|x xs]; [done|]. intros _. simpl.
  exists (foldr Nat.min x xs). split; [done|].
  induction xs as [|y xs IH]; simpl.
  - split; [by left | by repeat constructor].
  - destruct IH as [Hin Hall].
    apply Forall_cons in Hall as [Hx Hall]. split.
    + destruct (Nat.min_spec y (foldr Nat.min x xs)) as [[_ ->]|[_ ->]].
      * right. by left.
      * apply elem_of_cons in Hin as [->|Hin]; [by left | right; by right].
    + constructor; [lia|]. constructor; [lia|].
      eapply Forall_impl; [exact Hall|]. intros n Hn. simpl in Hn. lia.
Qed.

Lemma series_max_spec (xs : list nat) :
  xs ≠ [] →
  ∃ m, series_max xs = SInt (Z.of_nat m) ∧ m ∈ xs ∧ Forall (λ n, n ≤ m) xs.
Proof.
  destruct xs as [|x xs]; [done|]. intros _. simpl.
  exists (foldr Nat.max x xs). split; [done|].
  induction xs as [|y xs IH]; simpl.
  - split; [by left | by repeat constructor].
  - destruct IH as [Hin Hall].
    apply Forall_cons in Hall as [Hx Hall]. split.
    + destruct (Nat.max_spec y (foldr Nat.max x xs)) as [[_ ->]|[_ ->]].
      * apply elem_of_cons in Hin as [->|Hin]; [by left | right; by right].
      * right. by left.
    + constructor; [lia|]. constructor; [lia|].
      eapply Forall_impl; [exact Hall|]. intros n Hn. simpl in Hn. lia.
Qed.

(** ** More on the grouping *)

Lemma equivalence_classes_nonempty df qi :
  Forall (λ c, 1 ≤ length c) (equivalence_classes df qi).
Proof.
  unfold equivalence_classes. apply Forall_fmap, Forall_forall.
  intros k0 Hk0. simpl. apply fibre_nonempty. by apply elem_of_remove_dups.
Qed.

Lemma equivalence_classes_sum df qi :
  sum_list (length <$> equivalence_classes df qi) = len df.
Proof.
  unfold equivalence_classes. rewrite <- list_fmap_compose, sum_list_fmap.
  apply (sum_fibres (row_key qi)); [apply NoDup_remove_dups|].
  intros r Hr. apply elem_of_remove_dups. by apply list_elem_of_fmap_2.
Qed.

Lemma len_dropna_le df qi : len (dropna df qi) ≤ len df.
Proof. unfold len, dropna, keyed_rows. simpl. apply length_filter. Qed.

(** ** More on k-anonymity *)

(** What the check returns, in terms of the list of group sizes. *)
Lemma check_k_anonymity_sizes self df qi r :
  check_k_anonymity self df qi = Return r →
  ∃ sizes, sizes ≡ₚ length <$> equivalence_classes (dropna df qi) qi
    ∧ Forall (λ n, 1 ≤ n) sizes
    ∧ sum_list sizes = len (dropna df qi)
    ∧ k_total_groups r = length sizes
    ∧ k_violating_groups r = length (filter (λ n, (Z.of_nat n < k self)%Z) sizes)
    ∧ satisfies_k_anonymity r
      = bool_decide (length (filter (λ n, (Z.of_nat n < k self)%Z) sizes) = 0)
    ∧ records_at_risk r = sum_list (filter (λ n, (Z.of_nat n < k self)%Z) sizes)
    ∧ smallest_group_size r = series_min sizes
    ∧ largest_group_size r = series_max sizes.
Proof.
  intros Hr.
  assert (valid_keys df qi) as Hv
    by (apply (check_k_anonymity_returns_valid self); by exists r).
  destruct (check_k_anonymity_valid self df qi Hv)
    as (r' & Hr' & sizes & Hperm & Htot & Hviol & Hsat & Hrisk & Hmin & Hmax & _).
  rewrite Hr in Hr'. injection Hr' as <-.
  exists sizes. split; [done|]. split.
  { rewrite Hperm. apply Forall_fmap.
    eapply Forall_impl; [apply equivalence_classes_nonempty | done]. }
  split; [by rewrite Hperm, equivalence_classes_sum|]. done.
Qed.

(** X1: the k-anonymity verdict is anti-monotone in k.  On the same frame
    and quasi-identifiers, an engine with a smaller k reports no more
    violating groups and no more records at risk, and passes whenever the
    engine with the larger k passes. *)
Theorem X1_check_k_anonymity_antimonotone self1 self2 df qi r1 r2 :
  (k self2 ≤ k self1)%Z →
  check_k_anonymity self1 df qi = Return r1 →
  check_k_anonymity self2 df qi = Return r2 →
  (satisfies_k_anonymity r1 = true → satisfies_k_anonymity r2 = true)
  ∧ k_violating_groups r2 ≤ k_violating_groups r1
  ∧ records_at_risk r2 ≤ records_at_risk r1.
Proof.
  intros Hk Hr1 Hr2.
  destruct (check_k_anonymity_sizes _ _ _ _ Hr1)
    as (s1 & Hp1 & _ & _ & _ & Hv1 & Hs1 & Hk1 & _).
  destruct (check_k_anonymity_sizes _ _ _ _ Hr2)
    as (s2 & Hp2 & _ & _ & _ & Hv2 & Hs2 & Hk2 & _).
  assert (s2 ≡ₚ s1) as Hp by (by rewrite Hp1, Hp2).
  assert (length (filter (λ n, (Z.of_nat n < k self2)%Z) s2)
          ≤ length (filter (λ n, (Z.of_nat n < k self1)%Z) s1)) as Hlen.
  { rewrite Hp. apply length_filter_impl. intros n. lia. }
  split; [|split].
  - rewrite Hs1, Hs2, !bool_decide_eq_true. lia.
  - by rewrite Hv1, Hv2.
  - rewrite Hk1, Hk2, Hp. apply sum_list_filter_impl. intros n. lia.
Qed.

Lemma X1_check_k_anonymity_antimonotone_witness :
  ∃ r1 r2,
    check_k_anonymity (init 3 3 (2 # 10)) small_frame ["age_group"; "gender"] = Return r1
    ∧ check_k_anonymity (init 2 3 (2 # 10)) small_frame ["age_group"; "gender"] = Return r2
    ∧ k_violating_groups r2 ≤ k_violating_groups r1
    ∧ records_at_risk r2 ≤ records_at_risk r1.
Proof.
  eexists _, _. split; [vm_compute; reflexivity|]. split; [vm_compute; reflexivity|].
  eapply (X1_check_k_anonymity_antimonotone (init 3 3 (2 # 10)) (init 2 3 (2 # 10))
            small_frame ["age_group"; "gender"]).
  - simpl. lia.
  - vm_compute. reflexivity.
  - vm_compute. reflexivity.
Defined.

(** X2: the fields of a k-anonymity report agree with one another.  The
    verdict is true exactly when no record is at risk; the records at risk
    are at least as many as the violating groups and at most the records of
    the frame; and when there is a group, the smallest and the largest size
    are integers from 1 upwards, and the verdict is true exactly when k is
    at most the smallest size. *)
Theorem X2_check_k_anonymity_report self df qi r :
  check_k_anonymity self df qi = Return r →
  (satisfies_k_anonymity r = true ↔ records_at_risk r = 0)
  ∧ k_violating_groups r ≤ records_at_risk r
  ∧ records_at_risk r ≤ len df
  ∧ k_violating_groups r ≤ k_total_groups r
  ∧ k_total_groups r ≤ len df
  ∧ (k_total_groups r ≠ 0 →
     ∃ m M, smallest_group_size r = SInt (Z.of_nat m)
       ∧ largest_group_size r = SInt (Z.of_nat M)
       ∧ 1 ≤ m ≤ M
       ∧ (satisfies_k_anonymity r = true ↔ (k self ≤ Z.of_nat m)%Z)).
Proof.
  intros Hr.
  destruct (check_k_anonymity_sizes _ _ _ _ Hr)
    as (sizes & _ & Hpos & Hsum & Htot & Hviol & Hsat & Hrisk & Hmin & Hmax).
  pose proof (len_dropna_le df qi) as Hdrop.
  pose proof (Forall_filter_sub (λ n, (Z.of_nat n < k self)%Z) _ sizes Hpos) as Hposv.
  pose proof (sum_list_filter_le (λ n, (Z.of_nat n < k self)%Z) sizes) as Hle.
  pose proof (length_le_sum_list _ Hposv) as Hlv.
  pose proof (length_le_sum_list _ Hpos) as Hls.
  split; [|split; [|split; [|split; [|split]]]].
  - rewrite Hsat, Hrisk, bool_decide_eq_true. split; [|lia].
    intros Hnil%nil_length_inv. by rewrite Hnil.
  - by rewrite Hviol, Hrisk.
  - rewrite Hrisk. lia.
  - rewrite Hviol, Htot. apply length_filter.
  - rewrite Htot. lia.
  - rewrite Htot. intros Hne.
    assert (sizes ≠ []) as Hne' by (intros ->; done).
    destruct (series_min_spec sizes Hne') as (m & Hm & Hmin_in & Hmin_le).
    destruct (series_max_spec sizes Hne') as (M & HM & Hmax_in & Hmax_ge).
    exists m, M. split; [by rewrite Hmin|]. split; [by rewrite Hmax|].
    rewrite Forall_forall in Hpos, Hmin_le.
    split; [split; [by apply Hpos | by apply Hmin_le]|].
    rewrite Hsat, bool_decide_eq_true, filter_empty_iff, Forall_forall. split.
    + intros Hall. specialize (Hall m Hmin_in). lia.
    + intros Hk n Hn. specialize (Hmin_le n Hn). lia.
Qed.

Lemma X2_check_k_anonymity_report_witness :
  ∃ r, check_k_anonymity (init 2 3 (2 # 10)) small_frame ["age_group"; "gender"] = Return r
    ∧ (satisfies_k_anonymity r = true ↔ records_at_risk r = 0)
    ∧ records_at_risk r ≤ len small_frame.
Proof.
  eexists. split; [vm_compute; reflexivity|].
  destruct (X2_check_k_anonymity_report (init 2 3 (2 # 10)) small_frame
              ["age_group"; "gender"] _ eq_refl) as (H1 & _ & H3 & _).
  split; [exact H1 | exact H3].
Defined.

(** ** l-diversity *)

Lemma length_remove_dups_le {A} `{EqDecision A} (xs : list A) :
  length (remove_dups xs) ≤ length xs.
Proof.
  induction xs as [|x xs IH]; [done|]. simpl.
  destruct (decide_rel elem_of x xs); simpl; lia.
Qed.

Lemma nunique_le (cells : list value) : nunique cells ≤ length cells.
Proof.
  unfold nunique. etrans; [apply length_remove_dups_le|]. apply length_filter.
Qed.

Lemma nunique_distinct sensitive_attribute (g : key * list row) :
  nunique ((λ r, cell r sensitive_attribute) <$> g.2)
  = size (distinct_values sensitive_attribute g).
Proof.
  unfold nunique, distinct_values.
  rewrite <- (size_list_to_set (C := gset value)) by apply NoDup_remove_dups.
  f_equal. apply set_eq. intros v.
  by rewrite !elem_of_list_to_set, elem_of_remove_dups.
Qed.

(** What the check returns, in terms of the groups. *)
Lemma check_l_diversity_groups self df qi sensitive_attribute :
  valid_keys df qi → sensitive_attribute ∈ columns df →
  ∃ r, check_l_diversity self df qi sensitive_attribute = Return r
    ∧ let groups := (λ k0, (k0, members df qi k0)) <$> group_keys df qi in
      let counts := (λ g, size (distinct_values sensitive_attribute g)) <$> groups in
      l_total_groups r = length groups
      ∧ l_violating_groups r = length (filter (λ n, (Z.of_nat n < l self)%Z) counts)
      ∧ satisfies_l_diversity r
        = bool_decide (length (filter (λ n, (Z.of_nat n < l self)%Z) counts) = 0)
      ∧ min_diversity r = series_min counts
      ∧ max_diversity r = series_max counts.
Proof.
  intros Hv Hattr. unfold check_l_diversity, require_column.
  rewrite groupby_valid by done. cbn [bind].
  rewrite decide_True by done. cbn [bind].
  eexists. split; [reflexivity|]. cbn zeta.
  cbn [l_total_groups l_violating_groups satisfies_l_diversity min_diversity
       max_diversity].
  assert ((λ d : key * nat * nat, d.1.2)
            <$> ((λ g : key * list row,
                    (g.1, nunique ((λ r, cell r sensitive_attribute) <$> g.2),
                     length g.2))
                 <$> ((λ k0, (k0, members df qi k0)) <$> group_keys df qi))
          = (λ g : key * list row, size (distinct_values sensitive_attribute g))
            <$> ((λ k0, (k0, members df qi k0)) <$> group_keys df qi)) as ->.
  { rewrite <- !list_fmap_compose. apply list_fmap_ext. intros _ k0 _. simpl.
    by rewrite <- nunique_distinct. }
  by rewrite !length_fmap.
Qed.

Lemma check_l_diversity_returns_keys self df qi sensitive_attribute :
  returns (check_l_diversity self df qi sensitive_attribute) → valid_keys df qi.
Proof.
  intros [r Hr]. apply groupby_returns_valid. unfold check_l_diversity in Hr.
  destruct (groupby df qi); [by eexists | discriminate].
Qed.

(** X3: [check_l_diversity] returns exactly for a non-empty list of
    existing quasi-identifier columns and an existing sensitive column; with
    valid quasi-identifiers and a missing sensitive column it raises
    [KeyError] for that column.  Whenever it returns, a group violates
    exactly when it has fewer than l distinct non-null sensitive values,
    and the verdict is true exactly when every group has at least l. *)
Theorem X3_check_l_diversity self df qi sensitive_attribute :
  (returns (check_l_diversity self df qi sensitive_attribute)
   ↔ valid_keys df qi ∧ sensitive_attribute ∈ columns df)
  ∧ (valid_keys df qi → sensitive_attribute ∉ columns df →
     check_l_diversity self df qi sensitive_attribute
     = Raise (KeyError sensitive_attribute))
  ∧ ∀ r, check_l_diversity self df qi sensitive_attribute = Return r →
    ∃ groups,
      groupby df qi = Return groups
      ∧ l_total_groups r = length groups
      ∧ l_violating_groups r
        = length (filter (λ g, (Z.of_nat (size (distinct_values sensitive_attribute g))
                                < l self)%Z) groups)
      ∧ (satisfies_l_diversity r = true
         ↔ Forall (λ g, (l self ≤ Z.of_nat (size (distinct_values sensitive_attribute g)))%Z)
                  groups).
Proof.
  split; [|split].
  - split.
    + intros Hret. split; [by eapply check_l_diversity_returns_keys|].
      by eapply check_l_diversity_returns_valid.
    + intros [Hv Hattr].
      destruct (check_l_diversity_groups self df qi _ Hv Hattr) as (r & Hr & _).
      by exists r.
  - intros Hv Hattr. unfold check_l_diversity, require_column.
    rewrite groupby_valid by done. cbn [bind]. by rewrite decide_False.
  - intros r Hr.
    assert (valid_keys df qi) as Hv
      by (eapply check_l_diversity_returns_keys; by exists r).
    assert (sensitive_attribute ∈ columns df) as Hattr
      by (eapply check_l_diversity_returns_valid; by exists r).
    destruct (check_l_diversity_groups self df qi _ Hv Hattr)
      as (r' & Hr' & Htot & Hviol & Hsat & _).
    rewrite Hr in Hr'. injection Hr' as <-.
    eexists. split; [by apply groupby_valid|]. split; [exact Htot|].
    rewrite (filter_fmap _ (λ n, (Z.of_nat n < l self)%Z)), length_fmap in Hviol, Hsat.
    split; [exact Hviol|].
    rewrite Hsat, bool_decide_eq_true, filter_empty_iff.
    apply Forall_iff. intros g. lia.
Qed.

Lemma X3_check_l_diversity_witness :
  ∃ r groups,
    check_l_diversity (init 2 2 (1 # 4)) clinic_frame ["age_group"; "gender"] "diagnosis"
    = Return r
    ∧ groupby clinic_frame ["age_group"; "gender"] = Return groups
    ∧ (satisfies_l_diversity r = true
       ↔ Forall (λ g, (2 ≤ Z.of_nat (size (distinct_values "diagnosis" g)))%Z) groups).
Proof.
  destruct (X3_check_l_diversity (init 2 2 (1 # 4)) clinic_frame
              ["age_group"; "gender"] "diagnosis") as (Hret & _ & Hprop).
  destruct (proj2 Hret) as [r Hr].
  - split; [split; [discriminate | repeat constructor]|]. right. right. left.
  - destruct (Hprop r Hr) as (groups & Hg & _ & _ & Hsat).
    exists r, groups. split; [exact Hr|]. split; [exact Hg | exact Hsat].
Defined.

Lemma check_k_anonymity_groups self df qi :
  valid_keys df qi →
  ∃ r, check_k_anonymity self df qi = Return r
    ∧ satisfies_k_anonymity r
      = bool_decide (length (filter (λ g : key * list row,
                                       (Z.of_nat (length g.2) < k self)%Z)
                                    ((λ k0, (k0, members df qi k0)) <$> group_keys df qi))
                     = 0).
Proof.
  intros Hv. unfold check_k_anonymity. rewrite group_sizes_valid by done.
  cbn [bind]. eexists. split; [reflexivity|]. cbn [satisfies_k_anonymity].
  f_equal. rewrite !filter_fmap, !length_fmap. done.
Qed.

(** X4: l-diversity implies k-anonymity.  If the l-diversity check of some
    sensitive column passes, then on the same frame and quasi-identifiers
    the k-anonymity check passes for every k up to that l: a group with l
    distinct values has at least l records. *)
Theorem X4_l_diversity_implies_k_anonymity self1 self2 df qi sensitive_attribute lr kr :
  (k self2 ≤ l self1)%Z →
  check_l_diversity self1 df qi sensitive_attribute = Return lr →
  check_k_anonymity self2 df qi = Return kr →
  satisfies_l_diversity lr = true →
  satisfies_k_anonymity kr = true.
Proof.
  intros Hkl Hlr Hkr Hsat.
  assert (valid_keys df qi) as Hv
    by (eapply check_l_diversity_returns_keys; by exists lr).
  assert (sensitive_attribute ∈ columns df) as Hattr
    by (eapply check_l_diversity_returns_valid; by exists lr).
  destruct (check_l_diversity_groups self1 df qi _ Hv Hattr)
    as (lr' & Hlr' & _ & _ & Hl & _).
  rewrite Hlr in Hlr'. injection Hlr' as <-.
  destruct (check_k_anonymity_groups self2 df qi Hv) as (kr' & Hkr' & Hk).
  rewrite Hkr in Hkr'. injection Hkr' as <-.
  rewrite Hl in Hsat. apply bool_decide_eq_true in Hsat.
  rewrite (filter_fmap _ (λ n, (Z.of_nat n < l self1)%Z)), length_fmap in Hsat.
  apply filter_empty_iff in Hsat.
  rewrite Hk, bool_decide_eq_true, filter_empty_iff.
  eapply Forall_impl; [exact Hsat|]. intros g Hg. simpl in *.
  pose proof (nunique_le ((λ r, cell r sensitive_attribute) <$> g.2)) as Hle.
  rewrite nunique_distinct, length_fmap in Hle. lia.
Qed.

Lemma X4_l_diversity_implies_k_anonymity_witness :
  ∃ kr, check_k_anonymity (init 1 1 (1 # 4)) clinic_frame ["age_group"; "gender"]
        = Return kr
    ∧ satisfies_k_anonymity kr = true.
Proof.
  eexists. split; [vm_compute; reflexivity|].
  eapply (X4_l_diversity_implies_k_anonymity (init 1 1 (1 # 4)) (init 1 1 (1 # 4))
            clinic_frame ["age_group"; "gender"] "diagnosis").
  - simpl. lia.
  - vm_compute. reflexivity.
  - vm_compute. reflexivity.
  - reflexivity.
Defined.

(** ** More on the distribution distance *)

Lemma Qsum_ext {A} (f g : A → Q) (xs : list A) :
  (∀ x, x ∈ xs → (f x == g x)%Q) → (Qsum (f <$> xs) == Qsum (g <$> xs))%Q.
Proof.
  intros Heq. induction xs as [|x xs IH]; [reflexivity|].
  rewrite !fmap_cons. unfold Qsum in *; simpl.
  rewrite (Heq x) by (by left). rewrite IH; [reflexivity|].
  intros y Hy. apply Heq. by right.
Qed.


Lemma distance_of_half_l1 dist1 dist2 :
  0 < total dist1 → 0 < total dist2 →
  (distance_of dist1 dist2 == half_l1_distance dist1 dist2)%Q.
Proof.
  intros H1 H2. unfold distance_of, calculate_earth_movers_distance.
  rewrite emd_loop_pos by done. cbn [bind].
  unfold half_l1_distance. rewrite foldl_Qplus. unfold Qdiv. ring.
Qed.

(** *** Swapping the two counters *)

Lemma abs_binary_round_aux s s' m e l :
  Binary64.abs (binary_round_aux Binary64.prec Binary64.emax s m e l)
  = Binary64.abs (binary_round_aux Binary64.prec Binary64.emax s' m e l).
Proof.
  unfold binary_round_aux.
  destruct (shr_fexp _ _ m e l) as [mrs1 e1].
  destruct (shr_fexp _ _ _ e1 loc_Exact) as [mrs2 e2].
  destruct (shr_m mrs2); [done| |done].
  by destruct (e2 <=? Binary64.emax - Binary64.prec)%Z.
Qed.

Lemma abs_binary_normalize_opp m e :
  Binary64.abs (binary_normalize Binary64.prec Binary64.emax m e false)
  = Binary64.abs (binary_normalize Binary64.prec Binary64.emax (- m) e false).
Proof.
  destruct m as [|p|p]; simpl; [done|..]; unfold binary_round;
    destruct (shl_align _ _ _); apply abs_binary_round_aux.
Qed.

(** [abs(x - y)] and [abs(y - x)] are the same double. *)
Lemma abs_sub_comm (x y : Binary64.float) :
  Binary64.abs (Binary64.sub x y) = Binary64.abs (Binary64.sub y x).
Proof.
  destruct x as [sx|sx| |sx mx ex], y as [sy|sy| |sy my ey];
    try reflexivity; try (by destruct sx, sy).
  unfold Binary64.sub, SFsub. rewrite (Z.min_comm ey ex).
  rewrite abs_binary_normalize_opp. do 2 f_equal. lia.
Qed.

Lemma emd_step_comm dist1 dist2 total1 total2 acc x :
  Binary64.emd_step dist1 dist2 total1 total2 acc x
  = Binary64.emd_step dist2 dist1 total2 total1 acc x.
Proof.
  unfold Binary64.emd_step, Binary64.true_div.
  destruct (decide (total1 = 0)), (decide (total2 = 0)); try reflexivity.
  cbn [bind]. by rewrite abs_sub_comm.
Qed.

(** X5: swapping the two counters.  The two calls differ only through the
    order in which the set of keys is iterated: for one and the same order
    they raise the same exception or return the same double.  The order
    matters: for the counters [{8: 1}] and [{1: 1, 0: 2}] the keys taken as
    8, 0, 1 give 0.9999999999999999 and taken as 0, 1, 8 give 1.0. *)
Theorem X5_distance_symmetric :
  (∀ all_keys dist1 dist2,
     Binary64.calculate_earth_movers_distance all_keys dist1 dist2
     = Binary64.calculate_earth_movers_distance all_keys dist2 dist1)
  ∧ (let dist1 : counter := {[ VInt 8 := 1 ]} in
     let dist2 : counter := {[ VInt 1 := 1; VInt 0 := 2 ]} in
     enumerates [VInt 8; VInt 0; VInt 1] (dom dist1 ∪ dom dist2)
     ∧ enumerates [VInt 0; VInt 1; VInt 8] (dom dist1 ∪ dom dist2)
     ∧ Binary64.calculate_earth_movers_distance [VInt 8; VInt 0; VInt 1] dist1 dist2
       = Return (S754_finite false 9007199254740991 (-53))
     ∧ Binary64.calculate_earth_movers_distance [VInt 0; VInt 1; VInt 8] dist1 dist2
       = Return Binary64.one).
Proof.
  split.
  - intros all_keys dist1 dist2. unfold Binary64.calculate_earth_movers_distance.
    cbn zeta. f_equal. generalize Binary64.zero.
    induction all_keys as [|x ks IH]; intros acc; [done|].
    cbn [foldlM]. rewrite emd_step_comm.
    destruct (Binary64.emd_step dist2 dist1 (total dist2) (total dist1) acc x);
      [apply IH | done].
  - cbn zeta. repeat split; try (refine (bool_decide_unpack _ _); vm_compute; reflexivity).
Qed.

Lemma Qabs_zero_iff (a b : Q) : (Qabs (a - b) == 0 ↔ a == b)%Q.
Proof.
  split.
  - intros H. destruct (Qlt_le_dec (a - b) 0) as [Hneg|Hpos].
    + rewrite Qabs_neg in H by lra. lra.
    + rewrite Qabs_pos in H by lra. lra.
  - intros H. rewrite Qabs_pos by lra. lra.
Qed.





(** ** More on t-closeness *)

(** The whole report of the check, in terms of the groups. *)
Lemma check_t_closeness_explicit self df qi sensitive_attribute :
  valid_keys df qi → sensitive_attribute ∈ columns df →
  let groups := (λ k0, (k0, members df qi k0)) <$> group_keys df qi in
  let distances := group_distance df sensitive_attribute <$> groups in
  let violating := filter (violates self df sensitive_attribute) groups in
  check_t_closeness self df qi sensitive_attribute
  = Return {|
      satisfies_t_closeness := bool_decide (length violating = 0);
      t_value := t self;
      t_sensitive_attribute := sensitive_attribute;
      t_total_groups := length groups;
      t_violating_groups := length violating;
      max_distance :=
        match distances with [] => SInt 0 | d :: ds => SReal (py_max d ds) end;
      avg_distance :=
        match distances with
        | [] => SInt 0
        | _ => SReal (Qsum distances / inject_Z (Z.of_nat (length distances)))%Q
        end;
      violations := take 10 (violation_of df sensitive_attribute <$> violating)
    |}.
Proof.
  intros Hv Hattr. cbn zeta. unfold check_t_closeness, get_column.
  rewrite decide_True by done. cbn [bind].
  rewrite groupby_valid by done. cbn [bind].
  fold (overall_dist df sensitive_attribute).
  rewrite t_closeness_loop by apply group_distances_return.
  cbn [bind fst snd app]. by rewrite !length_fmap.
Qed.





Lemma Qgtb_false (x y : Q) : Qgtb x y = false → (x <= y)%Q.
Proof.
  unfold Qgtb. rewrite negb_false_iff. apply Qle_bool_iff.
Qed.






Lemma half_l1_distance_self dist : (half_l1_distance dist dist == 0)%Q.
Proof.
  unfold half_l1_distance.
  rewrite (Qsum_ext _ (λ _, 0%Q)).
  - rewrite Qsum_const0. reflexivity.
  - intros x _. apply Qabs_zero_iff. reflexivity.
Qed.

Lemma NoDup_constant {A} (a : A) (xs : list A) :
  NoDup xs → xs ≠ [] → Forall (λ x, x = a) xs → xs = [a].
Proof.
  intros Hnd Hne Hall. destruct xs as [|x xs]; [done|].
  apply Forall_cons in Hall as [-> Hall]. f_equal.
  destruct xs as [|y xs]; [done|].
  apply Forall_cons in Hall as [-> _].
  apply NoDup_cons in Hnd as [Hnin _]. exfalso. apply Hnin. by left.
Qed.

(** A frame whose records all carry the same null-free key has that key as
    its only group, and the group holds every record. *)
Lemma single_group df qi k0 :
  rows df ≠ [] → has_null k0 = false →
  Forall (λ r, row_key qi r = k0) (rows df) →
  (λ k1, (k1, members df qi k1)) <$> group_keys df qi = [(k0, rows df)].
Proof.
  intros Hne Hk0 Hall.
  assert (keyed_rows df qi = rows df) as Hkeyed.
  { unfold keyed_rows. apply filter_all.
    eapply Forall_impl; [exact Hall|]. intros r Hr. simpl in Hr. by rewrite Hr. }
  assert (group_keys df qi = [k0]) as ->.
  { apply Permutation_singleton_r. rewrite group_keys_perm, Hkeyed.
    rewrite (NoDup_constant k0 (remove_dups (row_key qi <$> rows df))); [done| | |].
    - apply NoDup_remove_dups.
    - destruct (rows df) as [|r rs] eqn:Hrows; [done|].
      intros Hnil.
      assert (row_key qi r ∈ remove_dups (row_key qi <$> r :: rs)) as Hin
        by (apply elem_of_remove_dups; rewrite fmap_cons; by left).
      rewrite Hnil in Hin. by apply not_elem_of_nil in Hin.
    - apply Forall_forall. intros k1 Hk1.
      apply (proj1 (elem_of_remove_dups _ _)) in Hk1.
      apply list_elem_of_fmap in Hk1 as (r & -> & Hr).
      rewrite Forall_forall in Hall. by apply Hall. }
  simpl. do 2 f_equal. unfold members. rewrite Hkeyed. by apply filter_all.
Qed.

(** X11: a frame with a single equivalence class.  If every record carries
    the same null-free quasi-identifier values, the check finds one group,
    whose distance to the whole frame is 0, and passes for every t >= 0. *)
Theorem X11_check_t_closeness_single_group self df qi sensitive_attribute k0 :
  valid_keys df qi → sensitive_attribute ∈ columns df →
  rows df ≠ [] → has_null k0 = false →
  Forall (λ r, row_key qi r = k0) (rows df) →
  ∃ r, check_t_closeness self df qi sensitive_attribute = Return r
    ∧ t_total_groups r = 1
    ∧ (∃ m, max_distance r = SReal m ∧ (m == 0)%Q)
    ∧ ((0 <= t self)%Q → satisfies_t_closeness r = true ∧ violations r = []).
Proof.
  intros Hv Hattr Hne Hk0 Hall.
  pose proof (check_t_closeness_explicit self df qi sensitive_attribute Hv Hattr) as Hr.
  cbn zeta in Hr. rewrite (single_group df qi k0) in Hr by done.
  assert (group_distance df sensitive_attribute (k0, rows df) == 0)%Q as Hzero.
  { unfold group_distance, group_dist. simpl. fold (overall_dist df sensitive_attribute).
    assert (0 < total (overall_dist df sensitive_attribute)) as Hpos.
    { unfold overall_dist. rewrite total_Counter, length_fmap.
      destruct (rows df); [done | simpl; lia]. }
    rewrite distance_of_half_l1 by done. apply half_l1_distance_self. }
  eexists. split; [exact Hr|]. cbn. split; [done|].
  split; [by eexists|].
  intros Ht. rewrite decide_False; [done|].
  unfold violates. rewrite Hzero. by apply Qle_not_lt.
Qed.

Lemma X11_check_t_closeness_single_group_witness :
  ∃ r, check_t_closeness default_engine one_group_frame ["age_group"] "diagnosis"
       = Return r
    ∧ t_total_groups r = 1 ∧ satisfies_t_closeness r = true.
Proof.
  destruct (X11_check_t_closeness_single_group default_engine one_group_frame
              ["age_group"] "diagnosis" [VStr "18-30"])
    as (r & Hr & Htot & _ & Hsat).
  - split; [discriminate|]. repeat constructor.
  - right. left.
  - discriminate.
  - reflexivity.
  - repeat constructor.
  - exists r. split; [exact Hr|]. split; [exact Htot|].
    apply Hsat. simpl. discriminate.
Defined.

(** ** More on the enforcement *)

Lemma len_annotated df qi : len (annotated df qi) = len df.
Proof. unfold len, annotated. simpl. apply length_fmap. Qed.

Lemma helper_column_annotated df qi : "_group_size" ∈ columns (annotated df qi).
Proof. unfold annotated. simpl. case_decide; set_solver. Qed.

Lemma suppress_branch self df qi :
  rows df ≠ [] →
  enforce_branch self df qi "suppress"
  = Return (select df (λ r, size_ge (k self) (cell r "_group_size"))).
Proof.
  intros Hne. unfold enforce_branch, suppressed_percentage.
  rewrite decide_True by done. cbn zeta.
  rewrite decide_False; [done|]. unfold len. by destruct (rows df).
Qed.

(** X14: the frame without records.  With valid quasi-identifiers the
    method ['suppress'] fails on it with [ZeroDivisionError], raised by the
    percentage of its log line, whereas ['generalize'] returns a frame
    without records. *)
Theorem X14_enforce_empty_frame self df qi :
  valid_keys df qi → rows df = [] →
  (enforce_k_anonymity self df qi "suppress").2 = Raise ZeroDivisionError
  ∧ ∃ out, (enforce_k_anonymity self df qi "generalize").2 = Return out
      ∧ rows out = [].
Proof.
  intros Hv Hrows. rewrite !enforce_k_anonymity_valid by done. cbn [snd]. split.
  - unfold enforce_branch, suppressed_percentage. rewrite decide_True by done.
    cbn zeta. rewrite len_annotated. rewrite decide_True; [done|].
    unfold len. by rewrite Hrows.
  - unfold enforce_branch. rewrite decide_False by done. rewrite decide_True by done.
    unfold drop_column.
    destruct (decide ("age_group" ∈ qi)); cbn [bind columns select rows];
      rewrite decide_True by apply helper_column_annotated;
      eexists; (split; [reflexivity|]); cbn [rows annotated]; by rewrite Hrows.
Qed.

Lemma X14_enforce_empty_frame_witness :
  (enforce_k_anonymity default_engine empty_frame ["age_group"; "gender"] "suppress").2
  = Raise ZeroDivisionError.
Proof.
  apply (X14_enforce_empty_frame default_engine empty_frame ["age_group"; "gender"]).
  - split; [discriminate|]. repeat constructor.
  - reflexivity.
Defined.

(** X15: the fallback of ['generalize'].  When ['age_group'] is not among
    the quasi-identifiers, ['generalize'] on a frame with records returns
    what ['suppress'] returns and leaves the caller with the same frame. *)
Theorem X15_enforce_generalize_fallback self df qi :
  valid_keys df qi → "age_group" ∉ qi → rows df ≠ [] →
  enforce_k_anonymity self df qi "generalize"
  = enforce_k_anonymity self df qi "suppress".
Proof.
  intros Hv Hage Hne. rewrite !enforce_k_anonymity_valid by done. f_equal.
  rewrite suppress_branch.
  - unfold enforce_branch. rewrite decide_False by done.
    rewrite decide_True by done. by rewrite decide_False.
  - unfold annotated. simpl. intros Hnil%fmap_nil_inv. done.
Qed.

Lemma X15_enforce_generalize_fallback_witness :
  enforce_k_anonymity default_engine small_frame ["gender"] "generalize"
  = enforce_k_anonymity default_engine small_frame ["gender"] "suppress".
Proof.
  apply (X15_enforce_generalize_fallback default_engine small_frame ["gender"]).
  - split; [discriminate|]. repeat constructor.
  - intros H. by repeat (apply elem_of_cons in H as [H|H]; [discriminate|]);
      apply not_elem_of_nil in H.
  - discriminate.
Defined.

Lemma check_keys_missing df pre c post :
  Forall (λ c', c' ∈ columns df) pre → c ∉ columns df →
  check_keys df (pre ++ c :: post) = Raise (KeyError c).
Proof.
  intros Hpre Hc. induction Hpre as [|c' pre Hc' _ IH]; simpl.
  - by rewrite decide_False.
  - by rewrite decide_True.
Qed.

Lemma groupby_missing df pre c post :
  Forall (λ c', c' ∈ columns df) pre → c ∉ columns df →
  groupby df (pre ++ c :: post) = Raise (KeyError c).
Proof.
  intros Hpre Hc. unfold groupby.
  rewrite check_keys_missing by done.
  by destruct (pre ++ c :: post) eqn:Heq; [destruct pre; discriminate|].
Qed.

(** X16: a missing quasi-identifier column.  When a listed column is not in
    the frame, whatever the method, [enforce_k_anonymity] raises [KeyError]
    for the first such column and leaves the caller's frame as it was: the
    helper column is stored only after the grouping has succeeded. *)
Theorem X16_enforce_missing_column self df pre c post method :
  Forall (λ c', c' ∈ columns df) pre → c ∉ columns df →
  enforce_k_anonymity self df (pre ++ c :: post) method = (df, Raise (KeyError c)).
Proof.
  intros Hpre Hc. unfold enforce_k_anonymity. by rewrite groupby_missing.
Qed.

Lemma X16_enforce_missing_column_witness :
  enforce_k_anonymity default_engine small_frame ["age_group"; "state"; "gender"]
    "suppress"
  = (small_frame, Raise (KeyError "state")).
Proof.
  apply (X16_enforce_missing_column default_engine small_frame
           ["age_group"] "state" ["gender"] "suppress").
  - repeat constructor.
  - intros H. by repeat (apply elem_of_cons in H as [H|H]; [discriminate|]);
      apply not_elem_of_nil in H.
Defined.

Lemma size_ge_size_cell self df qi r :
  size_ge (k self) (size_cell (group_size df qi r)) = in_large_group self df qi r.
Proof. unfold in_large_group. by destruct (group_size df qi r). Qed.

(** What ['suppress'] returns on a frame with records. *)
Lemma enforce_suppress_rows self df qi :
  valid_keys df qi → well_formed df → "_group_size" ∉ columns df → rows df ≠ [] →
  (enforce_k_anonymity self df qi "suppress").2
  = Return {| columns := columns df;
              rows := filter (λ r, in_large_group self df qi r = true) (rows df) |}.
Proof.
  intros Hv Hwf Hfresh Hne. rewrite enforce_k_anonymity_valid by done. cbn [snd].
  rewrite suppress_branch
    by (unfold annotated; simpl; intros Hnil%fmap_nil_inv; done).
  cbn [bind]. rewrite annotated_fresh by done. unfold select. cbn [columns rows].
  rewrite drop_helper_column by done. do 2 f_equal.
  rewrite (filter_fmap _ (λ r' : row, size_ge (k self) (cell r' "_group_size") = true)).
  rewrite <- list_fmap_compose.
  rewrite (list_filter_iff _ (λ r, in_large_group self df qi r = true)).
  2: { intros r. unfold cell. rewrite lookup_insert_eq. simpl.
       by rewrite size_ge_size_cell. }
  rewrite <- (list_fmap_id (filter _ (rows df))) at 2.
  apply list_fmap_ext. intros i r Hr. simpl.
  rewrite delete_insert_eq, delete_id; [done|].
  eapply helper_column_absent; [done..|].
  apply list_elem_of_lookup_2 in Hr. by apply list_elem_of_filter in Hr as [_ ?].
Qed.

(** X12: what ['suppress'] keeps.  On a frame with records, whose rows
    carry exactly the schema's columns and which has no column called
    [_group_size], ['suppress'] returns the columns of the input and, in
    their order, exactly the records whose group has at least k records; a
    record with a null quasi-identifier belongs to no group and is dropped.
    The result is never longer than the input. *)
Theorem X12_enforce_suppress self df qi :
  valid_keys df qi → well_formed df → "_group_size" ∉ columns df → rows df ≠ [] →
  ∃ out, (enforce_k_anonymity self df qi "suppress").2 = Return out
    ∧ columns out = columns df
    ∧ rows out = filter (λ r, in_large_group self df qi r = true) (rows df)
    ∧ (∀ r, r ∈ rows out → has_null (row_key qi r) = false)
    ∧ len out ≤ len df.
Proof.
  intros Hv Hwf Hfresh Hne. eexists.
  split; [by apply enforce_suppress_rows|]. cbn [columns rows].
  split; [done|]. split; [done|]. split.
  - intros r [Hlarge _]%list_elem_of_filter. unfold in_large_group, group_size in Hlarge.
    by destruct (has_null (row_key qi r)).
  - unfold len. cbn [rows]. apply length_filter.
Qed.

Lemma fresh_small_frame : "_group_size" ∉ columns small_frame.
Proof.
  intros H. by repeat (apply elem_of_cons in H as [H|H]; [discriminate|]);
    apply not_elem_of_nil in H.
Qed.

Lemma X12_enforce_suppress_witness :
  ∃ out, (enforce_k_anonymity (init 2 3 (2 # 10)) small_frame
            ["age_group"; "gender"] "suppress").2 = Return out
    ∧ rows out
      = [ {[ "age_group" := VStr "18-30"; "gender" := VStr "F" ]};
          {[ "age_group" := VStr "18-30"; "gender" := VStr "F" ]} ].
Proof.
  destruct (X12_enforce_suppress (init 2 3 (2 # 10)) small_frame
              ["age_group"; "gender"]) as (out & Hout & _ & Hrows & _).
  - split; [discriminate|]. repeat constructor.
  - repeat constructor.
  - apply fresh_small_frame.
  - discriminate.
  - exists out. split; [exact Hout|]. rewrite Hrows. vm_compute. reflexivity.
Defined.

Lemma enforce_suppress_empty self df qi :
  valid_keys df qi → rows df = [] →
  (enforce_k_anonymity self df qi "suppress").2 = Raise ZeroDivisionError.
Proof.
  intros Hv Hrows. rewrite enforce_k_anonymity_valid by done. cbn [snd].
  unfold enforce_branch, suppressed_percentage. rewrite decide_True by done.
  cbn zeta. rewrite len_annotated. rewrite decide_True; [done|].
  unfold len. by rewrite Hrows.
Qed.

Lemma in_large_group_key self df qi r r' :
  row_key qi r = row_key qi r' →
  in_large_group self df qi r = in_large_group self df qi r'.
Proof. intros Heq. unfold in_large_group, group_size. by rewrite Heq. Qed.

(** The groups of the kept records are whole groups of the input. *)
Lemma members_suppressed self df qi r :
  r ∈ rows df → in_large_group self df qi r = true →
  members {| columns := columns df;
             rows := filter (λ r, in_large_group self df qi r = true) (rows df) |}
          qi (row_key qi r)
  = members df qi (row_key qi r).
Proof.
  intros Hr Hlarge. unfold members, keyed_rows. cbn [rows].
  rewrite !list_filter_filter. apply list_filter_iff. intros r'.
  split; [tauto|]. intros [Hkey Hnn]. repeat split; try done.
  by rewrite (in_large_group_key self df qi r' r Hkey).
Qed.

(** X13: the frame that ['suppress'] returns is k-anonymous.  Checked with
    the same engine and quasi-identifiers it passes, with no violating group
    and no record at risk: the groups that are kept are kept whole. *)
Theorem X13_enforce_suppress_k_anonymous self df qi out :
  valid_keys df qi → well_formed df → "_group_size" ∉ columns df →
  (enforce_k_anonymity self df qi "suppress").2 = Return out →
  ∃ kr, check_k_anonymity self out qi = Return kr
    ∧ satisfies_k_anonymity kr = true
    ∧ k_violating_groups kr = 0
    ∧ records_at_risk kr = 0.
Proof.
  intros Hv Hwf Hfresh Hout.
  assert (rows df ≠ []) as Hne.
  { intros Hnil. rewrite enforce_suppress_empty in Hout by done. discriminate. }
  rewrite enforce_suppress_rows in Hout by done. injection Hout as <-.
  set (out := {| columns := columns df;
                 rows := filter (λ r, in_large_group self df qi r = true) (rows df) |}).
  assert (valid_keys out qi) as Hvout by exact Hv.
  destruct (check_k_anonymity_groups self out qi Hvout) as (kr & Hkr & Hsat).
  exists kr. split; [exact Hkr|].
  assert (satisfies_k_anonymity kr = true) as Htrue.
  { rewrite Hsat, bool_decide_eq_true, filter_empty_iff.
    apply Forall_fmap, Forall_forall. intros k1 Hk1. simpl.
    apply elem_of_group_keys, list_elem_of_fmap in Hk1 as (r & -> & Hr).
    unfold keyed_rows in Hr. apply list_elem_of_filter in Hr as [Hnn Hr].
    subst out. cbn [rows] in Hr. apply list_elem_of_filter in Hr as [Hlarge Hr].
    rewrite members_suppressed by done.
    unfold in_large_group, group_size in Hlarge. rewrite Hnn in Hlarge.
    apply bool_decide_eq_true in Hlarge. lia. }
  split; [exact Htrue|].
  destruct (check_k_anonymity_sizes _ _ _ _ Hkr)
    as (sizes & _ & _ & _ & _ & Hviol & Hsat' & Hrisk & _).
  rewrite Hsat' in Htrue. apply bool_decide_eq_true in Htrue.
  rewrite Hviol, Hrisk. split; [done|].
  apply nil_length_inv in Htrue. by rewrite Htrue.
Qed.

Lemma X13_enforce_suppress_k_anonymous_witness :
  ∃ out kr,
    (enforce_k_anonymity (init 2 3 (2 # 10)) small_frame
       ["age_group"; "gender"] "suppress").2 = Return out
    ∧ check_k_anonymity (init 2 3 (2 # 10)) out ["age_group"; "gender"] = Return kr
    ∧ satisfies_k_anonymity kr = true.
Proof.
  eexists. 
  assert ((enforce_k_anonymity (init 2 3 (2 # 10)) small_frame
             ["age_group"; "gender"] "suppress").2
          = Return {| columns := ["age_group"; "gender"];
                      rows := [ {[ "age_group" := VStr "18-30"; "gender" := VStr "F" ]};
                                {[ "age_group" := VStr "18-30"; "gender" := VStr "F" ]} ] |})
    as Hout by (vm_compute; reflexivity).
  destruct (X13_enforce_suppress_k_anonymous (init 2 3 (2 # 10)) small_frame
              ["age_group"; "gender"] _
              small_frame_valid small_frame_well_formed fresh_small_frame Hout)
    as (kr & Hkr & Hsat & _).
  exists kr. split; [exact Hout|]. split; [exact Hkr | exact Hsat].
Defined.

(** *** Repeated calls *)

Lemma row_key_helper_column qi (r : row) v :
  "_group_size" ∉ qi → row_key qi (<["_group_size" := v]> r) = row_key qi r.
Proof.
  intros Hqi. unfold row_key. apply list_fmap_ext. intros i c Hc.
  unfold cell. rewrite lookup_insert_ne; [done|].
  intros <-. apply Hqi. by eapply list_elem_of_lookup_2.
Qed.

Lemma keyed_rows_annotated df qi1 qi2 :
  "_group_size" ∉ qi2 →
  keyed_rows (annotated df qi1) qi2
  = (λ r, <["_group_size" := size_cell (group_size df qi1 r)]> r) <$> keyed_rows df qi2.
Proof.
  intros Hqi. unfold keyed_rows, annotated. cbn [rows].
  rewrite (filter_fmap _ (λ r' : row, has_null (row_key qi2 r') = false)).
  f_equal. apply list_filter_iff. intros r. by rewrite row_key_helper_column.
Qed.

Lemma members_annotated df qi1 qi2 k0 :
  "_group_size" ∉ qi2 →
  members (annotated df qi1) qi2 k0
  = (λ r, <["_group_size" := size_cell (group_size df qi1 r)]> r) <$> members df qi2 k0.
Proof.
  intros Hqi. unfold members. rewrite keyed_rows_annotated by done.
  rewrite (filter_fmap _ (λ r' : row, row_key qi2 r' = k0)).
  f_equal. apply list_filter_iff. intros r. by rewrite row_key_helper_column.
Qed.

Lemma group_size_annotated df qi1 qi2 (r : row) v :
  "_group_size" ∉ qi2 →
  group_size (annotated df qi1) qi2 (<["_group_size" := v]> r) = group_size df qi2 r.
Proof.
  intros Hqi. unfold group_size. rewrite row_key_helper_column by done.
  destruct (has_null (row_key qi2 r)); [done|].
  by rewrite members_annotated, length_fmap.
Qed.

Lemma annotated_eq df qi :
  annotated df qi
  = {| columns := if decide ("_group_size" ∈ columns df) then columns df
                  else columns df ++ ["_group_size"];
       rows := (λ r, <["_group_size" := size_cell (group_size df qi r)]> r)
               <$> rows df |}.
Proof. reflexivity. Qed.

(** Storing the helper column again overwrites it. *)
Lemma annotated_annotated df qi1 qi2 :
  "_group_size" ∉ qi2 → annotated (annotated df qi1) qi2 = annotated df qi2.
Proof.
  intros Hqi. rewrite (annotated_eq (annotated df qi1) qi2), (annotated_eq df qi2).
  rewrite decide_True by apply helper_column_annotated. f_equal.
  replace (rows (annotated df qi1))
    with ((λ r, <["_group_size" := size_cell (group_size df qi1 r)]> r) <$> rows df)
    by reflexivity.
  rewrite <- list_fmap_compose. apply list_fmap_ext. intros i r _. simpl.
  by rewrite group_size_annotated, insert_insert_eq.
Qed.

Lemma valid_keys_annotated df qi1 qi2 :
  valid_keys df qi2 → valid_keys (annotated df qi1) qi2.
Proof.
  intros [Hne Hall]. split; [done|].
  eapply Forall_impl; [exact Hall|]. intros c Hc. simpl in Hc.
  unfold annotated. cbn [columns]. case_decide; set_solver.
Qed.

(** X17: calling again on the frame that an earlier call has left behind.
    The helper column that the earlier call stored in the caller's frame is
    overwritten, not duplicated: a later call, with any engine, any valid
    quasi-identifiers that do not name [_group_size] and any method, gives
    the outcome and leaves the frame that it would have given and left on
    the original frame. *)
Theorem X17_enforce_after_enforce self1 self2 df qi1 qi2 method1 method2 :
  valid_keys df qi1 → valid_keys df qi2 → "_group_size" ∉ qi2 →
  enforce_k_anonymity self2 (enforce_k_anonymity self1 df qi1 method1).1 qi2 method2
  = enforce_k_anonymity self2 df qi2 method2.
Proof.
  intros Hv1 Hv2 Hqi.
  rewrite (enforce_k_anonymity_valid self1 df qi1) by done. cbn [fst].
  rewrite !enforce_k_anonymity_valid by (done || by apply valid_keys_annotated).
  by rewrite annotated_annotated.
Qed.

Lemma X17_enforce_after_enforce_witness :
  enforce_k_anonymity (init 2 3 (2 # 10))
    (enforce_k_anonymity default_engine small_frame ["gender"] "suppress").1
    ["age_group"; "gender"] "generalize"
  = enforce_k_anonymity (init 2 3 (2 # 10)) small_frame ["age_group"; "gender"]
      "generalize".
Proof.
  apply (X17_enforce_after_enforce default_engine (init 2 3 (2 # 10)) small_frame
           ["gender"] ["age_group"; "gender"] "suppress" "generalize").
  - split; [discriminate|]. repeat constructor.
  - split; [discriminate|]. repeat constructor.
  - intros H. by repeat (apply elem_of_cons in H as [H|H]; [discriminate|]);
      apply not_elem_of_nil in H.
Defined.

(** ** More on the audit *)

Lemma foldlM_app {A B} (f : B → A → outcome B) (b : B) (xs ys : list A) :
  foldlM f b (xs ++ ys) = let* b' := foldlM f b xs in foldlM f b' ys.
Proof.
  revert b. induction xs as [|x xs IH]; intros b; [done|].
  simpl. destruct (f b x); [apply IH | done].
Qed.

Lemma audit_loop_dom self df qi attrs acc acc' :
  foldlM (audit_step self df qi) acc attrs = Return acc' →
  dom acc'.1 = dom acc.1 ∪ list_to_set attrs
  ∧ dom acc'.2 = dom acc.2 ∪ list_to_set attrs.
Proof.
  revert acc. induction attrs as [|a attrs IH]; intros acc Hrun.
  - simpl in Hrun. injection Hrun as <-.
    by rewrite list_to_set_nil, !union_empty_r_L.
  - cbn [foldlM] in Hrun. unfold audit_step at 1 in Hrun.
    destruct (check_l_diversity self df qi a) as [lr|]; [|discriminate].
    destruct (check_t_closeness self df qi a) as [tr|]; [|discriminate].
    cbn [bind] in Hrun. destruct (IH _ Hrun) as [H1 H2]. cbn [fst snd] in H1, H2.
    rewrite H1, H2, !dom_insert_L, list_to_set_cons.
    clear. split; apply set_eq; intros x; rewrite !elem_of_union; tauto.
Qed.

(** The parts of a report that the audit returns. *)
Lemma comprehensive_privacy_audit_parts self now df qi attrs report :
  comprehensive_privacy_audit self now df qi attrs = Return report →
  check_k_anonymity self df qi = Return (k_anonymity report)
  ∧ foldlM (audit_step self df qi) (∅, ∅) attrs
    = Return (l_diversity report, t_closeness report)
  ∧ record_count report = len df
  ∧ timestamp report = now.
Proof.
  intros Hrep. unfold comprehensive_privacy_audit in Hrep.
  destruct (check_k_anonymity self df qi) as [kr|]; [|discriminate].
  cbn [bind] in Hrep.
  destruct (foldlM (audit_step self df qi) (∅, ∅) attrs) as [[ld tc]|];
    [|discriminate].
  cbn [bind] in Hrep.
  destruct (foldlM (score_step ld tc) _ attrs) as [scores|]; [|discriminate].
  cbn [bind] in Hrep. injection Hrep as <-. done.
Qed.

(** X18: what a report holds.  The two dictionaries of a report have
    exactly the listed sensitive attributes as keys, once each however often
    an attribute is listed, and hold under each key the result that the
    l-diversity or t-closeness check returns for that attribute; the
    k-anonymity entry is the result of the k-anonymity check, and
    [record_count] is the number of records of the frame, those with a null
    quasi-identifier included. *)
Theorem X18_audit_report_entries self now df qi sensitive_attributes report :
  comprehensive_privacy_audit self now df qi sensitive_attributes = Return report →
  check_k_anonymity self df qi = Return (k_anonymity report)
  ∧ record_count report = len df
  ∧ dom (l_diversity report) = list_to_set sensitive_attributes
  ∧ dom (t_closeness report) = list_to_set sensitive_attributes
  ∧ (∀ a lr, l_diversity report !! a = Some lr →
       check_l_diversity self df qi a = Return lr)
  ∧ (∀ a tr, t_closeness report !! a = Some tr →
       check_t_closeness self df qi a = Return tr).
Proof.
  intros Hrep.
  destruct (comprehensive_privacy_audit_parts _ _ _ _ _ _ Hrep)
    as (Hkr & Hloop & Hcount & _).
  destruct (comprehensive_privacy_audit_returns_valid self now df qi
              sensitive_attributes) as [Hv Hattrs]; [by exists report|].
  destruct (checked_all self df qi _ Hv Hattrs) as [results Hresults].
  destruct (audit_loop self df qi _ _ (∅, ∅) Hresults)
    as (acc & Hloop' & Hacc & _).
  { intros a. cbn [fst snd]. rewrite !lookup_empty.
    split; [done|]. split; [done|]. split; intros [? ?]; done. }
  rewrite Hloop in Hloop'. injection Hloop' as <-.
  destruct (audit_loop_dom _ _ _ _ _ _ Hloop) as [Hd1 Hd2].
  cbn [fst snd] in Hd1, Hd2.
  rewrite dom_empty_L, union_empty_l_L in Hd1.
  rewrite dom_empty_L, union_empty_l_L in Hd2.
  split; [done|]. split; [done|]. split; [done|]. split; [done|].
  split; intros a x Hx; by apply (Hacc a).
Qed.

Lemma X18_audit_report_entries_witness :
  ∃ report,
    comprehensive_privacy_audit (init 2 2 (1 # 4)) "2024-01-01T00:00:00" clinic_frame
      ["age_group"; "gender"] ["diagnosis"; "diagnosis"] = Return report
    ∧ record_count report = 4
    ∧ dom (l_diversity report) = {[ "diagnosis" ]}.
Proof.
  destruct (comprehensive_privacy_audit_valid (init 2 2 (1 # 4)) "2024-01-01T00:00:00"
              clinic_frame ["age_group"; "gender"] ["diagnosis"; "diagnosis"])
    as (report & _ & _ & Hrep & _).
  - split; [discriminate|]. repeat constructor.
  - repeat constructor.
  - exists report. split; [exact Hrep|].
    destruct (X18_audit_report_entries _ _ _ _ _ _ Hrep) as (_ & Hcount & Hdom & _).
    split; [exact Hcount|]. rewrite Hdom. set_solver.
Defined.

(** X19: errors of the audit.  If the k-anonymity check raises, the audit
    raises the same exception.  With valid quasi-identifiers, the audit
    raises [KeyError] for the first listed sensitive attribute that is not a
    column of the frame; no report is produced. *)
Theorem X19_audit_errors self now df qi pre a post :
  (∀ e, check_k_anonymity self df qi = Raise e →
        comprehensive_privacy_audit self now df qi (pre ++ a :: post) = Raise e)
  ∧ (valid_keys df qi → Forall (λ c, c ∈ columns df) pre → a ∉ columns df →
     comprehensive_privacy_audit self now df qi (pre ++ a :: post)
     = Raise (KeyError a)).
Proof.
  split.
  - intros e He. unfold comprehensive_privacy_audit. by rewrite He.
  - intros Hv Hpre Ha. unfold comprehensive_privacy_audit.
    destruct (check_k_anonymity_valid self df qi Hv) as (kr & -> & _). cbn [bind].
    destruct (checked_all self df qi _ Hv Hpre) as [results Hresults].
    destruct (audit_loop self df qi _ _ (∅, ∅) Hresults) as (acc & Hloop & _).
    { intros a'. cbn [fst snd]. rewrite !lookup_empty.
      split; [done|]. split; [done|]. split; intros [? ?]; done. }
    rewrite foldlM_app, Hloop. cbn [bind foldlM]. unfold audit_step at 1.
    unfold check_l_diversity at 1, require_column.
    rewrite groupby_valid by done. cbn [bind]. by rewrite decide_False.
Qed.

Lemma X19_audit_errors_witness :
  comprehensive_privacy_audit default_engine "2024-01-01T00:00:00" clinic_frame
    ["age_group"; "gender"] ["diagnosis"; "visit_type"; "diagnosis"]
  = Raise (KeyError "visit_type").
Proof.
  apply (X19_audit_errors default_engine "2024-01-01T00:00:00" clinic_frame
           ["age_group"; "gender"] ["diagnosis"] "visit_type" ["diagnosis"]).
  - split; [discriminate|]. repeat constructor.
  - repeat constructor.
  - intros H. by repeat (apply elem_of_cons in H as [H|H]; [discriminate|]);
      apply not_elem_of_nil in H.
Defined.

(** ** More on the ledger *)

Lemma Qsum_app (xs ys : list Q) : (Qsum (xs ++ ys) == Qsum xs + Qsum ys)%Q.
Proof.
  induction xs as [|x xs IH]; [unfold Qsum; simpl; ring|].
  unfold Qsum in *; simpl. rewrite IH. ring.
Qed.

Lemma entry_epsilon_entries_from cum calls :
  entry_epsilon <$> entries_from cum calls = snd <$> calls.
Proof.
  revert cum. induction calls as [|c calls IH]; intros cum; [done|].
  simpl. by rewrite IH.
Qed.

Lemma epsilon_track_all self calls :
  (epsilon (privacy_budget (track_all self calls))
   == epsilon (privacy_budget self) + Qsum (snd <$> calls))%Q.
Proof.
  rewrite track_all_ledger. cbn [epsilon].
  apply (foldl_Qplus (λ c : string * string * Q, c.2)).
Qed.

Lemma last_entries_from cum calls e :
  last (entries_from cum calls) = Some e →
  (cumulative_epsilon e == cum + Qsum (snd <$> calls))%Q.
Proof.
  revert cum. induction calls as [|c calls IH]; intros cum He; [done|].
  rewrite fmap_cons. unfold Qsum; simpl. fold (Qsum (snd <$> calls)).
  destruct calls as [|c' calls].
  - simpl in He. injection He as <-. simpl. unfold Qsum; simpl. ring.
  - change (last (entries_from (cum + c.2) (c' :: calls)) = Some e) in He.
    rewrite (IH _ He). ring.
Qed.

Lemma thresholds_track_all self calls :
  k (track_all self calls) = k self
  ∧ l (track_all self calls) = l self
  ∧ t (track_all self calls) = t self.
Proof.
  unfold track_all. revert self. induction calls as [|c calls IH]; intros self; [done|].
  cbn [foldl]. destruct (IH (track_privacy_budget self c.1.1 c.1.2 c.2).1)
    as (-> & -> & ->). done.
Qed.

(** X20: the invariant of the ledger.  A fresh engine has it, and every run
    of [track_privacy_budget] calls, with costs of any sign, keeps it: the
    cumulative total is the sum of the costs of all recorded entries and the
    last entry carries it.  The run adds one entry per call and does not
    touch the thresholds k, l and t. *)
Theorem X20_ledger_invariant k0 l0 t0 self calls :
  ledger_invariant (init k0 l0 t0)
  ∧ (ledger_invariant self → ledger_invariant (track_all self calls))
  ∧ total_queries (get_privacy_budget_report (track_all self calls))
    = total_queries (get_privacy_budget_report self) + length calls
  ∧ k (track_all self calls) = k self
  ∧ l (track_all self calls) = l self
  ∧ t (track_all self calls) = t self.
Proof.
  split; [|split; [|split]].
  - split; [reflexivity | done].
  - intros [Hsum Hlast]. split.
    + rewrite epsilon_track_all, track_all_ledger. cbn [queries].
      rewrite fmap_app, Qsum_app, entry_epsilon_entries_from, Hsum. reflexivity.
    + intros e He. rewrite epsilon_track_all.
      rewrite track_all_ledger in He. cbn [queries] in He.
      destruct calls as [|c calls].
      * simpl in He. rewrite app_nil_r in He. rewrite (Hlast e He).
        unfold Qsum; simpl. ring.
      * rewrite last_app in He.
        destruct (last (entries_from (epsilon (privacy_budget self)) (c :: calls)))
          as [e'|] eqn:Hl.
        -- injection He as <-. by apply last_entries_from.
        -- cbn [entries_from] in Hl. rewrite last_cons in Hl.
           destruct (last (entries_from _ calls)); discriminate.
  - unfold get_privacy_budget_report. cbn [total_queries].
    rewrite track_all_ledger. cbn [queries]. rewrite length_app. f_equal.
    generalize (epsilon (privacy_budget self)).
    induction calls as [|c calls IH]; intros cum; simpl; [done | by rewrite IH].
  - apply thresholds_track_all.
Qed.

Lemma X20_ledger_invariant_witness :
  ledger_invariant
    (track_all default_engine [("t1", "q1", (1 # 10)%Q); ("t2", "q2", (-3 # 20)%Q)]).
Proof.
  destruct (X20_ledger_invariant 5 3 (2 # 10) default_engine
              [("t1", "q1", (1 # 10)%Q); ("t2", "q2", (-3 # 20)%Q)])
    as (Hinit & Hkeep & _).
  apply Hkeep. exact Hinit.
Defined.

Lemma max0_case (x : Q) :
  ((0 < x)%Q ∧ max0 x = x) ∨ ((x <= 0)%Q ∧ max0 x = 0%Q).
Proof.
  unfold max0. destruct (Qgtb x 0) eqn:Hcmp.
  - left. by apply Qgtb_true in Hcmp.
  - right. by apply Qgtb_false in Hcmp.
Qed.

Lemma Qsum_nonneg (xs : list Q) : Forall (λ x, (0 <= x)%Q) xs → (0 <= Qsum xs)%Q.
Proof.
  induction 1 as [|x xs Hx _ IH]; unfold Qsum in *; simpl; lra.
Qed.

(** X21: the ledger under non-negative costs.  Along a run of calls whose
    costs are all non-negative, the cumulative totals of the appended
    entries never decrease, the total used never decreases, and the
    remaining budget, max(0, 1 - used), never increases and stays at or
    above 0; once the total used has reached 1, the remaining budget is 0. *)
Theorem X21_ledger_monotone self calls :
  Forall (λ c : string * string * Q, (0 <= c.2)%Q) calls →
  let before := get_privacy_budget_report self in
  let after := get_privacy_budget_report (track_all self calls) in
  (total_epsilon_used before <= total_epsilon_used after)%Q
  ∧ (budget_remaining after <= budget_remaining before)%Q
  ∧ (0 <= budget_remaining after)%Q
  ∧ ((1 <= total_epsilon_used before)%Q → budget_remaining after = 0%Q)
  ∧ ∃ entries,
      report_queries after = report_queries before ++ entries
      ∧ ∀ i e, entries !! i = Some e →
          (previous_cumulative (total_epsilon_used before) entries i
           <= cumulative_epsilon e)%Q.
Proof.
  intros Hpos. cbn zeta. unfold get_privacy_budget_report.
  cbn [total_epsilon_used budget_remaining report_queries].
  pose proof (epsilon_track_all self calls) as Heps.
  assert (0 <= Qsum (snd <$> calls))%Q as Hsum.
  { apply Qsum_nonneg, Forall_fmap. exact Hpos. }
  set (e0 := epsilon (privacy_budget self)) in *.
  set (e1 := epsilon (privacy_budget (track_all self calls))) in *.
  split; [lra|]. split; [|split; [|split]].
  - destruct (max0_case (1 - e1)) as [[? ->]|[? ->]],
      (max0_case (1 - e0)) as [[? ->]|[? ->]]; lra.
  - destruct (max0_case (1 - e1)) as [[? ->]|[? ->]]; lra.
  - intros Hfull. destruct (max0_case (1 - e1)) as [[? ->]|[? ->]]; [lra | done].
  - exists (entries_from e0 calls). split; [by rewrite track_all_ledger|].
    intros i e He.
    destruct (entries_from_lookup _ _ _ _ He) as (c & Hc & _ & _ & _ & ->).
    rewrite Forall_forall in Hpos.
    assert (0 <= c.2)%Q by (apply Hpos; by eapply list_elem_of_lookup_2). lra.
Qed.

Lemma X21_ledger_monotone_witness :
  (budget_remaining
     (get_privacy_budget_report
        (track_all default_engine [("t1", "q1", (1 # 10)%Q); ("t2", "q2", (3 # 20)%Q)]))
   <= budget_remaining (get_privacy_budget_report default_engine))%Q.
Proof.
  apply (X21_ledger_monotone default_engine
           [("t1", "q1", (1 # 10)%Q); ("t2", "q2", (3 # 20)%Q)]).
  repeat constructor; simpl; discriminate.
Defined.

(** ** The dashboard *)

Lemma gauge_color_spec (score : Q) :
  (gauge_color score = "green" ↔ (80 <= score)%Q)
  ∧ (gauge_color score = "yellow" ↔ (60 <= score)%Q ∧ (score < 80)%Q)
  ∧ (gauge_color score = "red" ↔ (score < 60)%Q).
Proof.
  unfold gauge_color, Qgeb.
  destruct (Qle_bool 80 score) eqn:H80.
  - apply Qle_bool_iff in H80.
    split; [done|]. split; (split; [discriminate | intros; exfalso; lra]).
  - assert (score < 80)%Q as Hlt.
    { apply Qnot_le_lt. intros Hle. apply Qle_bool_iff in Hle. congruence. }
    destruct (Qle_bool 60 score) eqn:H60.
    + apply Qle_bool_iff in H60.
      split; [split; [discriminate | intros; exfalso; lra]|].
      split; [done|]. split; [discriminate | intros; exfalso; lra].
    + assert (score < 60)%Q as Hlt'.
      { apply Qnot_le_lt. intros Hle. apply Qle_bool_iff in Hle. congruence. }
      split; [split; [discriminate | intros; exfalso; lra]|].
      split; [|done]. split; [discriminate | intros; exfalso; lra].
Qed.

Lemma improvements_needed_spec (report : AuditReport) :
  improvements_needed report = false ↔ (100 <= overall_privacy_score report)%Q.
Proof.
  unfold improvements_needed, Qltb. rewrite negb_false_iff. apply Qle_bool_iff.
Qed.

(** X22: the gauge of the dashboard.  The page audits five checks (the
    k-anonymity check and the l-diversity and t-closeness checks of
    [diagnosis] and [visit_type]), so the score is 20 times the number of
    checks that pass.  The gauge is green exactly when at least four checks
    pass, yellow when exactly three do and red otherwise, and the page
    reports that all requirements are met exactly when all five pass. *)
Theorem X22_dashboard_gauge now df k_val l_val t_val report :
  run_privacy_audit now df k_val l_val t_val = Return report →
  ∃ kr results,
    check_k_anonymity (init k_val l_val t_val) df ["age_group"; "gender"; "state"]
    = Return kr
    ∧ Forall2 (checked (init k_val l_val t_val) df ["age_group"; "gender"; "state"])
              ["diagnosis"; "visit_type"] results
    ∧ let passing := passed (checks_of kr results) in
      let score := overall_privacy_score report in
      passing ≤ 5
      ∧ (score == 20 * inject_Z (Z.of_nat passing))%Q
      ∧ (gauge_color score = "green" ↔ 4 ≤ passing)
      ∧ (gauge_color score = "yellow" ↔ passing = 3)
      ∧ (gauge_color score = "red" ↔ passing ≤ 2)
      ∧ (improvements_needed report = false ↔ passing = 5).
Proof.
  unfold run_privacy_audit. cbn zeta. intros Hrep.
  destruct (comprehensive_privacy_audit_returns_valid _ _ _ _ _ (ex_intro _ _ Hrep))
    as [Hv Hattrs].
  destruct (comprehensive_privacy_audit_valid (init k_val l_val t_val) now df _ _
              Hv Hattrs)
    as (report' & kr & results & Hrep' & Hkr & Hres & Hlen & _ & Hsteps & Hle & _).
  rewrite Hrep in Hrep'. injection Hrep' as <-.
  exists kr, results. split; [exact Hkr|]. split; [exact Hres|]. cbn zeta in *.
  set (passing := passed (checks_of kr results)) in *.
  set (score := overall_privacy_score report) in *.
  simpl in Hle.
  assert (score == 20 * inject_Z (Z.of_nat passing))%Q as Hscore.
  { rewrite Hsteps. simpl. field. }
  destruct (gauge_color_spec score) as (Hgreen & Hyellow & Hred).
  split; [exact Hle|]. split; [exact Hscore|].
  rewrite Hgreen, Hyellow, Hred, improvements_needed_spec. fold score.
  rewrite Hscore.
  assert (passing = 0 ∨ passing = 1 ∨ passing = 2 ∨ passing = 3 ∨ passing = 4
          ∨ passing = 5) as Hcases by lia.
  destruct Hcases as [->|[->|[->|[->|[->| ->]]]]]; simpl;
    repeat split; intros;
    repeat match goal with H : _ ∧ _ |- _ => destruct H end;
    unfold Qle, Qlt in *; simpl in *; lia.
Qed.

Lemma X22_dashboard_gauge_witness :
  ∃ report, run_privacy_audit "2024-01-01T00:00:00" full_frame 2 2 (2 # 10)
            = Return report
    ∧ gauge_color (overall_privacy_score report) = "green"
    ∧ improvements_needed report = false.
Proof.
  assert (∃ report, run_privacy_audit "2024-01-01T00:00:00" full_frame 2 2 (2 # 10)
                    = Return report) as [report Hrep].
  { unfold run_privacy_audit. cbn zeta.
    destruct (comprehensive_privacy_audit_valid (init 2 2 (2 # 10))
                "2024-01-01T00:00:00" full_frame ["age_group"; "gender"; "state"]
                ["diagnosis"; "visit_type"]) as (report & _ & _ & Hrep & _).
    - split; [discriminate|]. repeat constructor.
    - repeat constructor.
    - by exists report. }
  exists report. split; [exact Hrep|].
  destruct (X22_dashboard_gauge _ _ _ _ _ _ Hrep) as (kr & results & _ & _ & Hprops).
  cbn zeta in Hprops. vm_compute in Hrep. injection Hrep as <-.
  split; reflexivity.
Defined.


(** ** The age bands of the loader *)

Lemma month_day_lt_spec (a b : date) :
  month_day_lt a b = true
  ↔ (month a < month b ∨ (month a = month b ∧ day a < day b))%Z.
Proof.
  unfold month_day_lt. destruct (decide (month a = month b)) as [Heq|Hne].
  - rewrite bool_decide_eq_true. lia.
  - rewrite bool_decide_eq_true. lia.
Qed.

(** The age is below [n] exactly before the [n]-th anniversary. *)
Lemma calculate_age_lt today dob n :
  ∃ age, calculate_age today (Some dob) = Some age
    ∧ ((age < n)%Z ↔ date_lt today (anniversary dob n)).
Proof.
  unfold calculate_age. eexists. split; [reflexivity|].
  unfold date_lt, anniversary. simpl.
  pose proof (month_day_lt_spec today dob) as Hspec.
  destruct (month_day_lt today dob).
  - assert (month today < month dob
            ∨ month today = month dob ∧ day today < day dob)%Z by (by apply Hspec).
    lia.
  - assert (¬ (month today < month dob
               ∨ month today = month dob ∧ day today < day dob))%Z
      by (intros H; by apply Hspec in H).
    lia.
Qed.

(** X24: [calculate_age] counts completed years.  For a known date of
    birth it returns n exactly when today is on or after the n-th
    anniversary of the birth and before the next one, whatever the two
    dates; for a missing date of birth it returns [None]. *)
Theorem X24_calculate_age_completed_years today dob n :
  calculate_age today None = None
  ∧ (calculate_age today (Some dob) = Some n
     ↔ date_le (anniversary dob n) today
       ∧ date_lt today (anniversary dob (n + 1))).
Proof.
  split; [done|].
  destruct (calculate_age_lt today dob n) as (age & Hage & Hlt).
  destruct (calculate_age_lt today dob (n + 1)) as (age' & Hage' & Hlt').
  rewrite Hage in Hage'. injection Hage' as <-. rewrite Hage.
  assert (date_le (anniversary dob n) today ↔ ¬ date_lt today (anniversary dob n))
    as Hle by (unfold date_le, date_lt, anniversary; simpl; lia).
  rewrite Hle, <- Hlt, <- Hlt'. split.
  - intros [= ->]. lia.
  - intros [? ?]. f_equal. lia.
Qed.

(** X25: where the age bands of the loader change.  For a known date of
    birth the band that [load_patients] stores, [age_to_group] of
    [calculate_age], is ['Child (0-17)'] exactly before the 18th anniversary
    of the birth, ['Young Adult (18-34)'] from the 18th up to the 35th,
    ['Adult (35-49)'] from the 35th up to the 50th, ['Middle-Aged (50-64)']
    from the 50th up to the 65th and ['Senior (65+)'] from the 65th on; it is
    ['Unknown'] exactly for a missing date of birth. *)
Theorem X25_age_band_boundaries today dob :
  let band := age_to_group (calculate_age today dob) in
  (band = "Unknown" ↔ dob = None)
  ∧ ∀ d, dob = Some d →
    (band = "Child (0-17)" ↔ date_lt today (anniversary d 18))
    ∧ (band = "Young Adult (18-34)"
       ↔ date_le (anniversary d 18) today ∧ date_lt today (anniversary d 35))
    ∧ (band = "Adult (35-49)"
       ↔ date_le (anniversary d 35) today ∧ date_lt today (anniversary d 50))
    ∧ (band = "Middle-Aged (50-64)"
       ↔ date_le (anniversary d 50) today ∧ date_lt today (anniversary d 65))
    ∧ (band = "Senior (65+)" ↔ date_le (anniversary d 65) today).
Proof.
  cbn zeta. split.
  - destruct dob as [d|]; [|done]. simpl. split; [|discriminate].
    repeat case_bool_decide; discriminate.
  - intros d ->.
    assert (∀ n, date_le (anniversary d n) today ↔ ¬ date_lt today (anniversary d n))
      as Hle by (intros n; unfold date_le, date_lt, anniversary; simpl; lia).
    rewrite !Hle.
    destruct (calculate_age_lt today d 18) as (age & Hage & H18).
    destruct (calculate_age_lt today d 35) as (? & Hage35 & H35).
    destruct (calculate_age_lt today d 50) as (? & Hage50 & H50).
    destruct (calculate_age_lt today d 65) as (? & Hage65 & H65).
    rewrite Hage in Hage35, Hage50, Hage65.
    injection Hage35 as <-. injection Hage50 as <-. injection Hage65 as <-.
    rewrite Hage, <- H18, <- H35, <- H50, <- H65. unfold age_to_group.
    repeat case_bool_decide; repeat split; intros;
      repeat match goal with H : _ ∧ _ |- _ => destruct H end;
      first [lia | discriminate | reflexivity].
Qed.

Lemma X25_age_band_boundaries_witness :
  age_to_group (calculate_age (mkDate 2024 6 15) (Some (mkDate 2006 6 16)))
  = "Child (0-17)"
  ∧ age_to_group (calculate_age (mkDate 2024 6 16) (Some (mkDate 2006 6 16)))
    = "Young Adult (18-34)".
Proof.
  split.
  - destruct (X25_age_band_boundaries (mkDate 2024 6 15) (Some (mkDate 2006 6 16)))
      as [_ Hbands].
    destruct (Hbands (mkDate 2006 6 16) eq_refl) as (Hchild & _).
    apply Hchild. unfold date_lt, anniversary. simpl. lia.
  - destruct (X25_age_band_boundaries (mkDate 2024 6 16) (Some (mkDate 2006 6 16)))
      as [_ Hbands].
    destruct (Hbands (mkDate 2006 6 16) eq_refl) as (_ & Hyoung & _).
    apply Hyoung. unfold date_le, date_lt, anniversary. simpl. lia.
Defined.

(** ** Generalization of the loader's bands *)

(** What ['generalize'] returns when ['age_group'] is a quasi-identifier. *)
Lemma enforce_generalize_rows self df qi :
  valid_keys df qi → "age_group" ∈ qi →
  well_formed df → "_group_size" ∉ columns df →
  (enforce_k_anonymity self df qi "generalize").2
  = Return {| columns := columns df;
              rows := (λ r, if in_small_group self df qi r
                            then <["age_group" := generalize_age (cell r "age_group")]> r
                            else r) <$> rows df |}.
Proof.
  intros Hv Hage Hwf Hfresh.
  rewrite enforce_k_anonymity_valid by done.
  unfold enforce_branch.
  rewrite decide_False by done. rewrite decide_True by done.
  rewrite decide_True by done. cbn [bind snd].
  rewrite generalize_loop, annotated_fresh by done. cbn [columns rows].
  rewrite drop_helper_column by done. do 2 f_equal.
  rewrite <- !list_fmap_compose. apply list_fmap_ext. intros i r Hr. simpl.
  assert (r !! "_group_size" = None) as Hnone.
  { eapply helper_column_absent; [done..|]. by eapply list_elem_of_lookup_2. }
  unfold cell at 1. rewrite lookup_insert_eq. simpl.
  rewrite size_lt_size_cell.
  destruct (in_small_group self df qi r).
  - unfold cell. rewrite lookup_insert_ne by done.
    rewrite delete_insert_ne by done. by rewrite delete_insert_eq, delete_id.
  - by rewrite delete_insert_eq, delete_id.
Qed.

(** None of the loader's bands is one that the generalization treats as
    an adult band. *)
Lemma generalize_age_of_band age :
  generalize_age (VStr (age_to_group age)) = VStr "Senior (60+)".
Proof.
  unfold generalize_age, age_to_group.
  destruct age as [a|]; repeat case_bool_decide; try reflexivity;
    match goal with H : _ ∈ _ |- _ =>
      repeat (apply elem_of_cons in H as [H|H]; [discriminate|]);
      by apply not_elem_of_nil in H
    end.
Qed.

(** X23: generalization on the loader's bands.  The three labels that
    ['generalize'] maps to ['Adult (18-60)'] are not among the labels that
    [age_to_group] produces.  On a frame whose [age_group] cells all come
    from [age_to_group], ['generalize'] therefore relabels every record of a
    group smaller than k as ['Senior (60+)'], whatever its band, children
    included, and returns the other records as they are. *)
Theorem X23_enforce_generalize_loader_bands self df qi :
  valid_keys df qi → "age_group" ∈ qi →
  well_formed df → "_group_size" ∉ columns df →
  Forall (λ r, ∃ age, cell r "age_group" = VStr (age_to_group age)) (rows df) →
  ∃ out, (enforce_k_anonymity self df qi "generalize").2 = Return out
    ∧ rows out
      = (λ r, if in_small_group self df qi r
              then <["age_group" := VStr "Senior (60+)"]> r
              else r) <$> rows df.
Proof.
  intros Hv Hage Hwf Hfresh Hbands. eexists.
  split; [by apply enforce_generalize_rows|]. cbn [rows].
  apply list_fmap_ext. intros i r Hr.
  rewrite Forall_forall in Hbands.
  destruct (Hbands r) as [age Hband]; [by eapply list_elem_of_lookup_2|].
  by rewrite Hband, generalize_age_of_band.
Qed.

Lemma X23_enforce_generalize_loader_bands_witness :
  ∃ out, (enforce_k_anonymity (init 2 3 (2 # 10)) loader_frame
            ["age_group"; "gender"] "generalize").2 = Return out
    ∧ rows out
      = [ {[ "age_group" := VStr "Senior (60+)"; "gender" := VStr "F" ]};
          {[ "age_group" := VStr "Adult (35-49)"; "gender" := VStr "M" ]};
          {[ "age_group" := VStr "Adult (35-49)"; "gender" := VStr "M" ]} ].
Proof.
  destruct (X23_enforce_generalize_loader_bands (init 2 3 (2 # 10)) loader_frame
              ["age_group"; "gender"]) as (out & Hout & Hrows).
  - split; [discriminate|]. repeat constructor.
  - by left.
  - repeat constructor.
  - intros H. by repeat (apply elem_of_cons in H as [H|H]; [discriminate|]);
      apply not_elem_of_nil in H.
  - repeat constructor.
    + by exists (Some 10%Z).
    + by exists (Some 40%Z).
    + by exists (Some 40%Z).
  - exists out. split; [exact Hout|]. rewrite Hrows. vm_compute. reflexivity.
Defined.
